(** * BytematicCloud backend: access control, quota ledger, shares, delivery

    A shallow embedding of the route handlers of the storage backend
    (routes/files.js, the folder, share and storage routers,
    middleware/auth.js, config/redis.js) over an in-memory model of the
    relational store, and the properties of the access-control and
    delivery subsystem proved about them.

    Conventions of the embedding

    - A table is the list of its rows, in storage order.  PRIMARY KEY and
      UNIQUE constraints of config/database.js are predicates on the
      store ([pk_folders], [unique_permissions], ...) that the theorems
      take as hypotheses where they need them.
    - A nullable column is an [option]; SQL's three-valued logic is
      written out: a comparison with NULL never selects a row.
    - Identifiers (SERIAL) and byte counts (BIGINT) are [Z].  Where a
      handler parses a byte count into a JavaScript number, the model
      rounds it to the nearest double ([parseInt], [to_double]); the
      download counter, an INTEGER column, makes its UPDATE fail at
      2147483647.
    - A handler is a function from the store (and, where it talks to the
      cache, the cache) to a response and the new store.  The object
      store and the cache server are outside the program: the outcome of
      each call to them is an argument of the handler.
    - A handler function describes a request served with no statement of
      another request between its own.  Where a property depends on that,
      the statements of the handler are given apart as well
      ([upload_single_interleaved], [redeem_select], [redeem_write]). *)

From Stdlib Require Import ZArith String Ascii.
From stdpp Require Import base decidable option list gmap strings pretty.

Open Scope Z_scope.

(** ** Rows of the relational store (config/database.js) *)

(** [permission_type VARCHAR(20) CHECK (permission_type IN ('view',
    'create', 'edit')) NOT NULL] *)
Inductive permission_type := view | create | edit.

(** The [access_level] column computed by the access queries:
    ['owner'] or a [permission_type]. *)
Inductive access := owner | granted (t : permission_type).

Record user_row := {
  u_id : Z;
  storage_quota : Z;
  storage_used : Z
}.

Record folder_row := {
  fo_id : Z;
  fo_user_id : Z;
  fo_name : string;
  parent_folder_id : option Z
}.

Record file_row := {
  f_id : Z;
  f_user_id : Z;
  folder_id : option Z;
  f_name : string;
  original_name : string;
  mime_type : string;
  size : Z;
  backblaze_file_id : string;
  backblaze_url : string;
  public_share_token : option string;
  is_public : bool;
  download_count : Z;
  thumbnail_path : option string;
  has_thumbnail : bool
}.

Record permission_row := {
  p_folder_id : Z;
  shared_with_user_id : Z;
  p_permission_type : permission_type;
  granted_by_user_id : Z
}.

Record coupon_row := {
  c_id : Z;
  c_code : string;
  c_name : string;
  storage_bonus : Z;
  max_uses : Z;
  current_uses : Z;
  expires_at : option Z;
  is_active : bool
}.

Record redemption_row := {
  r_user_id : Z;
  r_coupon_id : Z;
  storage_granted : Z
}.

Record db := {
  users : list user_row;
  folders : list folder_row;
  files : list file_row;
  permissions : list permission_row;
  coupons : list coupon_row;
  coupon_redemptions : list redemption_row
}.

#[global] Instance permission_type_eq_dec : EqDecision permission_type.
Proof. solve_decision. Defined.
#[global] Instance access_eq_dec : EqDecision access.
Proof. solve_decision. Defined.
#[global] Instance user_row_eq_dec : EqDecision user_row.
Proof. solve_decision. Defined.
#[global] Instance folder_row_eq_dec : EqDecision folder_row.
Proof. solve_decision. Defined.
#[global] Instance file_row_eq_dec : EqDecision file_row.
Proof. solve_decision. Defined.
#[global] Instance permission_row_eq_dec : EqDecision permission_row.
Proof. solve_decision. Defined.
#[global] Instance coupon_row_eq_dec : EqDecision coupon_row.
Proof. solve_decision. Defined.
#[global] Instance redemption_row_eq_dec : EqDecision redemption_row.
Proof. solve_decision. Defined.

(** ** Constraints of the schema *)

(** [folders.id SERIAL PRIMARY KEY] *)
Definition pk_folders (d : db) : Prop :=
  ∀ f g, f ∈ folders d → g ∈ folders d → fo_id f = fo_id g → f = g.

(** [files.id SERIAL PRIMARY KEY] *)
Definition pk_files (d : db) : Prop :=
  ∀ f g, f ∈ files d → g ∈ files d → f_id f = f_id g → f = g.

(** [users.id SERIAL PRIMARY KEY] *)
Definition pk_users (d : db) : Prop :=
  ∀ u v, u ∈ users d → v ∈ users d → u_id u = u_id v → u = v.

(** [UNIQUE(folder_id, shared_with_user_id)] on permissions *)
Definition unique_permissions (d : db) : Prop :=
  ∀ p q, p ∈ permissions d → q ∈ permissions d →
    p_folder_id p = p_folder_id q →
    shared_with_user_id p = shared_with_user_id q → p = q.

(** [files.public_share_token VARCHAR(255) UNIQUE] *)
Definition unique_share_tokens (d : db) : Prop :=
  ∀ f g t, f ∈ files d → g ∈ files d →
    public_share_token f = Some t → public_share_token g = Some t → f = g.


(** ** Relational operators *)

(** [l LEFT JOIN r ON on]: every row of [l] with each matching row of
    [r], or once with NULLs when nothing matches. *)
Definition left_join {A B : Type} (on : A → B → Prop)
    `{∀ a b, Decision (on a b)} (l : list A) (r : list B)
    : list (A * option B) :=
  a ← l;
  match filter (on a) r with
  | [] => [(a, None)]
  | ms => (λ b, (a, Some b)) <$> ms
  end.

(** [CASE WHEN x.user_id = $1 THEN 'owner' ELSE p.permission_type END];
    [None] is SQL's NULL. *)
Definition access_level_case (row_owner caller : Z)
    (p_type : option permission_type) : option access :=
  if decide (row_owner = caller) then Some owner else granted <$> p_type.

(** [(x.user_id = $1 OR p.shared_with_user_id = $1)] as a WHERE
    condition: with [p] NULL the second disjunct is unknown, and the row
    is selected only through the first. *)
Definition owner_or_shared (row_owner caller : Z)
    (p : option permission_row) : Prop :=
  row_owner = caller ∨ ∃ q, p = Some q ∧ shared_with_user_id q = caller.

#[global] Instance owner_or_shared_dec o c p : Decision (owner_or_shared o c p).
Proof.
  unfold owner_or_shared. destruct p as [q|].
  - destruct (decide (o = c)); [left; by left|].
    destruct (decide (shared_with_user_id q = c)).
    + left. right. by exists q.
    + right. intros [?|(q' & [= <-] & ?)]; done.
  - destruct (decide (o = c)); [left; by left|].
    right. intros [?|(q' & [=] & ?)]; done.
Defined.

(** ** Folder routes (the folder router) and middleware/auth.js *)

(** [FROM folders f LEFT JOIN permissions p ON f.id = p.folder_id AND
    p.shared_with_user_id = $1] *)
Definition folders_with_grant (caller : Z) (d : db)
    : list (folder_row * option permission_row) :=
  left_join (λ f p, fo_id f = p_folder_id p ∧ shared_with_user_id p = caller)
    (folders d) (permissions d).

(** [f.id = sub.parent_folder_id] *)
Definition is_subfolder_of (f sub : folder_row) : Prop :=
  parent_folder_id sub = Some (fo_id f).

(** [f.id = files.folder_id] *)
Definition is_file_of (f : folder_row) (fl : file_row) : Prop :=
  folder_id fl = Some (fo_id f).

#[global] Instance is_subfolder_of_dec f sub : Decision (is_subfolder_of f sub).
Proof. unfold is_subfolder_of. apply _. Defined.
#[global] Instance is_file_of_dec f fl : Decision (is_file_of f fl).
Proof. unfold is_file_of. apply _. Defined.

(** The rows selected by [GET /:folderId] before grouping: the two
    further LEFT JOINs (child folders, contained files) and the WHERE
    clause [f.id = $2 AND (f.user_id = $1 OR p.shared_with_user_id = $1)]. *)
Definition folder_detail_selection (caller folderId : Z) (d : db)
    : list (folder_row * option permission_row * option folder_row
            * option file_row) :=
  filter (λ r, fo_id r.1.1.1 = folderId
               ∧ owner_or_shared (fo_user_id r.1.1.1) caller r.1.1.2)
    (left_join
       (λ (r : folder_row * option permission_row * option folder_row) fl,
          is_file_of r.1.1 fl)
       (left_join
          (λ (r : folder_row * option permission_row) sub,
             is_subfolder_of r.1 sub)
          (folders_with_grant caller d) (folders d))
       (files d)).

(** The key of [GROUP BY f.id, p.permission_type].  [f.*] may be selected
    because [f.id] is the primary key, so the key carries the folder row. *)
Definition folder_group_key
    (r : folder_row * option permission_row * option folder_row
         * option file_row) : folder_row * option permission_type :=
  (r.1.1.1, p_permission_type <$> r.1.1.2).

Record folder_detail := {
  fd_folder : folder_row;
  fd_access_level : option access;
  subfolder_count : nat;
  file_count : nat
}.

(** The result set of [GET /:folderId]: one row per group, with
    [COUNT(sub.id)] and [COUNT(files.id)] counting the joined rows of the
    group whose column is not NULL. *)
Definition folder_detail_rows (caller folderId : Z) (d : db)
    : list folder_detail :=
  let sel := folder_detail_selection caller folderId d in
  (λ k, {| fd_folder := k.1;
           fd_access_level := access_level_case (fo_user_id k.1) caller k.2;
           subfolder_count :=
             length (filter (λ r, folder_group_key r = k ∧ is_Some r.1.2) sel);
           file_count :=
             length (filter (λ r, folder_group_key r = k ∧ is_Some r.2) sel) |})
  <$> remove_dups (folder_group_key <$> sel).

Inductive get_folder_response :=
| FolderNotFoundOrDenied        (* 404 'Folder not found or access denied' *)
| FolderOk (folder : folder_detail).

(** [router.get('/:folderId', ...)] *)
Definition get_folder (caller folderId : Z) (d : db) : get_folder_response :=
  match folder_detail_rows caller folderId d with
  | [] => FolderNotFoundOrDenied
  | row :: _ => FolderOk row
  end.

(** The caller's resolved access level on a folder, as the folder router
    reports it: the [access_level] of the returned row, and [None] (the
    level [none]) when the route answers 404. *)
Definition resolve_folder (caller folderId : Z) (d : db) : option access :=
  match get_folder caller folderId d with
  | FolderNotFoundOrDenied => None
  | FolderOk row => fd_access_level row
  end.

(** The query shared by [PUT /:folderId], [DELETE /:folderId] and the
    bulk deletes: the same join without the counts. *)
Definition folder_access_rows (caller : Z) (ok : folder_row → Prop)
    `{∀ f, Decision (ok f)} (d : db) : list (folder_row * option access) :=
  (λ r, (r.1, access_level_case (fo_user_id r.1) caller
                (p_permission_type <$> r.2)))
  <$> filter (λ r : folder_row * option permission_row,
                ok r.1 ∧ owner_or_shared (fo_user_id r.1) caller r.2)
        (folders_with_grant caller d).

Inductive middleware_result :=
| Next
| FolderNotFound                (* 404 'Folder not found' *)
| AccessDenied                  (* 403 'Access denied' *)
| InsufficientPermissions.      (* 403 'Insufficient permissions' *)

(** [const permissionLevels = { view: 1, create: 2, edit: 3 }] *)
Definition permissionLevels (t : permission_type) : Z :=
  match t with view => 1 | create => 2 | edit => 3 end.

(** [checkFolderPermission(requiredPermission)] of middleware/auth.js *)
Definition checkFolderPermission (requiredPermission : permission_type)
    (userId folderId : Z) (d : db) : middleware_result :=
  match filter (λ f, fo_id f = folderId) (folders d) with
  | [] => FolderNotFound
  | folder :: _ =>
    if decide (fo_user_id folder = userId) then Next
    else
      match filter (λ p, p_folder_id p = folderId
                         ∧ shared_with_user_id p = userId) (permissions d) with
      | [] => AccessDenied
      | p :: _ =>
        if decide (permissionLevels (p_permission_type p)
                   < permissionLevels requiredPermission)
        then InsufficientPermissions
        else Next
      end
  end.

(** ** File routes (routes/files.js): the access query *)

(** [FROM files f LEFT JOIN permissions p ON f.folder_id = p.folder_id AND
    p.shared_with_user_id = $1].  A file at the root has [folder_id]
    NULL, which equals no [p.folder_id]. *)
Definition files_with_grant (caller : Z) (d : db)
    : list (file_row * option permission_row) :=
  left_join (λ f p, folder_id f = Some (p_folder_id p)
                    ∧ shared_with_user_id p = caller)
    (files d) (permissions d).

(** [SELECT f.*, CASE WHEN f.user_id = $1 THEN 'owner' ELSE
    p.permission_type END as access_level ... WHERE <ok> AND (f.user_id =
    $1 OR p.shared_with_user_id = $1)], where [ok] is [f.id = $2] or
    [f.id IN (...)]. *)
Definition file_access_rows (caller : Z) (ok : file_row → Prop)
    `{∀ f, Decision (ok f)} (d : db) : list (file_row * option access) :=
  (λ r, (r.1, access_level_case (f_user_id r.1) caller
                (p_permission_type <$> r.2)))
  <$> filter (λ r : file_row * option permission_row,
                ok r.1 ∧ owner_or_shared (f_user_id r.1) caller r.2)
        (files_with_grant caller d).

Inductive get_file_response :=
| FileNotFoundOrDenied          (* 404 'File not found or access denied' *)
| FileOk (file : file_row) (access_level : option access).

(** [router.get('/:fileId', ...)] *)
Definition get_file (caller fileId : Z) (d : db) : get_file_response :=
  match file_access_rows caller (λ f, f_id f = fileId) d with
  | [] => FileNotFoundOrDenied
  | (file, level) :: _ => FileOk file level
  end.

(** The caller's resolved access level on a file: the [access_level] of
    the row the file routes work with, [None] (the level [none]) when
    they answer 404. *)
Definition resolve_file (caller fileId : Z) (d : db) : option access :=
  match get_file caller fileId d with
  | FileNotFoundOrDenied => None
  | FileOk _ level => level
  end.

(** ** Updates of the store *)

Definition with_users (us : list user_row) (d : db) : db :=
  {| users := us; folders := folders d; files := files d;
     permissions := permissions d; coupons := coupons d;
     coupon_redemptions := coupon_redemptions d |}.

Definition with_folders (fs : list folder_row) (d : db) : db :=
  {| users := users d; folders := fs; files := files d;
     permissions := permissions d; coupons := coupons d;
     coupon_redemptions := coupon_redemptions d |}.

Definition with_files (fs : list file_row) (d : db) : db :=
  {| users := users d; folders := folders d; files := fs;
     permissions := permissions d; coupons := coupons d;
     coupon_redemptions := coupon_redemptions d |}.

Definition with_permissions (ps : list permission_row) (d : db) : db :=
  {| users := users d; folders := folders d; files := files d;
     permissions := ps; coupons := coupons d;
     coupon_redemptions := coupon_redemptions d |}.

Definition set_storage_used (used : Z) (u : user_row) : user_row :=
  {| u_id := u_id u; storage_quota := storage_quota u; storage_used := used |}.

(** [UPDATE users SET storage_used = storage_used + $1 WHERE id = $2]
    (with a negative [delta] for [storage_used - $1]) *)
Definition add_storage_used (delta userId : Z) (d : db) : db :=
  with_users
    ((λ u, if decide (u_id u = userId)
           then set_storage_used (storage_used u + delta) u else u)
     <$> users d) d.

(** [UPDATE users SET storage_used = $1 WHERE id = $2] *)
Definition update_storage_used (used userId : Z) (d : db) : db :=
  with_users
    ((λ u, if decide (u_id u = userId) then set_storage_used used u else u)
     <$> users d) d.

(** [INSERT INTO files (...) VALUES (...)] *)
Definition insert_file (row : file_row) (d : db) : db :=
  with_files (files d ++ [row]) d.

(** [DELETE FROM files WHERE id = $1] *)
Definition delete_file_row (fileId : Z) (d : db) : db :=
  with_files (filter (λ f, f_id f ≠ fileId) (files d)) d.

(** [SELECT storage_quota, storage_used FROM users WHERE id = $1] *)
Definition select_user (userId : Z) (d : db) : list user_row :=
  filter (λ u, u_id u = userId) (users d).

(** The sum of the sizes of the rows of [fs] owned by [userId]. *)
Definition sum_sizes (userId : Z) (fs : list file_row) : Z :=
  foldr Z.add 0 (size <$> filter (λ f, f_user_id f = userId) fs).

(** [SELECT COALESCE(SUM(size), 0) as actual_used FROM files WHERE
    user_id = $1] *)
Definition actual_used (userId : Z) (d : db) : Z :=
  sum_sizes userId (files d).

(** ** JavaScript numbers

    node-postgres hands a BIGINT column and a SUM over as decimal text;
    the routes turn the text into a number with [parseInt] and compute on
    numbers.  A number is a double: of the integers it holds those up to
    2^53 in absolute value and, beyond, the multiples of the power of two
    that leaves 53 significant bits. *)

(** The double nearest to the integer [a ≥ 0]; of two that are equally
    near, the one with the even significand. *)
Definition nearest_double (a : Z) : Z :=
  if decide (a < 2 ^ 53) then a
  else
    let e := Z.log2 a - 52 in
    let q := a / 2 ^ e in
    let r := a mod 2 ^ e in
    let q' := if decide (2 * r < 2 ^ e) then q
              else if decide (2 ^ e < 2 * r) then q + 1
              else if Z.even q then q else q + 1 in
    q' * 2 ^ e.

(** The number that holds the integer [z]: the result of [+] and [-] on
    numbers that hold integers is [to_double] of the exact result. *)
Definition to_double (z : Z) : Z := Z.sgn z * nearest_double (Z.abs z).

(** [parseInt(text)] for the decimal text of the integer [z] *)
Definition parseInt (z : Z) : Z := to_double z.

(** ** Quota admission and upload (routes/files.js) *)

Definition two_digits (k : Z) : string :=
  if decide (k < 10) then "0" +:+ pretty k else pretty k.

(** [x.toFixed(2)] for the number [x = num / den], where [num] is a
    number that holds an integer and [den] a positive power of two, so
    that the quotient is exact.  [toFixed] prints the integer [n] for
    which [n / 100 - |x|] is nearest to zero (the larger one of two) with
    a point before its last two digits, after a ["-"] when [x < 0]. *)
Definition toFixed2 (num den : Z) : string :=
  let n := (200 * Z.abs num + den) / (2 * den) in
  (if decide (num < 0) then "-" else "")
  +:+ pretty (n / 100) +:+ "." +:+ two_digits (n mod 100).

(** [const formatBytes = (bytes) => { const gb = bytes / (1024 * 1024 *
    1024); return gb >= 1 ? `${gb.toFixed(2)}GB` : `${(bytes / (1024 *
    1024)).toFixed(2)}MB`; }] of the upload routes *)
Definition formatBytes (bytes : Z) : string :=
  if decide (1024 * 1024 * 1024 ≤ bytes)
  then toFixed2 bytes (1024 * 1024 * 1024) +:+ "GB"
  else toFixed2 bytes (1024 * 1024) +:+ "MB".

(** One uploaded file of a request (multer's [originalname], [mimetype],
    [size]), together with what the world outside the program does while
    the handler processes it. *)
Record incoming_file := {
  originalname : string;
  mimetype : string;
  in_size : Z;
  uniqueFileName : string;
    (* `${crypto.randomUUID()}${fileExtension}` *)
  uploadResult : option (string * string);
    (* backblazeService.uploadFile: (fileId, downloadUrl), None when it throws *)
  thumbnailData : option (string * string);
    (* (thumbnailName, thumbnailFileId); None when no thumbnail is
       generated or its generation failed *)
  assigned_id : Z
    (* the id the files sequence gives the inserted row *)
}.

(** The [details] of a 413 answer.  The single-file route names the first
    field [fileSize]. *)
Record storage_details := {
  totalUploadSize : string;
  availableSpace : string;
  quotaLimit : string
}.

Inductive upload_response :=
| NoFilesUploaded               (* 400 'No files uploaded' *)
| UploadFolderNotFound          (* 404 'Folder not found' *)
| UploadForbidden               (* 403 'Insufficient permissions to upload to this folder' *)
| UploadUserNotFound            (* 404 'User not found' *)
| InsufficientStorage (details : storage_details)   (* 413 *)
| UploadCompleted (successful : list file_row) (failed : list string)  (* 201 *)
| FileUploaded (file : file_row)                    (* 201 *)
| FileUploadFailed              (* 500 'File upload failed' *)
| SomethingWentWrong.           (* 500 'Something went wrong!' *)

(** The folder check of both upload routes: [None] lets the upload go on. *)
Definition upload_folder_check (caller : Z) (folder : option Z) (d : db)
    : option upload_response :=
  match folder with
  | None => None
  | Some folderId =>
    match filter (λ f, fo_id f = folderId) (folders d) with
    | [] => Some UploadFolderNotFound
    | row :: _ =>
      if decide (fo_user_id row ≠ caller) then
        match filter (λ p, p_folder_id p = folderId
                           ∧ shared_with_user_id p = caller) (permissions d) with
        | [] => Some UploadForbidden
        | p :: _ =>
          if decide (p_permission_type p = create ∨ p_permission_type p = edit)
          then None else Some UploadForbidden
        end
      else None
    end
  end.

(** The row [INSERT INTO files ... RETURNING *] creates. *)
Definition new_file_row (caller : Z) (folder : option Z) (file : incoming_file)
    (fileId downloadUrl : string) : file_row :=
  {| f_id := assigned_id file; f_user_id := caller; folder_id := folder;
     f_name := uniqueFileName file; original_name := originalname file;
     mime_type := mimetype file; size := in_size file;
     backblaze_file_id := fileId; backblaze_url := downloadUrl;
     public_share_token := None; is_public := false; download_count := 0;
     thumbnail_path := fst <$> thumbnailData file;
     has_thumbnail := bool_decide (is_Some (thumbnailData file)) |}.

(** The quota check, [if (parseInt(storage_used) + totalUploadSize >
    parseInt(storage_quota))], for the number [requested]: [Some details]
    is the 413 answer. *)
Definition quota_check (requested : Z) (user : user_row)
    : option storage_details :=
  if decide (to_double (parseInt (storage_used user) + requested)
             > parseInt (storage_quota user)) then
    let availableSpace :=
      to_double (parseInt (storage_quota user) - parseInt (storage_used user)) in
    Some {| totalUploadSize := formatBytes requested;
            availableSpace := formatBytes availableSpace;
            quotaLimit := formatBytes (parseInt (storage_quota user)) |}
  else None.

(** The limits the upload routes give to multer: [fileSize: 1024 * 1024 *
    1024] for both, [files: 20] and [array('files', 20)] for the batch. *)
Definition fileSize : Z := 1024 * 1024 * 1024.
Definition maxCount : nat := 20.

(** multer hands the files to the handler when they keep the limits.
    Otherwise it ends the request with an error (LIMIT_FILE_SIZE,
    LIMIT_FILE_COUNT), the handler is not called, and the error handler
    of the app answers 500 'Something went wrong!'. *)
Definition within_limits (count : nat) (files : list incoming_file) : Prop :=
  (length files ≤ count)%nat ∧ Forall (λ f, in_size f ≤ fileSize) files.

#[global] Instance within_limits_dec count files :
  Decision (within_limits count files).
Proof. unfold within_limits. apply _. Defined.

(** The relational store and the bucket of the object store, the latter
    as the set of the ids of the blobs it holds. *)
Record world := {
  w_db : db;
  bucket : gset string
}.

Definition on_db (f : db → db) (w : world) : world :=
  {| w_db := f (w_db w); bucket := bucket w |}.

(** [backblazeService.uploadFile] returned [fileId] (and, when a
    thumbnail was made, the thumbnail upload returned its id). *)
Definition put_blobs (fileId : string) (thumbnail : option (string * string))
    (w : world) : world :=
  {| w_db := w_db w;
     bucket := {[fileId]} ∪ from_option (λ t, {[t.2]}) ∅ thumbnail ∪ bucket w |}.

(** [backblazeService.deleteFile(fileId, name)] inside its [try]:
    [returned = true] removes the blob, [returned = false] is the throw
    that the [catch] logs. *)
Definition try_delete_blob (returned : bool) (fileId : string) (w : world)
    : world :=
  if returned then {| w_db := w_db w; bucket := bucket w ∖ {[fileId]} |}
  else w.

(** One turn of the loop of [POST /upload/multiple]: store the blob,
    insert the row, then add the size to [storage_used]; a throw of the
    blob store lands the file in [failed] and leaves the store alone. *)
Definition upload_one (caller : Z) (folder : option Z)
    (acc : list file_row * list string * world) (file : incoming_file)
    : list file_row * list string * world :=
  let '(successful, failed, w) := acc in
  match uploadResult file with
  | None => (successful, failed ++ [originalname file], w)
  | Some (fileId, downloadUrl) =>
    let row := new_file_row caller folder file fileId downloadUrl in
    (successful ++ [row], failed,
     on_db (add_storage_used (in_size file) caller)
       (on_db (insert_file row)
          (put_blobs fileId (thumbnailData file) w)))
  end.

(** [router.post('/upload/multiple', authenticateToken,
    uploadMultiple.array('files', 20), ...)], with what the requests of
    other callers do to the store between the reads of this one (the folder
    check and the quota check) and its loop: every statement is a
    [pool.query] of its own, and nothing locks the user's row in
    between. *)
Definition upload_multiple_interleaved (others : world → world)
    (caller : Z) (folder : option Z)
    (files : list incoming_file) (w : world) : upload_response * world :=
  if decide (within_limits maxCount files) then
    match files with
    | [] => (NoFilesUploaded, w)
    | _ =>
      match upload_folder_check caller folder (w_db w) with
      | Some refusal => (refusal, w)
      | None =>
        match select_user caller (w_db w) with
        | [] => (UploadUserNotFound, w)
        | user :: _ =>
          let totalUploadSize :=
            foldl (λ sum file, to_double (sum + in_size file)) 0 files in
          match quota_check totalUploadSize user with
          | Some details => (InsufficientStorage details, w)
          | None =>
            let '(successful, failed, w') :=
              foldl (upload_one caller folder) ([], [], others w) files in
            (UploadCompleted successful failed, w')
          end
        end
      end
    end
  else (SomethingWentWrong, w).

(** The batch route served with no other request in between. *)
Definition upload_multiple (caller : Z) (folder : option Z)
    (files : list incoming_file) (w : world) : upload_response * world :=
  upload_multiple_interleaved (λ w, w) caller folder files w.

(** [router.post('/upload', authenticateToken, upload.single('file'),
    ...)], with what the requests of other callers do to the store between
    the quota check of this one and its writes.  A throw of the blob store
    reaches the outer [catch] and answers 500. *)
Definition upload_single_interleaved (others : world → world)
    (caller : Z) (folder : option Z)
    (file : incoming_file) (w : world) : upload_response * world :=
  if decide (in_size file ≤ fileSize) then
    match upload_folder_check caller folder (w_db w) with
    | Some refusal => (refusal, w)
    | None =>
      match select_user caller (w_db w) with
      | [] => (UploadUserNotFound, w)
      | user :: _ =>
        match quota_check (in_size file) user with
        | Some details => (InsufficientStorage details, w)
        | None =>
          match uploadResult file with
          | None => (FileUploadFailed, others w)
          | Some (fileId, downloadUrl) =>
            let row := new_file_row caller folder file fileId downloadUrl in
            (FileUploaded row,
             on_db (add_storage_used (in_size file) caller)
               (on_db (insert_file row)
                  (put_blobs fileId (thumbnailData file) (others w))))
          end
        end
      end
    end
  else (SomethingWentWrong, w).

(** The single route served with no other request in between. *)
Definition upload_single (caller : Z) (folder : option Z)
    (file : incoming_file) (w : world) : upload_response * world :=
  upload_single_interleaved (λ w, w) caller folder file w.

(** ** Deleting files (routes/files.js) *)

(** [file.access_level === 'owner' || file.access_level === 'edit'] *)
Definition may_delete (level : option access) : Prop :=
  level = Some owner ∨ level = Some (granted edit).

#[global] Instance may_delete_dec level : Decision (may_delete level).
Proof. unfold may_delete. apply _. Defined.

Inductive delete_file_response :=
| DeleteNotFoundOrDenied        (* 404 'File not found or access denied' *)
| DeleteForbidden               (* 403 'Insufficient permissions to delete this file' *)
| FileDeleted.                  (* 200 'File deleted successfully' *)

(** [router.delete('/:fileId', ...)].  [blob_deleted] tells whether
    [backblazeService.deleteFile] returned or threw. *)
Definition delete_file (blob_deleted : bool) (caller fileId : Z) (w : world)
    : delete_file_response * world :=
  match file_access_rows caller (λ f, f_id f = fileId) (w_db w) with
  | [] => (DeleteNotFoundOrDenied, w)
  | (file, level) :: _ =>
    if decide (may_delete level) then
      (FileDeleted,
       on_db (add_storage_used (- size file) (f_user_id file))
         (on_db (delete_file_row fileId)
            (try_delete_blob blob_deleted (backblaze_file_id file) w)))
    else (DeleteForbidden, w)
  end.

(** The lists of ids and names the bulk routes report. *)
Record bulk_file_results := {
  deleted : list (Z * string);
  failed : list (Z * string);
  notFound : list Z;
  unauthorized : list (Z * string)
}.

Inductive bulk_delete_response :=
| BulkBadRequest                (* 400 'fileIds must be a non-empty array' *)
| BulkForbidden (unauthorizedFiles : list (Z * string))   (* 403 *)
| BulkCompleted (results : bulk_file_results).            (* 200 *)

(** [fileIds.filter(id => !foundFiles.find(f => f.id === parseInt(id)))] *)
Definition not_found_ids (ids : list Z) (found : list (file_row * option access))
    : list Z :=
  filter (λ id, id ∉ (f_id ∘ fst <$> found)) ids.

(** One turn of the loop of [DELETE /bulk]: delete the blob (a throw is
    logged), delete the row, subtract the size from [storage_used]. *)
Definition bulk_delete_one (blob_deleted : file_row → bool)
    (acc : list (Z * string) * world) (file : file_row)
    : list (Z * string) * world :=
  let '(deleted, w) := acc in
  (deleted ++ [(f_id file, original_name file)],
   on_db (add_storage_used (- size file) (f_user_id file))
     (on_db (delete_file_row (f_id file))
        (try_delete_blob (blob_deleted file) (backblaze_file_id file) w))).

(** [router.delete('/bulk', ...)] of routes/files.js *)
Definition bulk_delete_files (blob_deleted : file_row → bool)
    (caller : Z) (fileIds : list Z) (w : world) : bulk_delete_response * world :=
  match fileIds with
  | [] => (BulkBadRequest, w)
  | _ =>
    let foundFiles := file_access_rows caller (λ f, f_id f ∈ fileIds) (w_db w) in
    let unauthorizedFiles :=
      filter (λ r : file_row * option access, ¬ may_delete r.2) foundFiles in
    let deletableFiles :=
      filter (λ r : file_row * option access, may_delete r.2) foundFiles in
    match unauthorizedFiles with
    | _ :: _ =>
      (BulkForbidden ((λ r, (f_id r.1, original_name r.1)) <$> unauthorizedFiles),
       w)
    | [] =>
      let '(deleted, w') :=
        foldl (bulk_delete_one blob_deleted) ([], w) (fst <$> deletableFiles) in
      (BulkCompleted {| deleted := deleted; failed := [];
                        notFound := not_found_ids fileIds foundFiles;
                        unauthorized := [] |}, w')
    end
  end.

(** ** Mixed bulk delete (the folder router) *)

Record bulk_folder_results := {
  folders_deleted : list (Z * string);
  folders_failed : list (Z * string);
  folders_notFound : list Z;
  folders_unauthorized : list (Z * string);
  nonEmpty : list (Z * string)
}.

Record mixed_results := {
  results_files : bulk_file_results;
  results_folders : bulk_folder_results
}.

Inductive mixed_delete_response :=
| MixedBadRequest               (* 400 'At least one of fileIds or folderIds ...' *)
| MixedForbidden (results : mixed_results)      (* 403 *)
| MixedCompleted (results : mixed_results).     (* 200 *)

(** What [require('../services/backblaze')] gives in this repository:
    there is no services/backblaze.js (the blob service of the other
    routes is config/backblaze.js), so the call throws. *)
Definition services_backblaze : option (file_row → bool) := None.

(** One turn of the file loop of [DELETE /bulk/mixed].  The turn loads
    its blob service with [require('../services/backblaze')] inside its
    [try]: [service] is [None] when loading it throws, and the file then
    lands in [failed]; were there such a module, [service] would tell,
    for a file, whether its [deleteFile] returned or threw, and the row
    would be deleted without a write to [users.storage_used].  The route
    of this repository runs with [services_backblaze]. *)
Definition mixed_delete_file_one (service : option (file_row → bool))
    (acc : list (Z * string) * list (Z * string) * world) (file : file_row)
    : list (Z * string) * list (Z * string) * world :=
  let '(deleted, failed, w) := acc in
  match service with
  | None => (deleted, failed ++ [(f_id file, original_name file)], w)
  | Some blob_deleted =>
    (deleted ++ [(f_id file, original_name file)], failed,
     on_db (delete_file_row (f_id file))
       (try_delete_blob (blob_deleted file) (backblaze_file_id file) w))
  end.

(** The file part of [DELETE /bulk/mixed]. *)
Definition mixed_delete_files (service : option (file_row → bool))
    (caller : Z) (fileIds : list Z) (w : world) : bulk_file_results * world :=
  match fileIds with
  | [] => ({| deleted := []; failed := []; notFound := [];
              unauthorized := [] |}, w)
  | _ =>
    let foundFiles := file_access_rows caller (λ f, f_id f ∈ fileIds) (w_db w) in
    let unauthorizedFiles :=
      filter (λ r : file_row * option access, ¬ may_delete r.2) foundFiles in
    let deletableFiles :=
      filter (λ r : file_row * option access, may_delete r.2) foundFiles in
    let '(deleted, failed, w') :=
      foldl (mixed_delete_file_one service) ([], [], w)
        (fst <$> deletableFiles) in
    ({| deleted := deleted; failed := failed;
        notFound := not_found_ids fileIds foundFiles;
        unauthorized :=
          (λ r, (f_id r.1, original_name r.1)) <$> unauthorizedFiles |}, w')
  end.

(** [DELETE FROM permissions WHERE folder_id = $1] then [DELETE FROM
    folders WHERE id = $1] *)
Definition delete_folder_rows (folderId : Z) (d : db) : db :=
  with_folders (filter (λ f, fo_id f ≠ folderId) (folders d))
    (with_permissions (filter (λ p, p_folder_id p ≠ folderId) (permissions d))
       d).

(** One turn of the folder loop: a folder with child folders or files is
    reported in [nonEmpty] and kept. *)
Definition mixed_delete_folder_one
    (acc : list (Z * string) * list (Z * string) * db) (folder : folder_row)
    : list (Z * string) * list (Z * string) * db :=
  let '(deleted, non_empty, d) := acc in
  let subfolderCount :=
    length (filter (λ f, parent_folder_id f = Some (fo_id folder)) (folders d)) in
  let fileCount :=
    length (filter (λ f, folder_id f = Some (fo_id folder)) (files d)) in
  if decide (0 < subfolderCount ∨ 0 < fileCount)%nat
  then (deleted, non_empty ++ [(fo_id folder, fo_name folder)], d)
  else (deleted ++ [(fo_id folder, fo_name folder)], non_empty,
        delete_folder_rows (fo_id folder) d).

(** The folder part of [DELETE /bulk/mixed]. *)
Definition mixed_delete_folders (caller : Z) (folderIds : list Z) (d : db)
    : bulk_folder_results * db :=
  match folderIds with
  | [] => ({| folders_deleted := []; folders_failed := [];
              folders_notFound := []; folders_unauthorized := [];
              nonEmpty := [] |}, d)
  | _ =>
    let foundFolders := folder_access_rows caller (λ f, fo_id f ∈ folderIds) d in
    let unauthorizedFolders :=
      filter (λ r : folder_row * option access, r.2 ≠ Some owner) foundFolders in
    let deletableFolders :=
      filter (λ r : folder_row * option access, r.2 = Some owner) foundFolders in
    let '(deleted, non_empty, d') :=
      foldl mixed_delete_folder_one ([], [], d) (fst <$> deletableFolders) in
    ({| folders_deleted := deleted; folders_failed := [];
        folders_notFound :=
          filter (λ id, id ∉ (fo_id ∘ fst <$> foundFolders)) folderIds;
        folders_unauthorized :=
          (λ r, (fo_id r.1, fo_name r.1)) <$> unauthorizedFolders;
        nonEmpty := non_empty |}, d')
  end.

(** [router.delete('/bulk/mixed', ...)] *)
Definition mixed_bulk_delete (service : option (file_row → bool))
    (caller : Z) (fileIds folderIds : list Z) (w : world)
    : mixed_delete_response * world :=
  if decide (fileIds = [] ∧ folderIds = []) then (MixedBadRequest, w)
  else
    let '(file_results, w1) := mixed_delete_files service caller fileIds w in
    let '(folder_results, d2) :=
      mixed_delete_folders caller folderIds (w_db w1) in
    let results := {| results_files := file_results;
                      results_folders := folder_results |} in
    let w2 := on_db (λ _, d2) w1 in
    if decide (unauthorized file_results ≠ []
               ∨ folders_unauthorized folder_results ≠ [])
    then (MixedForbidden results, w2)
    else (MixedCompleted results, w2).

(** The [results] object of an answer of the mixed route. *)
Definition mixed_results_of (r : mixed_delete_response) : option mixed_results :=
  match r with
  | MixedBadRequest => None
  | MixedForbidden results | MixedCompleted results => Some results
  end.

(** ** Storage statistics (the storage router) *)

Record storage_figures := {
  quota : Z;
  used : Z;
  available : Z
}.

Inductive stats_response :=
| StatsUserNotFound             (* 404 'User not found' *)
| StatsOk (storage : storage_figures).

(** [router.get('/stats', ...)]: the sum of the sizes of the caller's
    files and the stored [storage_used] are compared as numbers, and the
    sum, as a number, is written when they differ.  The per-type breakdown
    and the list of redemptions of the answer only read the store and are
    left out. *)
Definition get_stats (caller : Z) (d : db) : stats_response * db :=
  match select_user caller d with
  | [] => (StatsUserNotFound, d)
  | user :: _ =>
    let actualUsed := parseInt (actual_used caller d) in
    let d' := if decide (actualUsed ≠ parseInt (storage_used user))
              then update_storage_used actualUsed caller d else d in
    (StatsOk {| quota := parseInt (storage_quota user); used := actualUsed;
                available :=
                  to_double (parseInt (storage_quota user) - actualUsed) |},
     d')
  end.

(** ** Histories of uploads and deletes *)

(** The persisted [used] of a user: the [storage_used] that [SELECT ...
    FROM users WHERE id = $1] returns in [rows[0]]. *)
Definition used_of (userId : Z) (d : db) : option Z :=
  storage_used <$> head (select_user userId d).

(** A request to one of the routes that store or delete files, with the
    outcomes of its calls to the object store. *)
Inductive operation :=
| Upload (caller : Z) (folder : option Z) (file : incoming_file)
| UploadMultiple (caller : Z) (folder : option Z) (files : list incoming_file)
| Delete (blob_deleted : bool) (caller fileId : Z)
| BulkDelete (blob_deleted : file_row → bool) (caller : Z) (fileIds : list Z)
| MixedDelete (service : option (file_row → bool)) (caller : Z)
    (fileIds folderIds : list Z).

Definition perform (w : world) (op : operation) : world :=
  match op with
  | Upload caller folder file => (upload_single caller folder file w).2
  | UploadMultiple caller folder files => (upload_multiple caller folder files w).2
  | Delete blob_deleted caller fileId => (delete_file blob_deleted caller fileId w).2
  | BulkDelete blob_deleted caller fileIds =>
    (bulk_delete_files blob_deleted caller fileIds w).2
  | MixedDelete service caller fileIds folderIds =>
    (mixed_bulk_delete service caller fileIds folderIds w).2
  end.

Definition run (ops : list operation) (w : world) : world :=
  foldl perform w ops.

(** ** The cache (config/redis.js) *)

(** The descriptor of a public share.  The public routes build it with
    different fields; a field a route leaves out is [None]. *)
Record share_data := {
  fileId : Z;
  fileName : string;
  mimeType : string;
  sd_size : Z;
  backblazeUrl : option string;
  ownerId : option Z;
  hasThumbnail : option bool;
  thumbnailPath : option string;
  downloadCount : option Z
}.

(** What the routes put in the cache (as JSON). *)
Inductive cached_value :=
| CachedShare (data : share_data)
| CachedFile (metadata : file_row)
| CachedUrl (url : string).

(** The service object: its client (the key-value store behind it, each
    entry with the time in seconds at which it expires; [None] before
    [connect]) and its [isConnected] flag. *)
Record RedisService := {
  client : option (gmap string (cached_value * Z));
  isConnected : bool
}.

Module Redis.

(** A call of the client returns or throws (the server is out of reach,
    or refuses the command); the methods of the service catch a throw.
    Each method below takes, as its first argument, whether the call of
    the client that it makes returns. *)

(** [async set(key, value, expireInSeconds = 3600)].  [SETEX] refuses a
    lifetime that is not positive. *)
Definition set (answered : bool) (now : Z) (key : string)
    (value : cached_value) (expireInSeconds : Z) (this : RedisService)
    : bool * RedisService :=
  match client this with
  | Some entries =>
    if isConnected this then
      if answered && bool_decide (0 < expireInSeconds) then
        (true, {| client := Some (<[key := (value, now + expireInSeconds)]> entries);
                  isConnected := true |})
      else (false, this)
    else (false, this)
  | None => (false, this)
  end.

(** [async get(key)] *)
Definition get (answered : bool) (now : Z) (key : string)
    (this : RedisService) : option cached_value :=
  match client this with
  | Some entries =>
    if isConnected this then
      if answered then
        match entries !! key with
        | Some (value, expires) =>
          if decide (now < expires) then Some value else None
        | None => None
        end
      else None
    else None
  | None => None
  end.

(** [async del(key)] *)
Definition del (answered : bool) (key : string) (this : RedisService)
    : bool * RedisService :=
  match client this with
  | Some entries =>
    if isConnected this then
      if answered then
        (true, {| client := Some (delete key entries); isConnected := true |})
      else (false, this)
    else (false, this)
  | None => (false, this)
  end.

(** [async cacheFileMetadata(fileId, metadata, expireInSeconds = 3600)] *)
Definition cacheFileMetadata (answered : bool) (now : Z) (file_id : Z)
    (metadata : file_row) (expireInSeconds : Z) (this : RedisService)
    : bool * RedisService :=
  set answered now ("file:" +:+ pretty file_id) (CachedFile metadata)
    expireInSeconds this.

(** [async cachePublicShare(shareToken, fileData, expireInSeconds = 86400)] *)
Definition cachePublicShare (answered : bool) (now : Z) (shareToken : string)
    (fileData : share_data) (expireInSeconds : Z) (this : RedisService)
    : bool * RedisService :=
  set answered now ("public:" +:+ shareToken) (CachedShare fileData)
    expireInSeconds this.

(** [async getPublicShare(shareToken)].  Only share descriptors are
    stored under the ["public:"] keys. *)
Definition getPublicShare (answered : bool) (now : Z) (shareToken : string)
    (this : RedisService) : option share_data :=
  match get answered now ("public:" +:+ shareToken) this with
  | Some (CachedShare data) => Some data
  | _ => None
  end.

(** [async exists(key)]: [result === 1] for a live entry. *)
Definition exists_ (answered : bool) (now : Z) (key : string)
    (this : RedisService) : bool :=
  match client this with
  | Some entries =>
    if isConnected this then
      if answered then
        match entries !! key with
        | Some (_, expires) => bool_decide (now < expires)
        | None => false
        end
      else false
    else false
  | None => false
  end.

(** [async getFileMetadata(fileId)] *)
Definition getFileMetadata (answered : bool) (now : Z) (file_id : Z)
    (this : RedisService) : option cached_value :=
  get answered now ("file:" +:+ pretty file_id) this.

(** [async cacheDownloadUrl(fileId, url, expireInSeconds = 300)] *)
Definition cacheDownloadUrl (answered : bool) (now : Z) (file_id : Z)
    (url : string) (expireInSeconds : Z) (this : RedisService)
    : bool * RedisService :=
  set answered now ("download:" +:+ pretty file_id) (CachedUrl url)
    expireInSeconds this.

(** [async getDownloadUrl(fileId)] *)
Definition getDownloadUrl (answered : bool) (now : Z) (file_id : Z)
    (this : RedisService) : option cached_value :=
  get answered now ("download:" +:+ pretty file_id) this.

(** [async invalidateFileCache(fileId)]: two calls of [del], each with
    its own outcome. *)
Definition invalidateFileCache (answered_file answered_download : bool)
    (file_id : Z) (this : RedisService) : RedisService :=
  (del answered_download ("download:" +:+ pretty file_id)
     (del answered_file ("file:" +:+ pretty file_id) this).2).2.

(** The listeners that [connect] gives the client: ['error'] clears the
    flag, ['connect'] sets it.  The entries are kept by the server. *)
Definition on_error (this : RedisService) : RedisService :=
  {| client := client this; isConnected := false |}.

Definition on_connect (this : RedisService) : RedisService :=
  {| client := client this; isConnected := true |}.

(** The [options] object the client hands to [retry_strategy]:
    [options.error.code] when there is one, the time retried so far in
    milliseconds, the number of the attempt. *)
Record retry_options := {
  error_code : option string;
  total_retry_time : Z;
  attempt : Z
}.

Inductive retry_decision :=
| RetryError (message : string)   (* return new Error(...) *)
| RetryStop                        (* return undefined *)
| RetryAfter (milliseconds : Z).

(** [retry_strategy: (options) => { ... }] of [connect] *)
Definition retry_strategy (options : retry_options) : retry_decision :=
  if decide (error_code options = Some "ECONNREFUSED")
  then RetryError "Redis server connection refused"
  else if decide (total_retry_time options > 1000 * 60 * 60)
  then RetryError "Retry time exhausted"
  else if decide (attempt options > 10) then RetryStop
  else RetryAfter (Z.min (attempt options * 100) 3000).

End Redis.

(** ** Public shares (routes/files.js) *)

(** [UPDATE files SET public_share_token = $1, is_public = <flag> WHERE
    id = $2] *)
Definition set_share (token : option string) (flag : bool) (file_id : Z)
    (d : db) : db :=
  with_files
    ((λ f, if decide (f_id f = file_id) then
             {| f_id := f_id f; f_user_id := f_user_id f;
                folder_id := folder_id f; f_name := f_name f;
                original_name := original_name f; mime_type := mime_type f;
                size := size f; backblaze_file_id := backblaze_file_id f;
                backblaze_url := backblaze_url f;
                public_share_token := token; is_public := flag;
                download_count := download_count f;
                thumbnail_path := thumbnail_path f;
                has_thumbnail := has_thumbnail f |}
           else f) <$> files d) d.

(** [UPDATE files SET download_count = download_count + 1 WHERE id = $1] *)
Definition count_download (file_id : Z) (d : db) : db :=
  with_files
    ((λ f, if decide (f_id f = file_id) then
             {| f_id := f_id f; f_user_id := f_user_id f;
                folder_id := folder_id f; f_name := f_name f;
                original_name := original_name f; mime_type := mime_type f;
                size := size f; backblaze_file_id := backblaze_file_id f;
                backblaze_url := backblaze_url f;
                public_share_token := public_share_token f;
                is_public := is_public f;
                download_count := download_count f + 1;
                thumbnail_path := thumbnail_path f;
                has_thumbnail := has_thumbnail f |}
           else f) <$> files d) d.

(** [download_count] is an INTEGER column: the UPDATE above fails
    ('integer out of range') when a row it would change stands at
    2147483647, and then changes nothing. *)
Definition count_download_fails (file_id : Z) (d : db) : Prop :=
  Exists (λ f, f_id f = file_id ∧ 2147483647 < download_count f + 1) (files d).

#[global] Instance count_download_fails_dec file_id d :
  Decision (count_download_fails file_id d).
Proof. unfold count_download_fails. apply _. Defined.

(** The descriptor the download and view routes build from a row. *)
Definition share_of_file (file : file_row) : share_data :=
  {| fileId := f_id file; fileName := original_name file;
     mimeType := mime_type file; sd_size := size file;
     backblazeUrl := Some (backblaze_url file); ownerId := Some (f_user_id file);
     hasThumbnail := None; thumbnailPath := None; downloadCount := None |}.

(** The descriptor the thumbnail route builds. *)
Definition thumbnail_share_of_file (file : file_row) : share_data :=
  {| fileId := f_id file; fileName := original_name file;
     mimeType := mime_type file; sd_size := size file;
     backblazeUrl := None; ownerId := None;
     hasThumbnail := Some (has_thumbnail file);
     thumbnailPath := thumbnail_path file; downloadCount := None |}.

(** The descriptor the info route builds. *)
Definition info_share_of_file (file : file_row) : share_data :=
  {| fileId := f_id file; fileName := original_name file;
     mimeType := mime_type file; sd_size := size file;
     backblazeUrl := None; ownerId := None;
     hasThumbnail := None; thumbnailPath := None;
     downloadCount := Some (download_count file) |}.

Inductive create_share_response :=
| ShareFileNotFoundOrDenied     (* 404 'File not found or access denied' *)
| ShareForbidden                (* 403 'Insufficient permissions to share this file' *)
| ShareCreated (shareToken : string).

(** [router.post('/:fileId/share', ...)]; [shareToken] is the value of
    [crypto.randomUUID()], [expiresIn] the hours of the request (24 when
    absent); [stored] tells whether the call of the cache client
    returned. *)
Definition create_share (stored : bool) (now : Z) (shareToken : string)
    (expiresIn : Z) (caller file_id : Z) (st : db * RedisService)
    : create_share_response * (db * RedisService) :=
  let '(d, redis) := st in
  match file_access_rows caller (λ f, f_id f = file_id) d with
  | [] => (ShareFileNotFoundOrDenied, st)
  | (file, level) :: _ =>
    if decide (may_delete level) then
      let d' := set_share (Some shareToken) true file_id d in
      let redis' :=
        (Redis.cachePublicShare stored now shareToken (share_of_file file)
           (expiresIn * 3600) redis).2 in
      (ShareCreated shareToken, (d', redis'))
    else (ShareForbidden, st)
  end.

Inductive revoke_share_response :=
| RevokeFileNotFoundOrDenied    (* 404 'File not found or access denied' *)
| ShareRevoked.                 (* 200 'Public share link revoked successfully' *)

(** [router.delete('/:fileId/share', ...)].  [if (file.public_share_token)]
    is false for NULL and for the empty string.  [removed] tells whether
    the call of the cache client returned; the route does not look at
    what [del] answers. *)
Definition revoke_share (removed : bool) (caller file_id : Z)
    (st : db * RedisService)
    : revoke_share_response * (db * RedisService) :=
  let '(d, redis) := st in
  match filter (λ f, f_id f = file_id ∧ f_user_id f = caller) (files d) with
  | [] => (RevokeFileNotFoundOrDenied, st)
  | file :: _ =>
    let d' := set_share None false file_id d in
    let redis' :=
      match public_share_token file with
      | Some token =>
        if decide (token = "") then redis
        else (Redis.del removed ("public:" +:+ token) redis).2
      | None => redis
      end in
    (ShareRevoked, (d', redis'))
  end.

(** The opening of the four public routes: the cache first, then [SELECT
    * FROM files WHERE public_share_token = $1 AND is_public = TRUE], and
    (except in the info route) the descriptor cached again for an hour.
    [None] is the answer 404 'File not found or share link expired'.
    [got] and [stored] tell whether the two calls of the cache client
    returned. *)
Definition lookup_share (build : file_row → share_data) (recache : bool)
    (got stored : bool) (now : Z) (shareToken : string)
    (st : db * RedisService) : option share_data * RedisService :=
  let '(d, redis) := st in
  match Redis.getPublicShare got now shareToken redis with
  | Some shareData => (Some shareData, redis)
  | None =>
    match filter (λ f, public_share_token f = Some shareToken
                       ∧ is_public f = true) (files d) with
    | [] => (None, redis)
    | file :: _ =>
      (Some (build file),
       if recache
       then (Redis.cachePublicShare stored now shareToken (build file) 3600
               redis).2
       else redis)
    end
  end.

(** ** Delivery (routes/files.js) *)

Inductive disposition :=
| Inline (filename : string)        (* `inline; filename="..."` *)
| Attachment (filename : string).   (* `attachment; filename="..."` *)

(** The headers a delivery route sets before it pipes the blob, and the
    name of the blob it asks a download URL for.  A header the route does
    not set is [None]. *)
Record delivery := {
  content_type : string;
  content_length : option Z;
  content_disposition : option disposition;
  blob_name : string
}.

(** [mime.startsWith('image/') || mime.startsWith('video/') || mime ===
    'application/pdf'] *)
Definition inline_type (mime : string) : bool :=
  String.prefix "image/" mime || String.prefix "video/" mime
  || bool_decide (mime = "application/pdf").

(** [supportedTypes.some(type => file.mime_type.startsWith(type) ||
    file.mime_type === type)] with [supportedTypes = ['image/', 'video/',
    'application/pdf']] *)
Definition isSupported (mime : string) : bool :=
  (String.prefix "image/" mime || bool_decide (mime = "image/"))
  || (String.prefix "video/" mime || bool_decide (mime = "video/"))
  || (String.prefix "application/pdf" mime
      || bool_decide (mime = "application/pdf")).

Inductive download_response :=
| DownloadNotFoundOrDenied      (* 404 'File not found or access denied' *)
| DownloadUnsupported           (* 400 'File type not supported for inline viewing' *)
| DownloadFailed                (* 500 'Failed to download file' *)
| Delivered (headers : delivery).

(** [router.get('/:fileId/download', ...)] for the user id of a verified
    token: the disposition is [attachment] for every file.  A failure of
    the UPDATE of the counter reaches the outer [catch]. *)
Definition download_file (userId file_id : Z) (d : db) : download_response * db :=
  match file_access_rows userId (λ f, f_id f = file_id) d with
  | [] => (DownloadNotFoundOrDenied, d)
  | (file, _) :: _ =>
    if decide (count_download_fails file_id d) then (DownloadFailed, d)
    else
      (Delivered {| content_type := mime_type file;
                    content_length := Some (size file);
                    content_disposition :=
                      Some (Attachment (original_name file));
                    blob_name := f_name file |},
       count_download file_id d)
  end.

(** [router.get('/:fileId/view', ...)] for the user id of a verified token *)
Definition view_file (stored : bool) (now : Z) (userId file_id : Z)
    (st : db * RedisService) : download_response * (db * RedisService) :=
  let '(d, redis) := st in
  match file_access_rows userId (λ f, f_id f = file_id) d with
  | [] => (DownloadNotFoundOrDenied, st)
  | (file, _) :: _ =>
    if isSupported (mime_type file) then
      (Delivered {| content_type := mime_type file;
                    content_length := None;
                    content_disposition :=
                      if inline_type (mime_type file)
                      then Some (Inline (original_name file)) else None;
                    blob_name := f_name file |},
       (d, (Redis.cacheFileMetadata stored now file_id file 3600 redis).2))
    else (DownloadUnsupported, st)
  end.

Inductive public_response :=
| PublicNotFound                (* 404 'File not found or share link expired' *)
| PublicFileMissing             (* 404 'File not found' *)
| PublicNotViewable             (* 400 'File is not viewable inline' *)
| PublicNoThumbnail             (* 404 'Thumbnail not available' *)
| PublicFailed                  (* 500 'Failed to access file' *)
| PublicDelivered (headers : delivery)
| PublicInfo (name mime : string) (bytes : Z) (downloads : option Z)
    (isImage isVideo has_thumb : bool).

(** [SELECT name FROM files WHERE id = $1] *)
Definition select_name (file_id : Z) (d : db) : list string :=
  f_name <$> filter (λ f, f_id f = file_id) (files d).

(** [router.get('/public/:shareToken', ...)].  A failure of the UPDATE
    of the counter reaches the outer [catch]. *)
Definition public_download (got stored : bool) (now : Z)
    (shareToken : string) (st : db * RedisService)
    : public_response * (db * RedisService) :=
  match lookup_share share_of_file true got stored now shareToken st with
  | (None, redis) => (PublicNotFound, (st.1, redis))
  | (Some shareData, redis) =>
    if decide (count_download_fails (fileId shareData) st.1)
    then (PublicFailed, (st.1, redis))
    else
      let d := count_download (fileId shareData) st.1 in
      match select_name (fileId shareData) d with
      | [] => (PublicFileMissing, (d, redis))
      | name :: _ =>
        (PublicDelivered
           {| content_type := mimeType shareData;
              content_length := Some (sd_size shareData);
              content_disposition :=
                Some (if inline_type (mimeType shareData)
                      then Inline (fileName shareData)
                      else Attachment (fileName shareData));
              blob_name := name |},
         (d, redis))
      end
  end.

(** [router.get('/public/:shareToken/view', ...)] *)
Definition public_view (got stored : bool) (now : Z) (shareToken : string)
    (st : db * RedisService) : public_response * (db * RedisService) :=
  match lookup_share share_of_file true got stored now shareToken st with
  | (None, redis) => (PublicNotFound, (st.1, redis))
  | (Some shareData, redis) =>
    if inline_type (mimeType shareData) then
      match select_name (fileId shareData) st.1 with
      | [] => (PublicFileMissing, (st.1, redis))
      | name :: _ =>
        (PublicDelivered
           {| content_type := mimeType shareData;
              content_length := None;
              content_disposition := Some (Inline (fileName shareData));
              blob_name := name |},
         (st.1, redis))
      end
    else (PublicNotViewable, (st.1, redis))
  end.

(** [router.get('/public/:shareToken/thumbnail', ...)] *)
Definition public_thumbnail (got stored : bool) (now : Z)
    (shareToken : string) (st : db * RedisService)
    : public_response * (db * RedisService) :=
  match lookup_share thumbnail_share_of_file true got stored now shareToken
          st with
  | (None, redis) => (PublicNotFound, (st.1, redis))
  | (Some shareData, redis) =>
    match hasThumbnail shareData, thumbnailPath shareData with
    | Some true, Some path =>
      if decide (path = "") then (PublicNoThumbnail, (st.1, redis))
      else
        (PublicDelivered
           {| content_type := "image/jpeg"; content_length := None;
              content_disposition := None; blob_name := path |},
         (st.1, redis))
    | _, _ => (PublicNoThumbnail, (st.1, redis))
    end
  end.

(** [router.get('/public/:shareToken/info', ...)] *)
Definition public_info (got : bool) (now : Z) (shareToken : string)
    (st : db * RedisService) : public_response * (db * RedisService) :=
  match lookup_share info_share_of_file false got false now shareToken st with
  | (None, redis) => (PublicNotFound, (st.1, redis))
  | (Some shareData, redis) =>
    (PublicInfo (fileName shareData) (mimeType shareData) (sd_size shareData)
       (downloadCount shareData)
       (String.prefix "image/" (mimeType shareData))
       (String.prefix "video/" (mimeType shareData))
       (default false (hasThumbnail shareData)),
     (st.1, redis))
  end.

(** ** Coupon redemption (the storage router) *)

Definition with_coupons (cs : list coupon_row) (d : db) : db :=
  {| users := users d; folders := folders d; files := files d;
     permissions := permissions d; coupons := cs;
     coupon_redemptions := coupon_redemptions d |}.

Definition with_coupon_redemptions (rs : list redemption_row) (d : db) : db :=
  {| users := users d; folders := folders d; files := files d;
     permissions := permissions d; coupons := coupons d;
     coupon_redemptions := rs |}.

(** [code.toUpperCase()], on the ASCII letters. *)
Definition upper_ascii (c : ascii) : ascii :=
  let n := nat_of_ascii c in
  if (97 <=? n)%nat && (n <=? 122)%nat then ascii_of_nat (n - 32) else c.

Fixpoint toUpperCase (s : string) : string :=
  match s with
  | EmptyString => EmptyString
  | String c rest => String (upper_ascii c) (toUpperCase rest)
  end.

(** [is_active = TRUE AND (expires_at IS NULL OR expires_at > NOW()) AND
    current_uses < max_uses] *)
Definition coupon_valid (now : Z) (c : coupon_row) : Prop :=
  is_active c = true
  ∧ match expires_at c with None => True | Some e => now < e end
  ∧ current_uses c < max_uses c.

#[global] Instance coupon_valid_dec now c : Decision (coupon_valid now c).
Proof. unfold coupon_valid. destruct (expires_at c); apply _. Defined.

(** [UPDATE users SET storage_quota = storage_quota + $1 WHERE id = $2] *)
Definition add_storage_quota (bonus userId : Z) (d : db) : db :=
  with_users
    ((λ u, if decide (u_id u = userId)
           then {| u_id := u_id u; storage_quota := storage_quota u + bonus;
                   storage_used := storage_used u |}
           else u) <$> users d) d.

(** [UPDATE coupons SET current_uses = current_uses + 1 WHERE id = $1] *)
Definition use_coupon (c : coupon_row) : coupon_row :=
  {| c_id := c_id c; c_code := c_code c; c_name := c_name c;
     storage_bonus := storage_bonus c; max_uses := max_uses c;
     current_uses := current_uses c + 1; expires_at := expires_at c;
     is_active := is_active c |}.

Definition increment_uses (couponId : Z) (d : db) : db :=
  with_coupons
    ((λ c, if decide (c_id c = couponId) then use_coupon c else c)
     <$> coupons d) d.

(** [Math.round(num / den)] for a positive power of two [den]: the
    nearest integer, the larger one on a tie. *)
Definition round_div (num den : Z) : Z := (2 * num + den) / (2 * den).

(** [formatBytes] of the coupon route: [`${Math.round(gb)}GB`] from 1 GiB
    on, [`${Math.round(bytes / (1024 * 1024))}MB`] below. *)
Definition formatBonus (bytes : Z) : string :=
  if decide (1024 * 1024 * 1024 ≤ bytes)
  then pretty (round_div bytes (1024 * 1024 * 1024)) +:+ "GB"
  else pretty (round_div bytes (1024 * 1024)) +:+ "MB".

Inductive redeem_response :=
| CouponCodeRequired            (* 400 'Coupon code is required' *)
| InvalidOrExpiredCoupon        (* 400 'Invalid or expired coupon code' *)
| AlreadyRedeemed               (* 400 'You have already redeemed this coupon' *)
| CouponRedeemed (storageGranted : Z) (storageGrantedFormatted : string)
    (couponCode couponName : string).   (* 200 'Coupon redeemed successfully!' *)

(** [router.post('/redeem-coupon', ...)] at time [now], served with no
    statement of another request between its own.  Both refusals send
    ROLLBACK.  The route sends BEGIN, COMMIT and ROLLBACK through
    [pool.query] like its other statements, each on whichever connection
    of the pool is free. *)
Definition redeem_coupon (now : Z) (caller : Z) (code : string) (d : db)
    : redeem_response * db :=
  if decide (code = "") then (CouponCodeRequired, d)
  else
    match filter (λ c, c_code c = toUpperCase code ∧ coupon_valid now c)
            (coupons d) with
    | [] => (InvalidOrExpiredCoupon, d)
    | coupon :: _ =>
      match filter (λ r, r_user_id r = caller ∧ r_coupon_id r = c_id coupon)
              (coupon_redemptions d) with
      | _ :: _ => (AlreadyRedeemed, d)
      | [] =>
        let d1 := add_storage_quota (storage_bonus coupon) caller d in
        let d2 :=
          with_coupon_redemptions
            (coupon_redemptions d1
             ++ [{| r_user_id := caller; r_coupon_id := c_id coupon;
                    storage_granted := storage_bonus coupon |}]) d1 in
        let d3 := increment_uses (c_id coupon) d2 in
        (CouponRedeemed (storage_bonus coupon)
           (formatBonus (storage_bonus coupon)) (c_code coupon) (c_name coupon),
         d3)
      end
    end.

(** The two reads of the route: the first valid coupon with the code,
    unless the caller has a redemption row for it. *)
Definition redeem_select (now : Z) (caller : Z) (code : string) (d : db)
    : redeem_response + coupon_row :=
  if decide (code = "") then inl CouponCodeRequired
  else
    match filter (λ c, c_code c = toUpperCase code ∧ coupon_valid now c)
            (coupons d) with
    | [] => inl InvalidOrExpiredCoupon
    | coupon :: _ =>
      match filter (λ r, r_user_id r = caller ∧ r_coupon_id r = c_id coupon)
              (coupon_redemptions d) with
      | _ :: _ => inl AlreadyRedeemed
      | [] => inr coupon
      end
    end.

(** The three writes of the route for the coupon it has read: the quota
    of the caller, the redemption row of a caller who has none for the
    coupon, the count of uses. *)
Definition redeem_write (caller : Z) (coupon : coupon_row) (d : db) : db :=
  let d1 := add_storage_quota (storage_bonus coupon) caller d in
  let d2 :=
    with_coupon_redemptions
      (coupon_redemptions d1
       ++ [{| r_user_id := caller; r_coupon_id := c_id coupon;
              storage_granted := storage_bonus coupon |}]) d1 in
  increment_uses (c_id coupon) d2.

(** The persisted quota of a user, as [SELECT storage_quota ... WHERE id =
    $1] returns it in [rows[0]]. *)
Definition quota_of (userId : Z) (d : db) : option Z :=
  storage_quota <$> head (select_user userId d).

(** ** Creating, renaming and deleting folders (the folder router) *)

Inductive create_folder_response :=
| FolderNameRequired            (* 400 'Folder name is required' *)
| ParentFolderNotFound          (* 404 'Parent folder not found' *)
| CreateFolderForbidden         (* 403 'Insufficient permissions to create folder here' *)
| FolderAlreadyExists           (* 400 'Folder with this name already exists' *)
| FolderCreated (folder : folder_row).   (* 201 *)

(** The parent check of [POST /]: [None] lets the creation go on. *)
Definition create_folder_parent_check (caller : Z) (parent : option Z) (d : db)
    : option create_folder_response :=
  match parent with
  | None => None
  | Some parentId =>
    match filter (λ f, fo_id f = parentId) (folders d) with
    | [] => Some ParentFolderNotFound
    | row :: _ =>
      if decide (fo_user_id row ≠ caller) then
        match filter (λ p, p_folder_id p = parentId
                           ∧ shared_with_user_id p = caller) (permissions d) with
        | [] => Some CreateFolderForbidden
        | p :: _ =>
          if decide (p_permission_type p = create ∨ p_permission_type p = edit)
          then None else Some CreateFolderForbidden
        end
      else None
    end
  end.

(** [SELECT id FROM folders WHERE name = $1 AND user_id = $2 AND
    parent_folder_id = $3] with [$3 = parent_folder_id || null]: for a
    folder at the root the last comparison is with NULL and selects no
    row. *)
Definition same_name_folders (caller : Z) (name : string) (parent : option Z)
    (d : db) : list folder_row :=
  filter (λ f, fo_name f = name ∧ fo_user_id f = caller
               ∧ is_Some parent ∧ parent_folder_id f = parent) (folders d).

(** [router.post('/', ...)] of the folder router.  [name] is the value of
    [name.trim()] (a missing name counts as empty), [new_id] the id the
    folders sequence gives the inserted row. *)
Definition create_folder (new_id : Z) (caller : Z) (name : string)
    (parent : option Z) (d : db) : create_folder_response * db :=
  if decide (name = "") then (FolderNameRequired, d)
  else
    match create_folder_parent_check caller parent d with
    | Some refusal => (refusal, d)
    | None =>
      match same_name_folders caller name parent d with
      | _ :: _ => (FolderAlreadyExists, d)
      | [] =>
        let row := {| fo_id := new_id; fo_user_id := caller; fo_name := name;
                      parent_folder_id := parent |} in
        (FolderCreated row, with_folders (folders d ++ [row]) d)
      end
    end.




Inductive delete_folder_response :=
| DeleteFolderNotFoundOrDenied  (* 404 'Folder not found or access denied' *)
| DeleteFolderForbidden         (* 403 'Only folder owners can delete folders' *)
| FolderNotEmpty                (* 400 'Cannot delete folder that contains files or subfolders' *)
| FolderDeleted.                (* 200 'Folder deleted successfully' *)

(** [router.delete('/:folderId', ...)] *)
Definition delete_folder (caller folderId : Z) (d : db)
    : delete_folder_response * db :=
  match folder_access_rows caller (λ f, fo_id f = folderId) d with
  | [] => (DeleteFolderNotFoundOrDenied, d)
  | (folder, level) :: _ =>
    if decide (level ≠ Some owner) then (DeleteFolderForbidden, d)
    else
      let subfolderCount :=
        length (filter (λ f, parent_folder_id f = Some folderId) (folders d)) in
      let fileCount :=
        length (filter (λ f, folder_id f = Some folderId) (files d)) in
      if decide (0 < subfolderCount ∨ 0 < fileCount)%nat
      then (FolderNotEmpty, d)
      else (FolderDeleted, delete_folder_rows folderId d)
  end.

Inductive bulk_delete_folders_response :=
| BulkFoldersBadRequest         (* 400 'folderIds must be a non-empty array' *)
| BulkFoldersForbidden (unauthorizedFolders : list (Z * string))   (* 403 *)
| BulkFoldersCompleted (results : bulk_folder_results).            (* 200 *)

(** [router.delete('/bulk', ...)] of the folder router: one folder of
    another owner among those found refuses the whole request. *)
Definition bulk_delete_folders (caller : Z) (folderIds : list Z) (d : db)
    : bulk_delete_folders_response * db :=
  match folderIds with
  | [] => (BulkFoldersBadRequest, d)
  | _ =>
    let foundFolders := folder_access_rows caller (λ f, fo_id f ∈ folderIds) d in
    let unauthorizedFolders :=
      filter (λ r : folder_row * option access, r.2 ≠ Some owner) foundFolders in
    let deletableFolders :=
      filter (λ r : folder_row * option access, r.2 = Some owner) foundFolders in
    match unauthorizedFolders with
    | _ :: _ =>
      (BulkFoldersForbidden
         ((λ r, (fo_id r.1, fo_name r.1)) <$> unauthorizedFolders), d)
    | [] =>
      let '(deleted, non_empty, d') :=
        foldl mixed_delete_folder_one ([], [], d) (fst <$> deletableFolders) in
      (BulkFoldersCompleted
         {| folders_deleted := deleted; folders_failed := [];
            folders_notFound :=
              filter (λ id, id ∉ (fo_id ∘ fst <$> foundFolders)) folderIds;
            folders_unauthorized := []; nonEmpty := non_empty |}, d')
    end
  end.

(** ** Sharing folders (the share router) *)

(** [['view', 'create', 'edit'].includes(permission_type)] *)
Definition parse_permission_type (s : string) : option permission_type :=
  if decide (s = "view") then Some view
  else if decide (s = "create") then Some create
  else if decide (s = "edit") then Some edit
  else None.

(** [email.toLowerCase()], on the ASCII letters. *)
Definition lower_ascii (c : ascii) : ascii :=
  let n := nat_of_ascii c in
  if (65 <=? n)%nat && (n <=? 90)%nat then ascii_of_nat (n + 32) else c.

Fixpoint toLowerCase (s : string) : string :=
  match s with
  | EmptyString => EmptyString
  | String c rest => String (lower_ascii c) (toLowerCase rest)
  end.

Inductive share_folder_response :=
| ShareFieldsRequired           (* 400 'Email and permission type are required' *)
| InvalidPermissionType         (* 400 'Invalid permission type' *)
| ShareFolderNotFound           (* 404 'Folder not found' *)
| OnlyOwnersShare               (* 403 'Only folder owners can share folders' *)
| ShareUserNotFound             (* 404 'User not found with this email' *)
| CannotShareWithYourself       (* 400 *)
| PermissionUpdated (permission : option permission_row)   (* 200 *)
| FolderShared (permission : permission_row).              (* 201 *)

(** [UPDATE permissions SET permission_type = $1, granted_by_user_id = $2
    WHERE folder_id = $3 AND shared_with_user_id = $4] *)
Definition regrant (t : permission_type) (granter : Z) (p : permission_row)
    : permission_row :=
  {| p_folder_id := p_folder_id p; shared_with_user_id := shared_with_user_id p;
     p_permission_type := t; granted_by_user_id := granter |}.

(** [router.post('/folder/:folderId', ...)] of the share router.  The
    users table of the model has no [email] column: [user_by_email] is
    [SELECT id ... FROM users WHERE email = $1], the id of the first row
    found. *)
Definition share_folder (user_by_email : string → option Z)
    (caller folderId : Z) (email permission : string) (d : db)
    : share_folder_response * db :=
  if decide (email = "" ∨ permission = "") then (ShareFieldsRequired, d)
  else
    match parse_permission_type permission with
    | None => (InvalidPermissionType, d)
    | Some t =>
      match filter (λ f, fo_id f = folderId) (folders d) with
      | [] => (ShareFolderNotFound, d)
      | folder :: _ =>
        if decide (fo_user_id folder ≠ caller) then (OnlyOwnersShare, d)
        else
          match user_by_email (toLowerCase email) with
          | None => (ShareUserNotFound, d)
          | Some sharedWithUser =>
            if decide (sharedWithUser = caller) then (CannotShareWithYourself, d)
            else
              let matches p :=
                p_folder_id p = folderId ∧ shared_with_user_id p = sharedWithUser in
              match filter matches (permissions d) with
              | _ :: _ =>
                (PermissionUpdated
                   (head (regrant t caller <$> filter matches (permissions d))),
                 with_permissions
                   ((λ p, if decide (matches p) then regrant t caller p else p)
                    <$> permissions d) d)
              | [] =>
                let row := {| p_folder_id := folderId;
                              shared_with_user_id := sharedWithUser;
                              p_permission_type := t;
                              granted_by_user_id := caller |} in
                (FolderShared row, with_permissions (permissions d ++ [row]) d)
              end
          end
      end
    end.

Inductive revoke_access_response :=
| RevokeFolderNotFound          (* 404 'Folder not found' *)
| OnlyOwnersRevoke              (* 403 'Only folder owners can revoke permissions' *)
| PermissionNotFound            (* 404 'Permission not found' *)
| AccessRevoked.                (* 200 'Folder access revoked successfully' *)

(** [router.delete('/folder/:folderId/user/:userId', ...)] *)
Definition revoke_access (caller folderId userId : Z) (d : db)
    : revoke_access_response * db :=
  match filter (λ f, fo_id f = folderId) (folders d) with
  | [] => (RevokeFolderNotFound, d)
  | folder :: _ =>
    if decide (fo_user_id folder ≠ caller) then (OnlyOwnersRevoke, d)
    else
      let matches p :=
        p_folder_id p = folderId ∧ shared_with_user_id p = userId in
      if decide (length (filter matches (permissions d)) = 0%nat)
      then (PermissionNotFound, d)
      else (AccessRevoked,
            with_permissions (filter (λ p, ¬ matches p) (permissions d)) d)
  end.

(** ** Mail with retries (the email service) *)

(** What [this.transporter.sendMail] does on one call: it returns a
    message id or throws an error, with [error.code] when it has one. *)
Inductive send_outcome :=
| MailSent (messageId : string)
| MailError (code : option string).

(** [error.code === 'ETIMEDOUT' || error.code === 'ENOTFOUND' ||
    error.code === 'ECONNREFUSED'] *)
Definition retryable (code : option string) : bool :=
  bool_decide (code = Some "ETIMEDOUT") || bool_decide (code = Some "ENOTFOUND")
  || bool_decide (code = Some "ECONNREFUSED").

Inductive send_result :=
| EmailSent (messageId : string)
| EmailFailed (attempts : nat).
    (* throw new Error('Failed to send password reset email after ' +
       attempts + ' attempts') *)

(** What a run of [sendPasswordResetEmail] has done: its result, the
    number of calls of [sendMail] and the milliseconds slept between
    them. *)
Record send_report := {
  send_result_of : send_result;
  sendMail_calls : nat;
  slept : Z
}.

Definition maxRetries : nat := 3.
Definition retryDelay : Z := 5000.

(** [sendPasswordResetEmail(userEmail, userName, resetToken, retryCount)]
    with [remaining = maxRetries - retryCount] retries left; [sendMail k]
    is what the transporter does on the call made with [retryCount = k]. *)
Fixpoint send_with_retries (remaining retryCount : nat)
    (sendMail : nat → send_outcome) : send_report :=
  match sendMail retryCount with
  | MailSent messageId =>
    {| send_result_of := EmailSent messageId; sendMail_calls := 1; slept := 0 |}
  | MailError code =>
    match remaining with
    | S remaining' =>
      if retryable code then
        let later := send_with_retries remaining' (S retryCount) sendMail in
        {| send_result_of := send_result_of later;
           sendMail_calls := S (sendMail_calls later);
           slept := retryDelay + slept later |}
      else
        {| send_result_of := EmailFailed (retryCount + 1);
           sendMail_calls := 1; slept := 0 |}
    | O =>
      {| send_result_of := EmailFailed (retryCount + 1);
         sendMail_calls := 1; slept := 0 |}
    end
  end.

(** [sendPasswordResetEmail(userEmail, userName, resetToken)], with
    [retryCount = 0]. *)
Definition sendPasswordResetEmail (sendMail : nat → send_outcome) : send_report :=
  send_with_retries maxRetries 0 sendMail.

(** ** Password reset (the auth router) *)

(** The columns of [users] the reset routes read and write, and the
    [password_reset_tokens] table. *)
Record account_row := {
  a_id : Z;
  a_email : string;
  password_hash : string
}.

Record reset_token_row := {
  t_id : Z;
  t_user_id : Z;
  t_token : string;
  t_expires_at : Z;
  t_used : bool
}.

Record auth_db := {
  accounts : list account_row;
  password_reset_tokens : list reset_token_row
}.

(** [SELECT prt.user_id, prt.id as token_id, u.email, u.name FROM
    password_reset_tokens prt JOIN users u ON prt.user_id = u.id WHERE
    prt.token = $1 AND prt.expires_at > NOW() AND prt.used = FALSE] *)
Definition valid_reset_tokens (now : Z) (token : string) (a : auth_db)
    : list (reset_token_row * account_row) :=
  prt ← password_reset_tokens a;
  u ← accounts a;
  if decide (t_user_id prt = a_id u ∧ t_token prt = token
             ∧ now < t_expires_at prt ∧ t_used prt = false)
  then [(prt, u)] else [].

Inductive forgot_password_response :=
| EmailRequired                 (* 400 'Email is required' *)
| ResetLinkSentIfExists         (* 200 'If the email exists in our system, ...' *)
| ForgotPasswordFailed.         (* 500 'Internal server error' *)

(** [router.post('/forgot-password', ...)]: [resetToken] is
    [crypto.randomBytes(32).toString('hex')], [expiresAt] the date the
    handler computes ([new Date()] with its local hour advanced by one),
    [new_id] the id of the inserted token row, [sendMail] the transporter.
    The token row is inserted before the mail is sent, outside any
    transaction. *)
Definition forgot_password (expiresAt : Z) (resetToken : string) (new_id : Z)
    (sendMail : nat → send_outcome) (email : string) (a : auth_db)
    : forgot_password_response * auth_db :=
  if decide (email = "") then (EmailRequired, a)
  else
    match filter (λ u, a_email u = toLowerCase email) (accounts a) with
    | [] => (ResetLinkSentIfExists, a)
    | user :: _ =>
      let a' :=
        {| accounts := accounts a;
           password_reset_tokens :=
             password_reset_tokens a
             ++ [{| t_id := new_id; t_user_id := a_id user;
                    t_token := resetToken; t_expires_at := expiresAt;
                    t_used := false |}] |} in
      match send_result_of (sendPasswordResetEmail sendMail) with
      | EmailSent _ => (ResetLinkSentIfExists, a')
      | EmailFailed _ => (ForgotPasswordFailed, a')
      end
    end.

Inductive reset_password_response :=
| TokenAndPasswordRequired      (* 400 'Token and new password are required' *)
| PasswordTooShort              (* 400 'Password must be at least 6 characters long' *)
| InvalidOrExpiredResetToken    (* 400 'Invalid or expired reset token' *)
| PasswordResetSuccessful.      (* 200 'Password reset successful' *)

(** [router.post('/reset-password', ...)] at time [now]; [hash] is
    [bcrypt.hash(newPassword, 12)].  [String.length] is
    [newPassword.length] for a password of ASCII characters. *)
Definition reset_password (now : Z) (hash : string) (token newPassword : string)
    (a : auth_db) : reset_password_response * auth_db :=
  if decide (token = "" ∨ newPassword = "") then (TokenAndPasswordRequired, a)
  else if decide (String.length newPassword < 6)%nat then (PasswordTooShort, a)
  else
    match valid_reset_tokens now token a with
    | [] => (InvalidOrExpiredResetToken, a)
    | (prt, u) :: _ =>
      (PasswordResetSuccessful,
       {| accounts :=
            (λ v, if decide (a_id v = t_user_id prt)
                  then {| a_id := a_id v; a_email := a_email v;
                          password_hash := hash |}
                  else v) <$> accounts a;
          password_reset_tokens :=
            (λ r, if decide (t_id r = t_id prt)
                  then {| t_id := t_id r; t_user_id := t_user_id r;
                          t_token := t_token r;
                          t_expires_at := t_expires_at r; t_used := true |}
                  else r) <$> password_reset_tokens a |})
    end.

Inductive verify_reset_token_response :=
| TokenRequired                 (* 400 'Token is required' *)
| ResetTokenInvalid             (* 400 'Invalid or expired reset token' *)
| ResetTokenValid (email : string).   (* 200 *)

(** [router.post('/verify-reset-token', ...)] *)
Definition verify_reset_token (now : Z) (token : string) (a : auth_db)
    : verify_reset_token_response :=
  if decide (token = "") then TokenRequired
  else
    match valid_reset_tokens now token a with
    | [] => ResetTokenInvalid
    | (_, u) :: _ => ResetTokenValid (a_email u)
    end.

(** ** Thumbnails (the thumbnail service and the thumbnail route) *)

(** [s.includes(sub)] *)
Fixpoint includes (sub s : string) : bool :=
  String.prefix sub s
  || match s with
     | EmptyString => false
     | String _ rest => includes sub rest
     end.

(** [isDocumentType(mimeType)] *)
Definition isDocumentType (mimeType : string) : bool :=
  bool_decide (mimeType ∈
    ["application/msword";
     "application/vnd.openxmlformats-officedocument.wordprocessingml.document";
     "application/vnd.ms-excel";
     "application/vnd.openxmlformats-officedocument.spreadsheetml.sheet";
     "application/vnd.ms-powerpoint";
     "application/vnd.openxmlformats-officedocument.presentationml.presentation";
     "text/plain"; "application/rtf"; "text/csv"]).

(** [isArchiveType(mimeType)] *)
Definition isArchiveType (mimeType : string) : bool :=
  bool_decide (mimeType ∈
    ["application/zip"; "application/x-rar-compressed";
     "application/x-7z-compressed"; "application/x-tar"; "application/gzip"]).

(** [isCodeType(mimeType)] *)
Definition isCodeType (mimeType : string) : bool :=
  bool_decide (mimeType ∈
    ["text/html"; "text/css"; "application/javascript"; "text/javascript";
     "application/json"; "application/xml"; "application/x-python-code";
     "text/x-java-source"; "text/x-c"; "text/x-php"; "text/x-ruby";
     "application/x-sql"; "text/markdown"])
  || String.prefix "text/" mimeType.

(** What [generateThumbnail] makes when the image library answers: the
    uploaded image resized to a JPEG, or a one-colour PNG placeholder of
    a type. *)
Inductive thumbnail_source :=
| ResizedImage
    (* sharp(fileBuffer).resize(...).jpeg({ quality: 80 }), 'image/jpeg' *)
| PlaceholderImage (type : string).
    (* generatePlaceholderThumbnail(type, size), 'image/png' *)

(** [docType] of [generateDocumentThumbnail] *)
Definition docType (mimeType : string) : string :=
  if includes "word" mimeType then "word"
  else if includes "excel" mimeType || includes "spreadsheet" mimeType
  then "excel"
  else if includes "powerpoint" mimeType || includes "presentation" mimeType
  then "powerpoint"
  else "document".

(** [generateThumbnail(fileBuffer, originalName, mimeType, size)] *)
Definition generateThumbnail (mimeType : string) : thumbnail_source :=
  if String.prefix "image/" mimeType then ResizedImage
  else if String.prefix "video/" mimeType then PlaceholderImage "video"
  else if String.prefix "audio/" mimeType then PlaceholderImage "audio"
  else if bool_decide (mimeType = "application/pdf") then PlaceholderImage "pdf"
  else if isDocumentType mimeType then PlaceholderImage (docType mimeType)
  else if isArchiveType mimeType then PlaceholderImage "zip"
  else if isCodeType mimeType then PlaceholderImage "code"
  else PlaceholderImage "document".

(** The [mimeType] of the generated thumbnail. *)
Definition thumbnail_mimeType (t : thumbnail_source) : string :=
  match t with
  | ResizedImage => "image/jpeg"
  | PlaceholderImage _ => "image/png"
  end.

(** [const thumbnailExtension = mimeType === 'image/png' ? '.png' :
    '.jpg'] of [uploadThumbnail] *)
Definition thumbnailExtension (mimeType : string) : string :=
  if decide (mimeType = "image/png") then ".png" else ".jpg".

(** [shouldGenerateThumbnail(mimeType)] *)
Definition shouldGenerateThumbnail (mimeType : string) : bool :=
  existsb (λ type, String.prefix type mimeType || bool_decide (mimeType = type))
    ["image/"; "video/"; "audio/"; "application/pdf"; "application/msword";
     "application/vnd.openxmlformats-officedocument.wordprocessingml.document";
     "application/vnd.ms-excel";
     "application/vnd.openxmlformats-officedocument.spreadsheetml.sheet";
     "application/vnd.ms-powerpoint";
     "application/vnd.openxmlformats-officedocument.presentationml.presentation";
     "application/zip"; "application/x-rar-compressed";
     "application/x-7z-compressed"; "text/plain"; "text/html"; "text/css";
     "application/javascript"; "application/json"; "application/xml"].

Inductive thumbnail_response :=
| ThumbnailFileNotFoundOrDenied   (* 404 'File not found or access denied' *)
| ThumbnailNotAvailable           (* 404 'Thumbnail not available' *)
| ThumbnailDelivered (headers : delivery).

(** [router.get('/:fileId/thumbnail', ...)] for the user id of a verified
    token *)
Definition thumbnail_file (userId file_id : Z) (d : db) : thumbnail_response :=
  match file_access_rows userId (λ f, f_id f = file_id) d with
  | [] => ThumbnailFileNotFoundOrDenied
  | (file, _) :: _ =>
    match has_thumbnail file, thumbnail_path file with
    | true, Some path =>
      if decide (path = "") then ThumbnailNotAvailable
      else ThumbnailDelivered
             {| content_type := "image/jpeg"; content_length := None;
                content_disposition := None; blob_name := path |}
    | _, _ => ThumbnailNotAvailable
    end
  end.

(** The row [set_share] makes of a row it updates. *)
Definition with_share (token : option string) (flag : bool) (f : file_row)
    : file_row :=
  {| f_id := f_id f; f_user_id := f_user_id f; folder_id := folder_id f;
     f_name := f_name f; original_name := original_name f;
     mime_type := mime_type f; size := size f;
     backblaze_file_id := backblaze_file_id f;
     backblaze_url := backblaze_url f;
     public_share_token := token; is_public := flag;
     download_count := download_count f;
     thumbnail_path := thumbnail_path f; has_thumbnail := has_thumbnail f |}.

(** ** Route tables (the [router.METHOD(path, ...)] calls of the file and
    folder routers) *)

Inductive http_method := GET | POST | PUT | DELETE | OPTIONS.

#[global] Instance http_method_eq_dec : EqDecision http_method.
Proof. solve_decision. Defined.

(** A part of a route path: literal text, or a parameter [:name]. *)
Inductive path_part :=
| Literal (text : string)
| Param (name : string).

(** Express matches a route path part by part against the segments of the
    request path below the mount point: literal text matches the same
    text, letters compared without case (the routers are created with the
    default options); a parameter matches any one non-empty segment. *)
Definition part_matches (p : path_part) (segment : string) : bool :=
  match p with
  | Literal text => bool_decide (toLowerCase text = toLowerCase segment)
  | Param _ => bool_decide (segment ≠ "")
  end.

Fixpoint path_matches (pattern : list path_part) (path : list string) : bool :=
  match pattern, path with
  | [], [] => true
  | p :: pattern', segment :: path' =>
    part_matches p segment && path_matches pattern' path'
  | _, _ => false
  end.

(** A router hands a request to the first route, in the order of
    registration, with its method and a matching path.  No handler of
    these routers takes or calls [next], and [authenticateToken] passes on
    only to the handler of its own route, so that route answers. *)
Fixpoint dispatch {R : Type} (router : list (http_method * list path_part * R))
    (m : http_method) (path : list string) : option R :=
  match router with
  | [] => None
  | (m', pattern, route) :: rest =>
    if bool_decide (m' = m) && path_matches pattern path then Some route
    else dispatch rest m path
  end.

Inductive files_route :=
| UploadMultipleRoute | UploadRoute | ListFilesRoute | GetFileRoute
| DeleteFileRoute | BulkDeleteFilesRoute | DownloadRoute | ThumbnailRoute
| ViewRoute | ViewOptionsRoute | CreateShareRoute | PublicDownloadRoute
| PublicViewRoute | PublicThumbnailRoute | PublicInfoRoute | RevokeShareRoute.

(** The routes of routes/files.js, in the order of their registration. *)
Definition files_router : list (http_method * list path_part * files_route) :=
  [(POST, [Literal "upload"; Literal "multiple"], UploadMultipleRoute);
   (POST, [Literal "upload"], UploadRoute);
   (GET, [], ListFilesRoute);
   (GET, [Param "fileId"], GetFileRoute);
   (DELETE, [Param "fileId"], DeleteFileRoute);
   (DELETE, [Literal "bulk"], BulkDeleteFilesRoute);
   (GET, [Param "fileId"; Literal "download"], DownloadRoute);
   (GET, [Param "fileId"; Literal "thumbnail"], ThumbnailRoute);
   (GET, [Param "fileId"; Literal "view"], ViewRoute);
   (OPTIONS, [Param "fileId"; Literal "view"], ViewOptionsRoute);
   (POST, [Param "fileId"; Literal "share"], CreateShareRoute);
   (GET, [Literal "public"; Param "shareToken"], PublicDownloadRoute);
   (GET, [Literal "public"; Param "shareToken"; Literal "view"],
    PublicViewRoute);
   (GET, [Literal "public"; Param "shareToken"; Literal "thumbnail"],
    PublicThumbnailRoute);
   (GET, [Literal "public"; Param "shareToken"; Literal "info"],
    PublicInfoRoute);
   (DELETE, [Param "fileId"; Literal "share"], RevokeShareRoute)].

Inductive folders_route :=
| CreateFolderRoute | ListFoldersRoute | GetFolderRoute | RenameFolderRoute
| DeleteFolderRoute | BulkDeleteFoldersRoute | MixedBulkDeleteRoute.

(** The routes of the folder router, in the order of their registration. *)
Definition folders_router
    : list (http_method * list path_part * folders_route) :=
  [(POST, [], CreateFolderRoute);
   (GET, [], ListFoldersRoute);
   (GET, [Param "folderId"], GetFolderRoute);
   (PUT, [Param "folderId"], RenameFolderRoute);
   (DELETE, [Param "folderId"], DeleteFolderRoute);
   (DELETE, [Literal "bulk"], BulkDeleteFoldersRoute);
   (DELETE, [Literal "bulk"; Literal "mixed"], MixedBulkDeleteRoute)].

(** ** A sample store

    Two users; folder 1 ("photos") of user 1 with child folder 2
    ("albums"); user 2 holds a [view] grant on folder 1 and owns a file
    in it (uploaded while the grant was [create]). *)

Definition alice : user_row :=
  {| u_id := 1; storage_quota := 1000000; storage_used := 900000 |}.
Definition bob : user_row :=
  {| u_id := 2; storage_quota := 5368709120; storage_used := 150000 |}.

Definition photos : folder_row :=
  {| fo_id := 1; fo_user_id := 1; fo_name := "photos";
     parent_folder_id := None |}.
Definition albums : folder_row :=
  {| fo_id := 2; fo_user_id := 1; fo_name := "albums";
     parent_folder_id := Some 1 |}.

Definition sample_file (id user : Z) (folder : option Z) (name mime : string)
    (bytes : Z) : file_row :=
  {| f_id := id; f_user_id := user; folder_id := folder;
     f_name := name; original_name := name; mime_type := mime;
     size := bytes; backblaze_file_id := name; backblaze_url := name;
     public_share_token := None; is_public := false; download_count := 0;
     thumbnail_path := None; has_thumbnail := false |}.

Definition cat_png := sample_file 10 1 (Some 1) "cat.png" "image/png" 400000.
Definition notes_txt := sample_file 11 2 (Some 1) "notes.txt" "text/plain" 150000.
Definition trip_pdf := sample_file 12 1 (Some 2) "trip.pdf" "application/pdf" 300000.
Definition clip_mp4 := sample_file 13 1 None "clip.mp4" "video/mp4" 200000.

Definition bob_views_photos : permission_row :=
  {| p_folder_id := 1; shared_with_user_id := 2; p_permission_type := view;
     granted_by_user_id := 1 |}.

Definition welcome200 : coupon_row :=
  {| c_id := 1; c_code := "WELCOME200"; c_name := "Welcome Bonus - 200GB";
     storage_bonus := 214748364800; max_uses := 1000; current_uses := 0;
     expires_at := Some 1000; is_active := true |}.
Definition single_use : coupon_row :=
  {| c_id := 2; c_code := "ONCE"; c_name := "Single use";
     storage_bonus := 1073741824; max_uses := 1; current_uses := 0;
     expires_at := None; is_active := true |}.

Definition sample_db : db :=
  {| users := [alice; bob];
     folders := [photos; albums];
     files := [cat_png; notes_txt; trip_pdf; clip_mp4];
     permissions := [bob_views_photos];
     coupons := [welcome200; single_use];
     coupon_redemptions := [] |}.

Definition sample_world : world :=
  {| w_db := sample_db;
     bucket := list_to_set ["cat.png"; "notes.txt"; "trip.pdf"; "clip.mp4"] |}.

Definition sample_upload (id : Z) (name mime : string) (bytes : Z)
    (stored : bool) : incoming_file :=
  {| originalname := name; mimetype := mime; in_size := bytes;
     uniqueFileName := name;
     uploadResult := if stored then Some (name, name) else None;
     thumbnailData := None; assigned_id := id |}.

(** A batch of 150,000 bytes in two files of 75,000. *)
Definition batch_150k : list incoming_file :=
  [sample_upload 20 "a.csv" "text/csv" 75000 true;
   sample_upload 21 "b.csv" "text/csv" 75000 true].

(** A cache that is connected and empty. *)
Definition empty_cache : RedisService :=
  {| client := Some ∅; isConnected := true |}.

(** The sample store after user 1 has shared cat.png at time 0 under the
    token "tok-1" for 24 hours, and the link has been followed at time
    100. *)
Definition shared_state : db * RedisService :=
  (public_download true true 100 "tok-1"
     (create_share true 0 "tok-1" 24 1 10 (sample_db, empty_cache)).2).2.

(** * Properties *)

(** ** Relational operators *)

Section left_join_facts.
Context {A B : Type} (on : A → B → Prop) `{∀ a b, Decision (on a b)}.
Implicit Types (l : list A) (r : list B).

Lemma elem_of_left_join l r a ob :
  (a, ob) ∈ left_join on l r ↔
  a ∈ l ∧ match ob with
          | Some b => b ∈ r ∧ on a b
          | None => ∀ b, b ∈ r → ¬ on a b
          end.
Proof.
  unfold left_join. rewrite list_elem_of_bind. split.
  - intros (a' & Hin & Ha').
    destruct (filter (on a') r) as [|m ms] eqn:E.
    + apply list_elem_of_singleton in Hin as [= -> ->]. split; [done|].
      intros b Hb Hon. by eapply filter_nil_not_elem_of.
    + apply list_elem_of_fmap in Hin as (b & [= -> ->] & Hb).
      rewrite <- E in Hb. apply list_elem_of_filter in Hb as [??]. done.
  - intros [Ha Hob]. exists a. split; [|done].
    destruct ob as [b|].
    + destruct Hob as [Hb Hon].
      assert (b ∈ filter (on a) r) as Hf by by apply list_elem_of_filter.
      destruct (filter (on a) r) eqn:E; [by apply elem_of_nil in Hf|].
      apply list_elem_of_fmap. by exists b.
    + destruct (filter (on a) r) as [|m ms] eqn:E;
        [by apply list_elem_of_singleton|].
      exfalso. assert (m ∈ filter (on a) r) as Hm by (rewrite E; left).
      apply list_elem_of_filter in Hm as [??]. by eapply Hob.
Qed.

(** Every row of the left table survives a LEFT JOIN. *)
Lemma left_join_total l r a : a ∈ l → ∃ ob, (a, ob) ∈ left_join on l r.
Proof.
  intros Ha. destruct (filter (on a) r) as [|m ms] eqn:E.
  - exists None. apply elem_of_left_join. split; [done|].
    intros b Hb Hon. by eapply filter_nil_not_elem_of.
  - exists (Some m). apply elem_of_left_join. split; [done|].
    assert (m ∈ filter (on a) r) as Hm by (rewrite E; left).
    by apply list_elem_of_filter in Hm as [??].
Qed.
End left_join_facts.

(** ** Folder access *)

Lemma elem_of_folders_with_grant caller d f op :
  (f, op) ∈ folders_with_grant caller d ↔
  f ∈ folders d ∧
  match op with
  | Some p => p ∈ permissions d ∧ fo_id f = p_folder_id p
              ∧ shared_with_user_id p = caller
  | None => ∀ p, p ∈ permissions d →
      ¬ (fo_id f = p_folder_id p ∧ shared_with_user_id p = caller)
  end.
Proof.
  unfold folders_with_grant. rewrite elem_of_left_join.
  destruct op; naive_solver.
Qed.

Lemma elem_of_folder_detail_selection caller folderId d r :
  r ∈ folder_detail_selection caller folderId d →
  (r.1.1.1, r.1.1.2) ∈ folders_with_grant caller d
  ∧ fo_id r.1.1.1 = folderId
  ∧ owner_or_shared (fo_user_id r.1.1.1) caller r.1.1.2.
Proof.
  unfold folder_detail_selection.
  destruct r as [[[f op] os] ofl]. simpl.
  rewrite list_elem_of_filter. simpl. intros [[? ?] Hj].
  apply elem_of_left_join in Hj as [Hj _].
  apply elem_of_left_join in Hj as [Hj _]. done.
Qed.

Lemma folder_detail_selection_grant caller d f op :
  (f, op) ∈ folders_with_grant caller d →
  owner_or_shared (fo_user_id f) caller op →
  ∃ os ofl, (f, op, os, ofl) ∈ folder_detail_selection caller (fo_id f) d.
Proof.
  intros Hj Hw.
  eapply (left_join_total
            (λ (r : folder_row * option permission_row) sub,
               is_subfolder_of r.1 sub) _ (folders d)) in Hj as [os Hj].
  eapply (left_join_total
            (λ (r : folder_row * option permission_row * option folder_row) fl,
               is_file_of r.1.1 fl) _ (files d)) in Hj as [ofl Hj].
  exists os, ofl. unfold folder_detail_selection.
  apply list_elem_of_filter. done.
Qed.

(** Every row [GET /:folderId] can return is the folder with the given
    id, with the access level computed from a join row of the caller. *)
Lemma folder_detail_rows_sound caller F d row :
  pk_folders d → F ∈ folders d →
  row ∈ folder_detail_rows caller (fo_id F) d →
  fd_folder row = F ∧
  ∃ op, (F, op) ∈ folders_with_grant caller d
        ∧ owner_or_shared (fo_user_id F) caller op
        ∧ fd_access_level row
          = access_level_case (fo_user_id F) caller (p_permission_type <$> op).
Proof.
  intros Hpk HF Hrow. unfold folder_detail_rows in Hrow.
  apply list_elem_of_fmap in Hrow as (k & -> & Hk). simpl.
  apply elem_of_remove_dups, list_elem_of_fmap in Hk as (r & -> & Hr).
  apply elem_of_folder_detail_selection in Hr as (Hj & Hid & Hw).
  assert (r.1.1.1 = F) as HrF.
  { apply Hpk; [|done..].
    by apply elem_of_folders_with_grant in Hj as [? _]. }
  unfold folder_group_key. simpl. rewrite HrF in *.
  split; [done|]. by exists (r.1.1.2).
Qed.

Lemma folder_detail_rows_nonempty caller F d op :
  (F, op) ∈ folders_with_grant caller d →
  owner_or_shared (fo_user_id F) caller op →
  folder_detail_rows caller (fo_id F) d ≠ [].
Proof.
  intros Hj Hw.
  destruct (folder_detail_selection_grant _ _ _ _ Hj Hw) as (os & ofl & Hsel).
  unfold folder_detail_rows. intros Hnil.
  apply fmap_nil_inv in Hnil.
  assert (folder_group_key (F, op, os, ofl)
          ∈ remove_dups (folder_group_key
                           <$> folder_detail_selection caller (fo_id F) d)) as Hk.
  { apply elem_of_remove_dups, list_elem_of_fmap. eauto. }
  rewrite Hnil in Hk. by apply elem_of_nil in Hk.
Qed.

Section folder_resolution.
Variables (caller : Z) (F : folder_row) (d : db).
Hypothesis Hpk : pk_folders d.
Hypothesis Huniq : unique_permissions d.
Hypothesis HF : F ∈ folders d.

Lemma resolve_folder_owner :
  fo_user_id F = caller → resolve_folder caller (fo_id F) d = Some owner.
Proof.
  intros Hown. unfold resolve_folder, get_folder.
  destruct (left_join_total
              (λ f p, fo_id f = p_folder_id p ∧ shared_with_user_id p = caller)
              (folders d) (permissions d) F HF) as [op Hj].
  pose proof (folder_detail_rows_nonempty caller F d op Hj) as Hne.
  destruct (folder_detail_rows caller (fo_id F) d) as [|row rows] eqn:E.
  { exfalso. apply Hne; [by left|done]. }
  destruct (folder_detail_rows_sound caller F d row Hpk HF)
    as (_ & op' & _ & _ & ->); [rewrite E; left|].
  unfold access_level_case. by rewrite decide_True.
Qed.

Lemma resolve_folder_granted g :
  fo_user_id F ≠ caller → g ∈ permissions d →
  p_folder_id g = fo_id F → shared_with_user_id g = caller →
  resolve_folder caller (fo_id F) d = Some (granted (p_permission_type g)).
Proof.
  intros Hown Hg Hgf Hgc. unfold resolve_folder, get_folder.
  assert ((F, Some g) ∈ folders_with_grant caller d) as Hj.
  { by apply elem_of_folders_with_grant. }
  pose proof (folder_detail_rows_nonempty caller F d (Some g) Hj) as Hne.
  destruct (folder_detail_rows caller (fo_id F) d) as [|row rows] eqn:E.
  { exfalso. apply Hne; [|done]. right. by exists g. }
  destruct (folder_detail_rows_sound caller F d row Hpk HF)
    as (_ & op & Hop & Hw & ->); [rewrite E; left|].
  destruct Hw as [?|(q & -> & Hq)]; [done|].
  apply elem_of_folders_with_grant in Hop as (_ & Hqin & Hqf & _).
  assert (q = g) as -> by (apply Huniq; congruence).
  unfold access_level_case. by rewrite decide_False.
Qed.

Lemma resolve_folder_none :
  fo_user_id F ≠ caller →
  (∀ g, g ∈ permissions d →
     ¬ (p_folder_id g = fo_id F ∧ shared_with_user_id g = caller)) →
  resolve_folder caller (fo_id F) d = None.
Proof.
  intros Hown Hno. unfold resolve_folder, get_folder.
  destruct (folder_detail_rows caller (fo_id F) d) as [|row rows] eqn:E;
    [done|].
  destruct (folder_detail_rows_sound caller F d row Hpk HF)
    as (_ & op & Hop & Hw & _); [rewrite E; left|].
  destruct Hw as [?|(q & -> & Hq)]; [done|].
  apply elem_of_folders_with_grant in Hop as (_ & Hqin & Hqf & _).
  exfalso. by apply (Hno q).
Qed.

(** The grant rows of the caller on [F], in storage order. *)
Let grants :=
  filter (λ p, p_folder_id p = fo_id F ∧ shared_with_user_id p = caller)
    (permissions d).

Lemma resolve_folder_cases :
  resolve_folder caller (fo_id F) d
  = if decide (fo_user_id F = caller) then Some owner
    else granted ∘ p_permission_type <$> head grants.
Proof.
  case_decide as Hown; [by apply resolve_folder_owner|].
  subst grants.
  destruct (filter _ (permissions d)) as [|g gs] eqn:E; simpl.
  - apply resolve_folder_none; [done|].
    intros g Hg Hm. exact (filter_nil_not_elem_of _ _ g E Hm Hg).
  - assert (g ∈ filter (λ p, p_folder_id p = fo_id F
                             ∧ shared_with_user_id p = caller)
                  (permissions d)) as Hg by (rewrite E; left).
    apply list_elem_of_filter in Hg as [[??]?].
    by apply resolve_folder_granted.
Qed.

Lemma checkFolderPermission_cases required :
  checkFolderPermission required caller (fo_id F) d
  = if decide (fo_user_id F = caller) then Next
    else match head grants with
         | None => AccessDenied
         | Some p =>
           if decide (permissionLevels (p_permission_type p)
                      < permissionLevels required)
           then InsufficientPermissions else Next
         end.
Proof.
  unfold checkFolderPermission. subst grants.
  destruct (filter (λ f, fo_id f = fo_id F) (folders d)) as [|f fs] eqn:E.
  { exfalso. by apply (filter_nil_not_elem_of _ _ F E eq_refl). }
  assert (f ∈ filter (λ f, fo_id f = fo_id F) (folders d)) as Hf
    by (rewrite E; left).
  apply list_elem_of_filter in Hf as [Hid Hf].
  assert (f = F) as -> by by apply Hpk.
  case_decide; [done|].
  by destruct (filter _ (permissions d)).
Qed.
End folder_resolution.

(** Closed decidable facts about the sample store (membership of a row
    in a table, distinct keys) are settled by evaluation. *)
Ltac decide_closed := apply (bool_decide_unpack _); by vm_compute.

(** ** Schema constraints from key lists *)

Lemma NoDup_fmap_inj_on {A B : Type} (f : A → B) (l : list A) :
  NoDup (f <$> l) → ∀ x y, x ∈ l → y ∈ l → f x = f y → x = y.
Proof.
  induction l as [|a l IH]; intros HN x y Hx Hy Hxy.
  { by apply elem_of_nil in Hx. }
  rewrite fmap_cons in HN. apply NoDup_cons in HN as [Ha HN].
  apply elem_of_cons in Hx as [->|Hx]; apply elem_of_cons in Hy as [->|Hy].
  - done.
  - exfalso. apply Ha. rewrite Hxy. by apply list_elem_of_fmap_2.
  - exfalso. apply Ha. rewrite <- Hxy. by apply list_elem_of_fmap_2.
  - by apply IH.
Qed.

Lemma pk_folders_NoDup d : NoDup (fo_id <$> folders d) → pk_folders d.
Proof. intros HN f g. by apply NoDup_fmap_inj_on. Qed.

Lemma pk_files_NoDup d : NoDup (f_id <$> files d) → pk_files d.
Proof. intros HN f g. by apply NoDup_fmap_inj_on. Qed.

Lemma pk_users_NoDup d : NoDup (u_id <$> users d) → pk_users d.
Proof. intros HN f g. by apply NoDup_fmap_inj_on. Qed.

Lemma unique_permissions_NoDup d :
  NoDup ((λ p, (p_folder_id p, shared_with_user_id p)) <$> permissions d) →
  unique_permissions d.
Proof.
  intros HN p q Hp Hq Hf Hu.
  apply (NoDup_fmap_inj_on _ _ HN); [done..|]. simpl. congruence.
Qed.

Lemma sample_db_pk_folders : pk_folders sample_db.
Proof. apply pk_folders_NoDup. decide_closed. Qed.

Lemma sample_db_pk_files : pk_files sample_db.
Proof. apply pk_files_NoDup. decide_closed. Qed.

Lemma sample_db_pk_users : pk_users sample_db.
Proof. apply pk_users_NoDup. decide_closed. Qed.

Lemma sample_db_unique_permissions : unique_permissions sample_db.
Proof. apply unique_permissions_NoDup. decide_closed. Qed.

(** Claim C1.  For every folder [F] of the store and every caller, the
    resolved access level is [owner] exactly when the folder's [user_id]
    is the caller's id; for any other caller it is the [permission_type]
    of the grant row stored for (folder, caller), and [none] (the 404
    answer) when no such row is stored.  [checkFolderPermission] decides
    on the same level: it lets the request through for the owner, and for
    a grantee whose level reaches the required one. *)
Theorem folder_access_resolution (caller : Z) (F : folder_row) (d : db) :
  pk_folders d → unique_permissions d → F ∈ folders d →
  (resolve_folder caller (fo_id F) d = Some owner ↔ fo_user_id F = caller)
  ∧ (fo_user_id F ≠ caller →
     (∀ g, g ∈ permissions d →
        p_folder_id g = fo_id F → shared_with_user_id g = caller →
        resolve_folder caller (fo_id F) d
        = Some (granted (p_permission_type g)))
     ∧ ((∀ g, g ∈ permissions d →
           ¬ (p_folder_id g = fo_id F ∧ shared_with_user_id g = caller)) →
        resolve_folder caller (fo_id F) d = None))
  ∧ (∀ required,
       checkFolderPermission required caller (fo_id F) d = Next ↔
       match resolve_folder caller (fo_id F) d with
       | Some owner => True
       | Some (granted t) => permissionLevels required ≤ permissionLevels t
       | None => False
       end).
Proof.
  intros Hpk Huniq HF. split; [|split].
  - rewrite resolve_folder_cases by done. case_decide; [done|].
    split; [|done]. by destruct (head _).
  - intros Hown. split.
    + intros g ???. by apply resolve_folder_granted.
    + by apply resolve_folder_none.
  - intros required.
    rewrite checkFolderPermission_cases, resolve_folder_cases by done.
    case_decide; [done|].
    destruct (head _) as [p|]; simpl; [|done].
    case_decide; split; (done || lia).
Qed.

Lemma folder_access_resolution_witness :
  (resolve_folder 2 (fo_id photos) sample_db = Some owner
   ↔ fo_user_id photos = 2)
  ∧ resolve_folder 2 (fo_id photos) sample_db = Some (granted view)
  ∧ (checkFolderPermission create 2 (fo_id photos) sample_db = Next ↔ False).
Proof.
  destruct (folder_access_resolution 2 photos sample_db
              sample_db_pk_folders sample_db_unique_permissions)
    as (Hown & Hgrant & Hmw).
  { decide_closed. }
  split; [exact Hown|]. split.
  - destruct Hgrant as [Hg _]; [done|].
    apply (Hg bob_views_photos); [|done..]. apply list_elem_of_singleton. done.
  - rewrite (Hmw create). vm_compute. intuition congruence.
Defined.

(** ** File access *)

Lemma elem_of_files_with_grant caller d f op :
  (f, op) ∈ files_with_grant caller d ↔
  f ∈ files d ∧
  match op with
  | Some p => p ∈ permissions d ∧ folder_id f = Some (p_folder_id p)
              ∧ shared_with_user_id p = caller
  | None => ∀ p, p ∈ permissions d →
      ¬ (folder_id f = Some (p_folder_id p) ∧ shared_with_user_id p = caller)
  end.
Proof.
  unfold files_with_grant. rewrite elem_of_left_join.
  destruct op; naive_solver.
Qed.

Lemma elem_of_file_access_rows caller (ok : file_row → Prop)
    `{∀ f, Decision (ok f)} d f a :
  (f, a) ∈ file_access_rows caller ok d ↔
  ∃ op, (f, op) ∈ files_with_grant caller d
        ∧ ok f ∧ owner_or_shared (f_user_id f) caller op
        ∧ a = access_level_case (f_user_id f) caller (p_permission_type <$> op).
Proof.
  unfold file_access_rows. rewrite list_elem_of_fmap. split.
  - intros ([f' op] & [= -> ->] & Hr). simpl in *.
    apply list_elem_of_filter in Hr as [[??]?]. by exists op.
  - intros (op & Hj & Hok & Hw & ->). exists (f, op). split; [done|].
    by apply list_elem_of_filter.
Qed.

Section file_resolution.
Variables (caller : Z) (f : file_row) (d : db).
Hypothesis Hpk : pk_files d.
Hypothesis Huniq : unique_permissions d.
Hypothesis Hf : f ∈ files d.

(** Any row the access query selects for the id of [f] is [f] itself,
    with a level justified by a join row. *)
Lemma file_access_head f' a rows :
  file_access_rows caller (λ x, f_id x = f_id f) d = (f', a) :: rows →
  f' = f ∧ ∃ op, (f, op) ∈ files_with_grant caller d
      ∧ owner_or_shared (f_user_id f) caller op
      ∧ a = access_level_case (f_user_id f) caller (p_permission_type <$> op).
Proof.
  intros E.
  assert ((f', a) ∈ file_access_rows caller (λ x, f_id x = f_id f) d) as Hin
    by (rewrite E; left).
  apply elem_of_file_access_rows in Hin as (op & Hj & Hid & Hw & ->).
  assert (f' = f) as ->.
  { apply Hpk; [|done..]. by apply elem_of_files_with_grant in Hj as [? _]. }
  split; [done|]. by exists op.
Qed.

Lemma file_access_nonempty op :
  (f, op) ∈ files_with_grant caller d →
  owner_or_shared (f_user_id f) caller op →
  file_access_rows caller (λ x, f_id x = f_id f) d ≠ [].
Proof.
  intros Hj Hw Hnil.
  assert ((f, access_level_case (f_user_id f) caller
                (p_permission_type <$> op))
          ∈ file_access_rows caller (λ x, f_id x = f_id f) d) as Hin.
  { apply elem_of_file_access_rows. by exists op. }
  rewrite Hnil in Hin. by apply elem_of_nil in Hin.
Qed.

Lemma resolve_file_owner :
  f_user_id f = caller → resolve_file caller (f_id f) d = Some owner.
Proof.
  intros Hown. unfold resolve_file, get_file.
  destruct (left_join_total
              (λ f p, folder_id f = Some (p_folder_id p)
                      ∧ shared_with_user_id p = caller)
              (files d) (permissions d) f Hf) as [op Hj].
  pose proof (file_access_nonempty op Hj) as Hne.
  destruct (file_access_rows caller _ d) as [|[f' a] rows] eqn:E.
  { exfalso. apply Hne; [by left|done]. }
  destruct (file_access_head f' a rows E) as (_ & op' & _ & _ & ->).
  unfold access_level_case. by rewrite decide_True.
Qed.

Lemma resolve_file_granted g :
  f_user_id f ≠ caller → g ∈ permissions d →
  folder_id f = Some (p_folder_id g) → shared_with_user_id g = caller →
  resolve_file caller (f_id f) d = Some (granted (p_permission_type g)).
Proof.
  intros Hown Hg Hgf Hgc. unfold resolve_file, get_file.
  assert ((f, Some g) ∈ files_with_grant caller d) as Hj.
  { by apply elem_of_files_with_grant. }
  pose proof (file_access_nonempty (Some g) Hj) as Hne.
  destruct (file_access_rows caller _ d) as [|[f' a] rows] eqn:E.
  { exfalso. apply Hne; [|done]. right. by exists g. }
  destruct (file_access_head f' a rows E) as (_ & op & Hop & Hw & ->).
  destruct Hw as [?|(q & -> & Hq)]; [done|].
  apply elem_of_files_with_grant in Hop as (_ & Hqin & Hqf & _).
  assert (q = g) as -> by (apply Huniq; congruence).
  unfold access_level_case. by rewrite decide_False.
Qed.

Lemma resolve_file_none :
  f_user_id f ≠ caller →
  (∀ g, g ∈ permissions d →
     ¬ (folder_id f = Some (p_folder_id g) ∧ shared_with_user_id g = caller)) →
  resolve_file caller (f_id f) d = None.
Proof.
  intros Hown Hno. unfold resolve_file, get_file.
  destruct (file_access_rows caller _ d) as [|[f' a] rows] eqn:E; [done|].
  destruct (file_access_head f' a rows E) as (_ & op & Hop & Hw & ->).
  destruct Hw as [?|(q & -> & Hq)]; [done|].
  apply elem_of_files_with_grant in Hop as (_ & Hqin & Hqf & _).
  exfalso. by apply (Hno q).
Qed.

Lemma resolve_file_cases :
  resolve_file caller (f_id f) d
  = if decide (f_user_id f = caller) then Some owner
    else match folder_id f with
         | None => None
         | Some folderId =>
           granted ∘ p_permission_type
           <$> head (filter (λ p, p_folder_id p = folderId
                                  ∧ shared_with_user_id p = caller)
                       (permissions d))
         end.
Proof.
  case_decide as Hown; [by apply resolve_file_owner|].
  destruct (folder_id f) as [folderId|] eqn:Efo.
  - destruct (filter _ (permissions d)) as [|g gs] eqn:E; simpl.
    + apply resolve_file_none; [done|].
      intros g Hg [Hfo Hm]. rewrite Efo in Hfo. injection Hfo as ->.
      exact (filter_nil_not_elem_of _ _ g E (conj eq_refl Hm) Hg).
    + assert (g ∈ filter (λ p, p_folder_id p = folderId
                               ∧ shared_with_user_id p = caller)
                    (permissions d)) as Hg by (rewrite E; left).
      apply list_elem_of_filter in Hg as [[<- ?]?].
      by apply resolve_file_granted.
  - apply resolve_file_none; [done|]. intros g _ [Hfo _]. congruence.
Qed.
End file_resolution.

(** Claim C2, as stated, fails on the sample store: user 2 holds [view]
    on folder 1 and owns the file notes.txt inside it; the file
    resolves to [owner] for user 2, above the folder's [view].  The
    folder's owner, user 1, holds no level at all on that file. *)
Lemma file_access_equals_folder_access_counterexample :
  notes_txt ∈ files sample_db
  ∧ folder_id notes_txt = Some (fo_id photos)
  ∧ resolve_folder 2 (fo_id photos) sample_db = Some (granted view)
  ∧ resolve_file 2 (f_id notes_txt) sample_db = Some owner
  ∧ resolve_file 2 (f_id notes_txt) sample_db
    ≠ resolve_folder 2 (fo_id photos) sample_db
  ∧ resolve_folder 1 (fo_id photos) sample_db = Some owner
  ∧ resolve_file 1 (f_id notes_txt) sample_db = None.
Proof.
  split; [|by vm_compute].
  apply (bool_decide_unpack _). by vm_compute.
Qed.

(** Claim C2, amended.  Ownership of the file comes first: the file's
    owner resolves to [owner].  For any other caller the level on a file
    is exactly the [permission_type] of the caller's grant on the
    containing folder, and [none] without such a grant; so a caller who
    owns neither the file nor the folder has the same level on both.
    There are no grants on files.  A grant on [F] gives nothing on a child
    folder of [F] or on the files in it: those are decided by the child's
    own grants.  A file with [folder_id] NULL resolves to [none] for
    everyone but its owner. *)
Theorem file_access_follows_folder_grant (caller : Z) (d : db) :
  pk_files d → pk_folders d → unique_permissions d →
  (∀ f, f ∈ files d → f_user_id f = caller →
     resolve_file caller (f_id f) d = Some owner)
  ∧ (∀ f g, f ∈ files d → f_user_id f ≠ caller →
       g ∈ permissions d → folder_id f = Some (p_folder_id g) →
       shared_with_user_id g = caller →
       resolve_file caller (f_id f) d = Some (granted (p_permission_type g)))
  ∧ (∀ f, f ∈ files d → f_user_id f ≠ caller →
       (∀ g, g ∈ permissions d →
          ¬ (folder_id f = Some (p_folder_id g)
             ∧ shared_with_user_id g = caller)) →
       resolve_file caller (f_id f) d = None)
  ∧ (∀ f F, f ∈ files d → F ∈ folders d → folder_id f = Some (fo_id F) →
       f_user_id f ≠ caller → fo_user_id F ≠ caller →
       resolve_file caller (f_id f) d = resolve_folder caller (fo_id F) d)
  ∧ (∀ F K g, F ∈ folders d → K ∈ folders d →
       parent_folder_id K = Some (fo_id F) →
       g ∈ permissions d → p_folder_id g = fo_id F →
       shared_with_user_id g = caller →
       fo_user_id K ≠ caller →
       (∀ h, h ∈ permissions d →
          ¬ (p_folder_id h = fo_id K ∧ shared_with_user_id h = caller)) →
       resolve_folder caller (fo_id K) d = None
       ∧ ∀ f, f ∈ files d → folder_id f = Some (fo_id K) →
           f_user_id f ≠ caller → resolve_file caller (f_id f) d = None)
  ∧ (∀ f, f ∈ files d → folder_id f = None →
       (resolve_file caller (f_id f) d ≠ None ↔ f_user_id f = caller)).
Proof.
  intros Hpk Hpkf Huniq. split_and!.
  - intros f ??. by apply resolve_file_owner.
  - intros f g ?????. by apply resolve_file_granted.
  - intros f ???. by apply resolve_file_none.
  - intros f F Hf HF Hin ??.
    rewrite resolve_file_cases, resolve_folder_cases by done.
    rewrite !decide_False by done. by rewrite Hin.
  - intros F K g HF HK Hpar Hg Hgf Hgc Hown Hno. split.
    + by apply resolve_folder_none.
    + intros f Hf Hin ?. apply resolve_file_none; [done..|].
      intros h Hh [Hfo ?]. apply (Hno h Hh). split; [|done]. congruence.
  - intros f Hf Hroot. rewrite resolve_file_cases by done. rewrite Hroot.
    case_decide; [done|]. split; [by intros Hne|done].
Qed.

Lemma file_access_follows_folder_grant_witness :
  resolve_file 2 (f_id cat_png) sample_db = Some (granted view)
  ∧ resolve_file 2 (f_id cat_png) sample_db
    = resolve_folder 2 (fo_id photos) sample_db
  ∧ resolve_folder 2 (fo_id albums) sample_db = None
  ∧ resolve_file 2 (f_id trip_pdf) sample_db = None
  ∧ (resolve_file 2 (f_id clip_mp4) sample_db ≠ None ↔ f_user_id clip_mp4 = 2).
Proof.
  destruct (file_access_follows_folder_grant 2 sample_db
              sample_db_pk_files sample_db_pk_folders
              sample_db_unique_permissions)
    as (_ & Hgrant & _ & Hsame & Hchild & Hroot).
  assert (∀ h, h ∈ permissions sample_db →
            ¬ (p_folder_id h = fo_id albums ∧ shared_with_user_id h = 2))
    as Hno.
  { intros h Hh%list_elem_of_singleton [Hfo _]. by subst h. }
  destruct (Hchild photos albums bob_views_photos
              ltac:(decide_closed) ltac:(decide_closed) eq_refl
              ltac:(decide_closed) eq_refl eq_refl ltac:(done) Hno)
    as [Halbums Hinside].
  split_and!.
  - exact (Hgrant cat_png bob_views_photos ltac:(decide_closed) ltac:(done)
             ltac:(decide_closed) eq_refl eq_refl).
  - exact (Hsame cat_png photos ltac:(decide_closed) ltac:(decide_closed)
             eq_refl ltac:(done) ltac:(done)).
  - exact Halbums.
  - exact (Hinside trip_pdf ltac:(decide_closed) eq_refl ltac:(done)).
  - exact (Hroot clip_mp4 ltac:(decide_closed) eq_refl).
Defined.

(** ** JavaScript numbers *)

Lemma to_double_exact z : - 2 ^ 53 ≤ z ≤ 2 ^ 53 → to_double z = z.
Proof.
  intros Hz. unfold to_double, nearest_double.
  case_decide as Hsmall.
  - rewrite Z.mul_comm. apply Z.abs_sgn.
  - assert (z = 2 ^ 53 ∨ z = - 2 ^ 53) as [-> | ->] by lia; by vm_compute.
Qed.

(** A rounded magnitude of 2^53 or more is a significand of 53 bits
    times a power of two. *)
Lemma nearest_double_shape a :
  2 ^ 53 ≤ a →
  ∃ e q, 1 ≤ e ∧ 2 ^ 52 ≤ q ≤ 2 ^ 53 ∧ nearest_double a = q * 2 ^ e.
Proof.
  intros Ha. unfold nearest_double. rewrite decide_False by lia.
  set (e := Z.log2 a - 52).
  assert (53 ≤ Z.log2 a) as Hlog.
  { change 53 with (Z.log2 (2 ^ 53)). by apply Z.log2_le_mono. }
  assert (1 ≤ e) as He by (unfold e; lia).
  destruct (Z.log2_spec a ltac:(lia)) as [Hlo Hhi].
  assert (2 ^ Z.log2 a = 2 ^ 52 * 2 ^ e) as Hsplit.
  { rewrite <- Z.pow_add_r by lia. f_equal. unfold e. lia. }
  assert (2 ^ Z.succ (Z.log2 a) = 2 ^ 53 * 2 ^ e) as Hsplit'.
  { rewrite <- Z.pow_add_r by lia. f_equal. unfold e. lia. }
  assert (0 < 2 ^ e) as Hpos by (apply Z.pow_pos_nonneg; lia).
  assert (2 ^ 52 ≤ a / 2 ^ e) as Hq1.
  { apply Z.div_le_lower_bound; lia. }
  assert (a / 2 ^ e < 2 ^ 53) as Hq2.
  { apply Z.div_lt_upper_bound; lia. }
  exists e. eexists. split; [done|]. split; [|reflexivity].
  repeat case_decide; try destruct (Z.even _); lia.
Qed.

Lemma nearest_double_fixed e q :
  1 ≤ e → 2 ^ 52 ≤ q ≤ 2 ^ 53 → nearest_double (q * 2 ^ e) = q * 2 ^ e.
Proof.
  intros He Hq.
  assert (0 < 2 ^ e) as Hpos by (apply Z.pow_pos_nonneg; lia).
  destruct (decide (q = 2 ^ 53)) as [->|Hne].
  - unfold nearest_double.
    assert (2 ^ 53 * 2 ^ e = 2 ^ (53 + e)) as Hpow
      by (rewrite Z.pow_add_r by lia; done).
    rewrite Hpow. rewrite Z.log2_pow2 by lia.
    assert (2 ^ 53 ≤ 2 ^ (53 + e)) by (apply Z.pow_le_mono_r; lia).
    rewrite decide_False by lia.
    replace (53 + e - 52) with (e + 1) by lia.
    assert (2 ^ (53 + e) = 2 ^ 52 * 2 ^ (e + 1)) as ->.
    { rewrite <- Z.pow_add_r by lia. f_equal. lia. }
    assert (0 < 2 ^ (e + 1)) by (apply Z.pow_pos_nonneg; lia).
    rewrite Z.div_mul, Z.mod_mul by lia.
    rewrite decide_True by lia. done.
  - unfold nearest_double.
    assert (2 ^ 53 ≤ q * 2 ^ e) as Hbig.
    { assert (2 ^ 1 ≤ 2 ^ e) by (apply Z.pow_le_mono_r; lia).
      change (2 ^ 53) with (2 ^ 52 * 2 ^ 1). nia. }
    rewrite decide_False by lia.
    assert (Z.log2 (q * 2 ^ e) = 52 + e) as ->.
    { rewrite Z.log2_mul_pow2 by lia.
      assert (Z.log2 q = 52) as ->; [|lia].
      apply Z.log2_unique; [lia|]. change (Z.succ 52) with 53. lia. }
    replace (52 + e - 52) with e by lia.
    rewrite Z.div_mul, Z.mod_mul by lia.
    rewrite decide_True by lia. done.
Qed.

(** A number read as a number again is itself. *)
Lemma to_double_idem z : to_double (to_double z) = to_double z.
Proof.
  destruct (decide (- 2 ^ 53 ≤ z ≤ 2 ^ 53)) as [Hz|Hz].
  { by rewrite (to_double_exact z Hz), (to_double_exact z Hz). }
  unfold to_double.
  destruct (nearest_double_shape (Z.abs z) ltac:(lia)) as (e & q & He & Hq & ->).
  assert (0 < 2 ^ e) as Hpos by (apply Z.pow_pos_nonneg; lia).
  assert (0 < q * 2 ^ e) as Hm by nia.
  assert (Z.sgn z = 1 ∨ Z.sgn z = -1) as Hsgn.
  { destruct z as [|p|p]; [|by left|by right]. lia. }
  destruct Hsgn as [-> | ->].
  - rewrite Z.mul_1_l, Z.sgn_pos, Z.abs_eq by lia.
    rewrite (nearest_double_fixed e q He Hq). lia.
  - replace (-1 * (q * 2 ^ e)) with (- (q * 2 ^ e)) by lia.
    rewrite Z.sgn_neg, Z.abs_neq by lia. rewrite Z.opp_involutive.
    rewrite (nearest_double_fixed e q He Hq). lia.
Qed.

(** Rounding does not bring a figure of 2^53 or more below 2^53. *)
Lemma to_double_large z : 2 ^ 53 ≤ z → 2 ^ 53 ≤ to_double z.
Proof.
  intros Hz. unfold to_double. rewrite Z.sgn_pos, Z.abs_eq, Z.mul_1_l by lia.
  destruct (nearest_double_shape z Hz) as (e & q & He & Hq & ->).
  assert (2 ^ 1 ≤ 2 ^ e) by (apply Z.pow_le_mono_r; lia).
  change (2 ^ 53) with (2 ^ 52 * 2 ^ 1). nia.
Qed.

(** The comparison of the quota check, for figures below 2^53. *)
Lemma quota_comparison (u s q : Z) :
  0 ≤ u < 2 ^ 53 → 0 ≤ s → q < 2 ^ 53 →
  to_double (u + s) > q ↔ u + s > q.
Proof.
  intros Hu Hs Hq. destruct (decide (u + s < 2 ^ 53)) as [Hsmall|Hbig].
  - by rewrite to_double_exact by lia.
  - pose proof (to_double_large (u + s) ltac:(lia)). lia.
Qed.

(** ** Quota admission *)

Lemma select_user_head d u :
  pk_users d → u ∈ users d → ∃ rest, select_user (u_id u) d = u :: rest.
Proof.
  intros Hpk Hu. unfold select_user.
  destruct (filter _ (users d)) as [|v rest] eqn:E.
  { exfalso. exact (filter_nil_not_elem_of _ _ u E eq_refl Hu). }
  assert (v ∈ filter (λ x, u_id x = u_id u) (users d)) as Hv
    by (rewrite E; left).
  apply list_elem_of_filter in Hv as [Hid Hv].
  exists rest. f_equal. by apply Hpk.
Qed.

Lemma total_size_nonneg (files : list incoming_file) :
  Forall (λ f, 0 ≤ in_size f) files → 0 ≤ foldr Z.add 0 (in_size <$> files).
Proof.
  induction 1 as [|f files Hf _ IH]; [done|].
  rewrite fmap_cons. cbn [foldr]. lia.
Qed.

(** [files.reduce((sum, file) => sum + file.size, 0)] is the exact sum as
    long as the sum stays within 2^53. *)
Lemma total_upload_size_foldr (files : list incoming_file) (z : Z) :
  Forall (λ f, 0 ≤ in_size f) files → 0 ≤ z →
  z + foldr Z.add 0 (in_size <$> files) ≤ 2 ^ 53 →
  foldl (λ sum file, to_double (sum + in_size file)) z files
  = z + foldr Z.add 0 (in_size <$> files).
Proof.
  revert z. induction files as [|f files IH]; intros z Hpos Hz Hsum;
    [simpl; lia|].
  apply Forall_cons in Hpos as [Hf Hpos].
  rewrite fmap_cons in *. cbn [foldl foldr] in *.
  pose proof (total_size_nonneg files Hpos) as Hrest.
  rewrite to_double_exact by lia. rewrite IH; [lia|done|lia|lia].
Qed.

(** The total of a batch that multer lets through is below 2^53. *)
Lemma total_within_limits (files : list incoming_file) :
  within_limits maxCount files →
  foldr Z.add 0 (in_size <$> files) ≤ 20 * fileSize.
Proof.
  intros [Hlen Hsizes]. unfold maxCount in Hlen.
  assert (foldr Z.add 0 (in_size <$> files)
          ≤ Z.of_nat (length files) * fileSize) as Hle.
  { clear Hlen. induction Hsizes as [|f files Hf _ IH]; [done|].
    rewrite fmap_cons. cbn [foldr length]. lia. }
  unfold fileSize in *. lia.
Qed.

(** The answer of [POST /upload/multiple] once multer has let the files
    through, the folder check passes and the user row is [user]. *)
Lemma upload_multiple_admission caller folder files w user rest :
  within_limits maxCount files → Forall (λ f, 0 ≤ in_size f) files →
  files ≠ [] →
  upload_folder_check caller folder (w_db w) = None →
  select_user caller (w_db w) = user :: rest →
  upload_multiple caller folder files w
  = match quota_check (foldr Z.add 0 (in_size <$> files)) user with
    | Some details => (InsufficientStorage details, w)
    | None =>
      let '(successful, failed, w') :=
        foldl (upload_one caller folder) ([], [], w) files in
      (UploadCompleted successful failed, w')
    end.
Proof.
  intros Hlimits Hpos Hne Hfolder Huser.
  unfold upload_multiple, upload_multiple_interleaved.
  rewrite decide_True by done.
  destruct files as [|f files]; [done|].
  rewrite Hfolder, Huser.
  pose proof (total_within_limits _ Hlimits) as Htotal.
  rewrite total_upload_size_foldr; [by rewrite Z.add_0_l|done|done|].
  unfold fileSize in Htotal. lia.
Qed.

(** The quota check on figures below 2^53. *)
Lemma quota_check_exact (s : Z) (user : user_row) :
  0 ≤ s →
  0 ≤ storage_used user < 2 ^ 53 → 0 ≤ storage_quota user < 2 ^ 53 →
  quota_check s user
  = if decide (storage_used user + s > storage_quota user)
    then Some {| totalUploadSize := formatBytes s;
                 availableSpace :=
                   formatBytes (storage_quota user - storage_used user);
                 quotaLimit := formatBytes (storage_quota user) |}
    else None.
Proof.
  intros Hs Hu Hq. unfold quota_check, parseInt.
  rewrite (to_double_exact (storage_used user)) by lia.
  rewrite (to_double_exact (storage_quota user)) by lia.
  rewrite (to_double_exact (storage_quota user - storage_used user)) by lia.
  pose proof (quota_comparison (storage_used user) s (storage_quota user)
                Hu Hs ltac:(lia)) as Hcmp.
  destruct (decide (to_double (storage_used user + s) > storage_quota user));
    destruct (decide (storage_used user + s > storage_quota user));
    [done| | |done]; exfalso; tauto.
Qed.

(** Claim C3, as stated, fails.  A batch of 21 files of one byte, sent by
    user 2 (150,000 of 5,368,709,120 bytes used), fits the remaining
    capacity and is not admitted: multer ends the request, the answer is
    500 and nothing is stored.  And the comparison is made on numbers:
    with used = quota = 2^53 a batch of one byte is over the capacity and
    is admitted, since 2^53 + 1 is no number and is read as 2^53. *)
Lemma batch_admission_counterexample :
  let batch21 :=
    (λ k, sample_upload (100 + Z.of_nat k) "a.txt" "text/plain" 1 true)
    <$> seq 0 21 in
  let full :=
    {| w_db := with_users [{| u_id := 1; storage_quota := 2 ^ 53;
                              storage_used := 2 ^ 53 |}] sample_db;
       bucket := ∅ |} in
  (storage_used bob + foldr Z.add 0 (in_size <$> batch21) ≤ storage_quota bob
   ∧ upload_multiple 2 None batch21 sample_world
     = (SomethingWentWrong, sample_world))
  ∧ (2 ^ 53 + 1 > 2 ^ 53
     ∧ ∃ row w',
         upload_multiple 1 None [sample_upload 100 "a.txt" "text/plain" 1 true]
           full
         = (UploadCompleted [row] [], w')
         ∧ used_of 1 (w_db w') = Some (2 ^ 53 + 1)).
Proof.
  cbv zeta. split_and!; [by vm_compute|by vm_compute|lia|].
  eexists _, _. split; by vm_compute.
Qed.

(** Claim C3, amended.  A batch that breaks a limit of multer (more than
    20 files, or a file of more than 1 GiB) is not admitted, whatever the
    capacity.  For a batch within the limits, with the persisted row of
    the caller holding [used = u] and [quota = q] below 2^53, a batch of
    total size [s] that reaches the quota check is admitted (its files
    are processed, answer 201) exactly when [u + s ≤ q], and is refused as
    a whole (answer 413, nothing stored or written) exactly when
    [u + s > q]: the check is made once, on the sum of the sizes, so a
    batch over the capacity is refused also when each of its files alone
    would fit. *)
Theorem batch_admission (caller : Z) (folder : option Z)
    (files : list incoming_file) (w : world) :
  (¬ within_limits maxCount files →
   upload_multiple caller folder files w = (SomethingWentWrong, w))
  ∧ (∀ user,
       within_limits maxCount files → Forall (λ f, 0 ≤ in_size f) files →
       files ≠ [] →
       upload_folder_check caller folder (w_db w) = None →
       pk_users (w_db w) → user ∈ users (w_db w) → u_id user = caller →
       0 ≤ storage_used user < 2 ^ 53 → 0 ≤ storage_quota user < 2 ^ 53 →
       let s := foldr Z.add 0 (in_size <$> files) in
       ((∃ successful failed w',
           upload_multiple caller folder files w
           = (UploadCompleted successful failed, w'))
        ↔ storage_used user + s ≤ storage_quota user)
       ∧ ((∃ details,
             upload_multiple caller folder files w
             = (InsufficientStorage details, w))
          ↔ storage_used user + s > storage_quota user)
       ∧ (Forall (λ f, storage_used user + in_size f ≤ storage_quota user)
            files →
          storage_used user + s > storage_quota user →
          ∃ details,
            upload_multiple caller folder files w
            = (InsufficientStorage details, w))).
Proof.
  split.
  { intros Hout. unfold upload_multiple, upload_multiple_interleaved.
    by rewrite decide_False. }
  intros user Hlimits Hpos Hne Hfolder Hpk Hu <- Hused Hquota s.
  destruct (select_user_head _ _ Hpk Hu) as [rest Hsel].
  rewrite (upload_multiple_admission _ _ _ _ _ _ Hlimits Hpos Hne Hfolder Hsel).
  fold s.
  pose proof (total_size_nonneg files Hpos) as Hs. fold s in Hs.
  rewrite (quota_check_exact s user Hs Hused Hquota).
  case_decide as Hq.
  - split_and!; [split|split|].
    + by intros (? & ? & ? & [=]).
    + lia.
    + done.
    + intros _. eauto.
    + intros _ _. eauto.
  - destruct (foldl _ _ files) as [[successful failed] w'].
    split_and!; [split|split|].
    + lia.
    + intros _. eauto.
    + by intros (? & [=]).
    + lia.
    + lia.
Qed.

(** Each file of the batch would fit alone (900,000 + 75,000 ≤
    1,000,000); the batch is refused. *)
Lemma batch_admission_witness :
  Forall (λ f, storage_used alice + in_size f ≤ storage_quota alice) batch_150k
  ∧ ∃ details,
      upload_multiple 1 None batch_150k sample_world
      = (InsufficientStorage details, sample_world).
Proof.
  assert (Forall (λ f, storage_used alice + in_size f ≤ storage_quota alice)
            batch_150k) as Hfit by (repeat constructor; by vm_compute).
  split; [done|].
  apply (proj2 (batch_admission 1 None batch_150k sample_world) alice);
    [decide_closed|repeat constructor; by vm_compute|done|done
    |exact sample_db_pk_users|decide_closed|done
    |by vm_compute|by vm_compute|done|].
  by vm_compute.
Defined.

Lemma upload_folder_check_refusal caller folder d r :
  upload_folder_check caller folder d = Some r →
  r = UploadFolderNotFound ∨ r = UploadForbidden.
Proof.
  unfold upload_folder_check. intros Hr.
  repeat case_match; naive_solver.
Qed.

(** Claim C9, as stated, fails: in its own scenario (quota 1,000,000,
    used 900,000, a batch of 150,000 bytes) the 413 answer carries the
    strings "0.14MB" and "0.10MB", not the byte counts 150000 and 100000.
    The byte counts cannot be read back from the answer: a request of
    150,001 bytes is reported with the same string.  And the figures are
    formatted from numbers: a quota of 9007199388958719 bytes is read as
    9007199388958720 and reported as "8388608.13GB", where the byte count
    itself would give "8388608.12GB". *)
Lemma rejection_reports_bytes_counterexample :
  upload_multiple 1 None batch_150k sample_world
  = (InsufficientStorage {| totalUploadSize := "0.14MB";
                            availableSpace := "0.10MB";
                            quotaLimit := "0.95MB" |}, sample_world)
  ∧ "0.14MB" ≠ pretty 150000
  ∧ "0.10MB" ≠ pretty 100000
  ∧ formatBytes 150001 = formatBytes 150000
  ∧ upload_single 1 None (sample_upload 100 "a.txt" "text/plain" 1000 true)
      {| w_db := with_users [{| u_id := 1; storage_quota := 9007199388958719;
                                storage_used := 9007199388958719 |}] sample_db;
         bucket := ∅ |}
    = (InsufficientStorage {| totalUploadSize := "0.00MB";
                              availableSpace := "0.00MB";
                              quotaLimit := "8388608.13GB" |},
       {| w_db := with_users [{| u_id := 1; storage_quota := 9007199388958719;
                                 storage_used := 9007199388958719 |}] sample_db;
          bucket := ∅ |})
  ∧ formatBytes 9007199388958719 = "8388608.12GB".
Proof. by vm_compute. Qed.

(** Claim C9, amended.  A quota rejection (413) of either upload route
    leaves the store as it was and, for figures below 2^53, reports the
    requested size, the remaining capacity [quota - used] and the quota,
    each as the string [formatBytes] makes of the byte count: gigabytes
    with two decimals from 1 GiB on, megabytes with two decimals below.
    In the scenario the answer reads totalUploadSize "0.14MB",
    availableSpace "0.10MB". *)
Theorem rejection_reports_formatted_sizes (caller : Z) (folder : option Z)
    (w w' : world) (details : storage_details) :
  (∀ u, u ∈ users (w_db w) →
     0 ≤ storage_used u < 2 ^ 53 ∧ 0 ≤ storage_quota u < 2 ^ 53) →
  (∀ files,
     Forall (λ f, 0 ≤ in_size f) files →
     upload_multiple caller folder files w = (InsufficientStorage details, w') →
     ∃ user rest, select_user caller (w_db w) = user :: rest
       ∧ storage_used user + foldr Z.add 0 (in_size <$> files)
         > storage_quota user
       ∧ details
         = {| totalUploadSize := formatBytes (foldr Z.add 0 (in_size <$> files));
              availableSpace :=
                formatBytes (storage_quota user - storage_used user);
              quotaLimit := formatBytes (storage_quota user) |}
       ∧ w' = w)
  ∧ (∀ file,
       0 ≤ in_size file →
       upload_single caller folder file w = (InsufficientStorage details, w') →
       ∃ user rest, select_user caller (w_db w) = user :: rest
         ∧ storage_used user + in_size file > storage_quota user
         ∧ details
           = {| totalUploadSize := formatBytes (in_size file);
                availableSpace :=
                  formatBytes (storage_quota user - storage_used user);
                quotaLimit := formatBytes (storage_quota user) |}
         ∧ w' = w).
Proof.
  intros Hfigures.
  assert (∀ caller folder d r,
            upload_folder_check caller folder d = Some r →
            ∀ details, r ≠ InsufficientStorage details) as Hcheck.
  { intros c fo d r Hr det.
    by destruct (upload_folder_check_refusal _ _ _ _ Hr) as [-> | ->]. }
  assert (∀ user rest, select_user caller (w_db w) = user :: rest →
            0 ≤ storage_used user < 2 ^ 53 ∧ 0 ≤ storage_quota user < 2 ^ 53)
    as Huser.
  { intros user rest Hsel. apply Hfigures.
    assert (user ∈ select_user caller (w_db w)) as Hin by (rewrite Hsel; left).
    unfold select_user in Hin. by apply list_elem_of_filter in Hin as [_ ?]. }
  split.
  - intros files Hpos.
    unfold upload_multiple, upload_multiple_interleaved.
    case_decide as Hlimits; [|done].
    destruct files as [|f files]; [done|].
    destruct (upload_folder_check _ _ _) as [r|] eqn:Efo.
    { intros [= -> _]. by destruct (Hcheck _ _ _ _ Efo details). }
    destruct (select_user _ _) as [|user rest] eqn:Hsel; [done|].
    destruct (Huser user rest eq_refl) as [Hused Hquota].
    pose proof (total_within_limits _ Hlimits) as Htotal.
    rewrite total_upload_size_foldr;
      [|done|done|unfold fileSize in Htotal; lia].
    rewrite Z.add_0_l.
    pose proof (total_size_nonneg (f :: files) Hpos) as Hs.
    rewrite (quota_check_exact _ user Hs Hused Hquota).
    case_decide as Hq.
    + intros [= <- <-]. by exists user, rest.
    + by destruct (foldl _ _ _) as [[??]?].
  - intros file Hpos. unfold upload_single, upload_single_interleaved.
    case_decide as Hlimit; [|done].
    destruct (upload_folder_check _ _ _) as [r|] eqn:Efo.
    { intros [= -> _]. by destruct (Hcheck _ _ _ _ Efo details). }
    destruct (select_user _ _) as [|user rest] eqn:Hsel; [done|].
    destruct (Huser user rest eq_refl) as [Hused Hquota].
    rewrite (quota_check_exact _ user Hpos Hused Hquota).
    case_decide as Hq.
    + intros [= <- <-]. by exists user, rest.
    + by destruct (uploadResult file) as [[??]|].
Qed.

Lemma rejection_reports_formatted_sizes_witness :
  ∃ user rest, select_user 1 sample_db = user :: rest
    ∧ storage_used user + 150000 > storage_quota user
    ∧ {| totalUploadSize := "0.14MB"; availableSpace := "0.10MB";
         quotaLimit := "0.95MB" |}
      = {| totalUploadSize := formatBytes 150000;
           availableSpace :=
             formatBytes (storage_quota user - storage_used user);
           quotaLimit := formatBytes (storage_quota user) |}
    ∧ sample_world = sample_world.
Proof.
  apply (proj1 (rejection_reports_formatted_sizes 1 None sample_world
                  sample_world _
                  ltac:(apply Forall_forall; repeat constructor; by vm_compute))
           batch_150k).
  - repeat constructor; by vm_compute.
  - by vm_compute.
Defined.

(** ** The ledger: [storage_used] under the updates of the store *)

Lemma filter_fmap_stable {A : Type} (P : A → Prop) `{∀ x, Decision (P x)}
    (f : A → A) (l : list A) :
  (∀ x, P (f x) ↔ P x) → filter P (f <$> l) = f <$> filter P l.
Proof.
  intros HP. induction l as [|a l IH]; [done|].
  rewrite fmap_cons, !filter_cons, IH.
  destruct (decide (P (f a))) as [Hfa|Hfa], (decide (P a)) as [Ha|Ha];
    try done.
  - exfalso. apply Ha. by apply HP.
  - exfalso. apply Hfa. by apply HP.
Qed.

Lemma select_user_add_storage_used U delta V d :
  select_user U (add_storage_used delta V d)
  = (λ u, if decide (u_id u = V)
          then set_storage_used (storage_used u + delta) u else u)
    <$> select_user U d.
Proof.
  unfold select_user, add_storage_used. simpl.
  apply filter_fmap_stable. intros u. by case_decide.
Qed.

Lemma select_user_update_storage_used U used V d :
  select_user U (update_storage_used used V d)
  = (λ u, if decide (u_id u = V) then set_storage_used used u else u)
    <$> select_user U d.
Proof.
  unfold select_user, update_storage_used. simpl.
  apply filter_fmap_stable. intros u. by case_decide.
Qed.

Lemma select_user_head_id U d u rest :
  select_user U d = u :: rest → u_id u = U.
Proof.
  intros E. assert (u ∈ select_user U d) as Hu by (rewrite E; left).
  unfold select_user in Hu. by apply list_elem_of_filter in Hu as [? _].
Qed.

Lemma used_of_add_storage_used U delta d :
  used_of U (add_storage_used delta U d) = (λ x, x + delta) <$> used_of U d.
Proof.
  unfold used_of. rewrite select_user_add_storage_used.
  destruct (select_user U d) as [|u rest] eqn:E; [done|]. simpl.
  by rewrite decide_True by by eapply select_user_head_id.
Qed.

Lemma used_of_add_storage_used_ne U V delta d :
  U ≠ V → used_of U (add_storage_used delta V d) = used_of U d.
Proof.
  intros Hne. unfold used_of. rewrite select_user_add_storage_used.
  destruct (select_user U d) as [|u rest] eqn:E; [done|]. simpl.
  rewrite decide_False; [done|].
  apply select_user_head_id in E. congruence.
Qed.

Lemma used_of_update_storage_used U used d :
  used_of U (update_storage_used used U d) = (λ _, used) <$> used_of U d.
Proof.
  unfold used_of. rewrite select_user_update_storage_used.
  destruct (select_user U d) as [|u rest] eqn:E; [done|]. simpl.
  by rewrite decide_True by by eapply select_user_head_id.
Qed.

(** ** Order of blob operation and quota commit *)

(** Claim C4, as stated, fails on delete: user 1 deletes cat.png
    (400,000 bytes) and the blob store throws.  The blob stays in the
    bucket, the answer is 200, the row is gone and [storage_used] of
    user 1 has gone down from 900,000 to 500,000. *)
Lemma commit_skipped_on_failed_blob_delete_counterexample :
  fst (delete_file false 1 10 sample_world) = FileDeleted
  ∧ backblaze_file_id cat_png ∈ bucket (snd (delete_file false 1 10 sample_world))
  ∧ (cat_png ∉ files (w_db (snd (delete_file false 1 10 sample_world))))
  ∧ used_of 1 (w_db sample_world) = Some 900000
  ∧ used_of 1 (w_db (snd (delete_file false 1 10 sample_world))) = Some 500000.
Proof. split_and!; try done; decide_closed. Qed.

(** Claim C4, amended.  On upload the commit follows the blob: when the
    blob store throws, nothing is written (single route: the store is as
    before; batch: the turn of that file leaves the store as it was), and
    an answer "uploaded" means that the blob is in the bucket, the row is
    inserted and [storage_used] of the caller has grown by the size.  On
    delete the commit does not depend on the blob: once the caller may
    delete the file, the row is removed and [storage_used] of the file's
    owner is lowered by the size whether [deleteFile] returned or threw;
    a throw only leaves the blob in the bucket. *)
Theorem quota_commit_order (caller : Z) (w : world) :
  (∀ folder file,
     uploadResult file = None → snd (upload_single caller folder file w) = w)
  ∧ (∀ folder file acc,
       uploadResult file = None →
       snd (upload_one caller folder acc file) = snd acc)
  ∧ (∀ folder file row w',
       upload_single caller folder file w = (FileUploaded row, w') →
       backblaze_file_id row ∈ bucket w'
       ∧ row ∈ files (w_db w')
       ∧ size row = in_size file
       ∧ used_of caller (w_db w')
         = (λ u, u + in_size file) <$> used_of caller (w_db w))
  ∧ (∀ fileId blob_deleted file level rest,
       file_access_rows caller (λ f, f_id f = fileId) (w_db w)
       = (file, level) :: rest →
       may_delete level →
       fst (delete_file blob_deleted caller fileId w) = FileDeleted
       ∧ (∀ f, f ∈ files (w_db (snd (delete_file blob_deleted caller fileId w))) →
            f_id f ≠ fileId)
       ∧ used_of (f_user_id file)
           (w_db (snd (delete_file blob_deleted caller fileId w)))
         = (λ u, u - size file) <$> used_of (f_user_id file) (w_db w)
       ∧ w_db (snd (delete_file blob_deleted caller fileId w))
         = w_db (snd (delete_file true caller fileId w))
       ∧ (blob_deleted = false →
          bucket (snd (delete_file blob_deleted caller fileId w)) = bucket w)).
Proof.
  split_and!.
  - intros folder file Hfail. unfold upload_single, upload_single_interleaved.
    rewrite Hfail. case_decide; [|done].
    destruct (upload_folder_check _ _ _); [done|].
    destruct (select_user _ _) as [|user rest]; [done|].
    by destruct (quota_check _ _).
  - intros folder file [[successful failed] w0] Hfail.
    unfold upload_one. by rewrite Hfail.
  - intros folder file row w'. unfold upload_single, upload_single_interleaved.
    case_decide; [|done].
    destruct (upload_folder_check _ _ _) as [r|] eqn:Efo.
    { by destruct (upload_folder_check_refusal _ _ _ _ Efo) as [-> | ->]. }
    destruct (select_user _ _) as [|user rest]; [done|].
    destruct (quota_check _ _); [done|].
    destruct (uploadResult file) as [[fileId url]|]; [|done].
    intros [= <- <-]. simpl. split_and!.
    + set_solver.
    + apply elem_of_app. right. by left.
    + done.
    + by rewrite used_of_add_storage_used.
  - intros fileId blob_deleted file level rest Hrows Hmay.
    unfold delete_file. rewrite Hrows, !decide_True by done. simpl.
    split_and!.
    + done.
    + intros f Hf. destruct blob_deleted; simpl in Hf;
        by apply list_elem_of_filter in Hf as [? _].
    + rewrite used_of_add_storage_used. by destruct blob_deleted.
    + by destruct blob_deleted.
    + by intros ->.
Qed.

Lemma quota_commit_order_witness :
  snd (upload_single 2 None
         (sample_upload 30 "x.bin" "application/zip" 10 false) sample_world)
  = sample_world
  ∧ used_of 1 (w_db (snd (delete_file false 1 10 sample_world)))
    = (λ u, u - size cat_png) <$> used_of 1 (w_db sample_world)
  ∧ bucket (snd (delete_file false 1 10 sample_world)) = bucket sample_world.
Proof.
  destruct (quota_commit_order 2 sample_world) as (Hup & _).
  destruct (quota_commit_order 1 sample_world) as (_ & _ & _ & Hdel).
  destruct (Hdel 10 false cat_png (Some owner) [] eq_refl) as (_ & _ & Hused & _ & Hblob).
  { by left. }
  split_and!.
  - by apply Hup.
  - exact Hused.
  - by apply Hblob.
Defined.

(** ** Histories keep the user rows *)

Lemma used_of_users U d d' : users d = users d' → used_of U d = used_of U d'.
Proof. unfold used_of, select_user. by intros ->. Qed.

Lemma has_row_add_storage_used U delta V d :
  is_Some (used_of U d) → is_Some (used_of U (add_storage_used delta V d)).
Proof.
  intros Hrow. destruct (decide (U = V)) as [->|Hne].
  - rewrite used_of_add_storage_used. by apply fmap_is_Some.
  - by rewrite used_of_add_storage_used_ne.
Qed.

Lemma has_row_upload_one U caller folder acc file :
  is_Some (used_of U (w_db acc.2)) →
  is_Some (used_of U (w_db (upload_one caller folder acc file).2)).
Proof.
  destruct acc as [[successful failed] w]. unfold upload_one. simpl.
  destruct (uploadResult file) as [[fileId url]|]; [|done]. simpl.
  intros Hrow. by apply has_row_add_storage_used.
Qed.

Lemma has_row_bulk_delete_one U blob_deleted acc file :
  is_Some (used_of U (w_db acc.2)) →
  is_Some (used_of U (w_db (bulk_delete_one blob_deleted acc file).2)).
Proof.
  destruct acc as [deleted w]. unfold bulk_delete_one. simpl. intros Hrow.
  apply has_row_add_storage_used. by destruct (blob_deleted file).
Qed.

(** A property of the accumulator that every turn of a loop keeps holds
    after the loop. *)
Lemma foldl_invariant_elem {A B : Type} (P : A → Prop) (f : A → B → A)
    (l : list B) (a : A) :
  (∀ a b, b ∈ l → P a → P (f a b)) → P a → P (foldl f a l).
Proof.
  revert a. induction l as [|b l IH]; intros a Hstep Ha; [done|].
  simpl. apply IH.
  - intros a' b' Hb'. apply Hstep. by right.
  - apply Hstep; [by left|done].
Qed.

Lemma foldl_invariant {A B : Type} (P : A → Prop) (f : A → B → A)
    (l : list B) (a : A) :
  (∀ a b, P a → P (f a b)) → P a → P (foldl f a l).
Proof. intros Hstep. apply foldl_invariant_elem. intros a' b _. apply Hstep. Qed.

Lemma mixed_delete_file_one_users service acc file :
  users (w_db (mixed_delete_file_one service acc file).2) = users (w_db acc.2).
Proof.
  destruct acc as [[deleted failed] w]. unfold mixed_delete_file_one.
  destruct service as [blob_deleted|]; [|done]. simpl.
  by destruct (blob_deleted file).
Qed.

Lemma mixed_delete_folder_one_users acc folder :
  users (mixed_delete_folder_one acc folder).2 = users acc.2.
Proof.
  destruct acc as [[deleted non_empty] d]. unfold mixed_delete_folder_one.
  by case_decide.
Qed.

Lemma mixed_delete_files_users service caller fileIds w :
  users (w_db (mixed_delete_files service caller fileIds w).2) = users (w_db w).
Proof.
  unfold mixed_delete_files. destruct fileIds as [|i ids]; [done|].
  match goal with
  | |- context [foldl ?f ?a ?l] =>
    pose proof (foldl_invariant
                  (λ acc, users (w_db acc.2) = users (w_db w)) f l a) as Hinv;
    destruct (foldl f a l) as [[deleted failed] w']
  end.
  simpl in *. apply Hinv; [|done].
  intros acc file Hacc. by rewrite mixed_delete_file_one_users.
Qed.

Lemma mixed_delete_folders_users caller folderIds d :
  users (mixed_delete_folders caller folderIds d).2 = users d.
Proof.
  unfold mixed_delete_folders. destruct folderIds as [|i ids]; [done|].
  match goal with
  | |- context [foldl ?f ?a ?l] =>
    pose proof (foldl_invariant (λ acc, users acc.2 = users d) f l a) as Hinv;
    destruct (foldl f a l) as [[deleted non_empty] d']
  end.
  simpl in *. apply Hinv; [|done].
  intros acc folder Hacc. by rewrite mixed_delete_folder_one_users.
Qed.

(** The mixed bulk delete never writes the users table. *)
Lemma mixed_bulk_delete_users service caller fileIds folderIds w :
  users (w_db (mixed_bulk_delete service caller fileIds folderIds w).2)
  = users (w_db w).
Proof.
  unfold mixed_bulk_delete. case_decide; [done|].
  pose proof (mixed_delete_files_users service caller fileIds w) as Hfiles.
  destruct (mixed_delete_files service caller fileIds w) as [file_results w1].
  pose proof (mixed_delete_folders_users caller folderIds (w_db w1)) as Hfolders.
  destruct (mixed_delete_folders caller folderIds (w_db w1))
    as [folder_results d2].
  simpl in *. case_decide; simpl; congruence.
Qed.

Lemma has_row_perform U w op :
  is_Some (used_of U (w_db w)) → is_Some (used_of U (w_db (perform w op))).
Proof.
  intros Hrow. destruct op as [caller folder file|caller folder files
    |blob_deleted caller fileId|blob_deleted caller fileIds
    |service caller fileIds folderIds]; simpl.
  - unfold upload_single, upload_single_interleaved. case_decide; [|done].
    destruct (upload_folder_check _ _ _); [done|].
    destruct (select_user _ _) as [|user rest]; [done|].
    destruct (quota_check _ _); [done|].
    destruct (uploadResult file) as [[fileId url]|]; [|done]. simpl.
    by apply has_row_add_storage_used.
  - unfold upload_multiple, upload_multiple_interleaved.
    case_decide; [|done]. destruct files as [|f files]; [done|].
    destruct (upload_folder_check _ _ _); [done|].
    destruct (select_user _ _) as [|user rest]; [done|].
    destruct (quota_check _ _); [done|].
    match goal with
    | |- context [foldl ?f ?a ?l] =>
      pose proof (foldl_invariant
                    (λ acc, is_Some (used_of U (w_db acc.2))) f l a) as Hinv;
      destruct (foldl f a l) as [[successful failed] w']
    end.
    simpl in *. apply Hinv; [|done].
    intros acc file. apply has_row_upload_one.
  - unfold delete_file.
    destruct (file_access_rows _ _ _) as [|[file level] rest]; [done|].
    case_decide; [|done]. simpl.
    apply has_row_add_storage_used. by destruct blob_deleted.
  - unfold bulk_delete_files. destruct fileIds as [|i ids]; [done|].
    destruct (filter _ _) as [|r rs]; [|done].
    match goal with
    | |- context [foldl ?f ?a ?l] =>
      pose proof (foldl_invariant
                    (λ acc, is_Some (used_of U (w_db acc.2))) f l a) as Hinv;
      destruct (foldl f a l) as [deleted w']
    end.
    simpl in *. apply Hinv; [|done].
    intros acc file. apply has_row_bulk_delete_one.
  - by rewrite (used_of_users U _ (w_db w))
      by apply mixed_bulk_delete_users.
Qed.

Lemma has_row_run U ops w :
  is_Some (used_of U (w_db w)) → is_Some (used_of U (w_db (run ops w))).
Proof.
  intros Hrow. unfold run.
  apply (foldl_invariant (λ w, is_Some (used_of U (w_db w)))); [|done].
  intros w0 op. apply has_row_perform.
Qed.

(** ** Reconciliation *)

(** What [GET /stats] leaves in the store. *)
Lemma get_stats_state U d s :
  used_of U d = Some s →
  (get_stats U d).2
  = if decide (parseInt (actual_used U d) ≠ parseInt s)
    then update_storage_used (parseInt (actual_used U d)) U d else d.
Proof.
  unfold used_of, get_stats.
  destruct (select_user U d) as [|user rest]; [done|].
  intros [= <-]. cbn [snd]. by case_decide.
Qed.

Lemma get_stats_reconciles U d :
  is_Some (used_of U d) →
  (∀ s, used_of U d = Some s → - 2 ^ 53 ≤ s ≤ 2 ^ 53) →
  - 2 ^ 53 ≤ actual_used U d ≤ 2 ^ 53 →
  used_of U (get_stats U d).2 = Some (actual_used U d)
  ∧ files (get_stats U d).2 = files d
  ∧ (used_of U d ≠ Some (actual_used U d) →
     (get_stats U d).2 = update_storage_used (actual_used U d) U d)
  ∧ (used_of U d = Some (actual_used U d) → (get_stats U d).2 = d).
Proof.
  intros [s Hrow] Hstored Hsum. specialize (Hstored s Hrow).
  rewrite (get_stats_state U d s Hrow). unfold parseInt.
  rewrite !to_double_exact by done.
  case_decide as Hdiff.
  - split_and!; [|done|done|congruence].
    rewrite used_of_update_storage_used, Hrow. done.
  - split_and!; [|done| |done].
    + rewrite Hrow. by f_equal.
    + intros Hne. rewrite Hrow in Hne. congruence.
Qed.

(** Claim C5, as stated, fails beyond 2^53: the route compares and writes
    numbers.  With files of 2^53 + 1 bytes in all, the figure it persists
    is 2^53, not the sum; and a stored figure of 2^53 + 1 over files of
    2^53 bytes differs from the sum and is not rewritten. *)
Lemma reconcile_restores_used_counterexample :
  let over :=
    {| w_db := with_files [sample_file 10 1 None "a.bin" "application/zip"
                             (2 ^ 53 + 1)] sample_db;
       bucket := ∅ |} in
  let stale :=
    with_users [{| u_id := 1; storage_quota := 2 ^ 60;
                   storage_used := 2 ^ 53 + 1 |}]
      (with_files [sample_file 10 1 None "a.bin" "application/zip" (2 ^ 53)]
         sample_db) in
  (foldr Z.add 0
     (size <$> filter (λ f, f_user_id f = 1)
                 (files (snd (get_stats 1 (w_db (run [] over))))))
   = 2 ^ 53 + 1
   ∧ used_of 1 (snd (get_stats 1 (w_db (run [] over)))) = Some (2 ^ 53))
  ∧ (foldr Z.add 0 (size <$> filter (λ f, f_user_id f = 1) (files stale))
     = 2 ^ 53
     ∧ used_of 1 stale = Some (2 ^ 53 + 1)
     ∧ snd (get_stats 1 stale) = stale).
Proof. cbv zeta. split_and!; by vm_compute. Qed.

(** Claim C5, amended.  Take any user with a row in the users table and
    any history of uploads and deletes (single, multiple, bulk and mixed,
    with any outcomes of the blob store), after which the stored
    [storage_used] and the sum of the sizes of the user's files are at
    most 2^53 in absolute value.  After the storage-stats route has run
    for that user, the persisted [storage_used] is the sum of the sizes of
    the files the user owns at that point; the route rewrites the stored
    value exactly when it differs from that sum, and reports the sum. *)
Theorem reconcile_restores_used (U : Z) (ops : list operation) (w : world) :
  let total := λ d : db,
    foldr Z.add 0 (size <$> filter (λ f, f_user_id f = U) (files d)) in
  let d := w_db (run ops w) in
  let d' := snd (get_stats U d) in
  is_Some (used_of U (w_db w)) →
  (∀ s, used_of U d = Some s → - 2 ^ 53 ≤ s ≤ 2 ^ 53) →
  - 2 ^ 53 ≤ total d ≤ 2 ^ 53 →
  used_of U d' = Some (total d')
  ∧ files d' = files d
  ∧ (∃ q, fst (get_stats U d)
          = StatsOk {| quota := q; used := total d;
                       available := to_double (q - total d) |})
  ∧ (used_of U d ≠ Some (total d) →
     d' = update_storage_used (total d) U d)
  ∧ (used_of U d = Some (total d) → d' = d).
Proof.
  intros total d d' Hrow Hstored Hsum.
  change total with (actual_used U) in *.
  pose proof (has_row_run U ops w Hrow) as Hrun. fold d in Hrun.
  destruct (get_stats_reconciles U d Hrun Hstored Hsum)
    as (Hused & Hfiles & Hdiff & Hsame).
  fold d' in Hused, Hfiles, Hdiff, Hsame.
  split_and!; [|done| |done|done].
  - rewrite Hused. unfold actual_used. by rewrite Hfiles.
  - unfold get_stats. destruct Hrun as [u0 Hu0]. unfold used_of in Hu0.
    destruct (select_user U d) as [|user rest]; [done|]. cbn [fst].
    unfold parseInt. rewrite (to_double_exact (actual_used U d)) by done.
    eauto.
Qed.

(** The ledger of user 2 reads 0 while user 2 owns notes.txt (150,000
    bytes).  User 1 deletes cat.png with a failing blob store and user 2
    asks the mixed route for notes.txt; the stats route then brings the
    ledger of user 2 to 150,000. *)
Lemma reconcile_restores_used_witness :
  used_of 2 (w_db (run [Delete false 1 10; MixedDelete services_backblaze 2 [11] []]
                     (on_db (update_storage_used 0 2) sample_world)))
  = Some 0
  ∧ used_of 2 (snd (get_stats 2
        (w_db (run [Delete false 1 10; MixedDelete services_backblaze 2 [11] []]
                 (on_db (update_storage_used 0 2) sample_world)))))
    = Some 150000.
Proof.
  split; [by vm_compute|].
  destruct (reconcile_restores_used 2
              [Delete false 1 10; MixedDelete services_backblaze 2 [11] []]
              (on_db (update_storage_used 0 2) sample_world))
    as (Hused & _).
  - exists 0. by vm_compute.
  - intros s Hs.
    assert (s = 0) as -> by (vm_compute in Hs; congruence). lia.
  - by vm_compute.
  - rewrite Hused. by vm_compute.
Defined.

(** ** The mixed bulk delete and the ledger *)


Lemma mixed_delete_folder_one_files acc folder :
  files (mixed_delete_folder_one acc folder).2 = files acc.2.
Proof.
  destruct acc as [[deleted non_empty] d]. unfold mixed_delete_folder_one.
  by case_decide.
Qed.

Lemma mixed_delete_folders_files caller folderIds d :
  files (mixed_delete_folders caller folderIds d).2 = files d.
Proof.
  unfold mixed_delete_folders. destruct folderIds as [|i ids]; [done|].
  match goal with
  | |- context [foldl ?f ?a ?l] =>
    pose proof (foldl_invariant (λ acc, files acc.2 = files d) f l a) as Hinv;
    destruct (foldl f a l) as [[deleted non_empty] d']
  end.
  simpl in *. apply Hinv; [|done].
  intros acc folder Hacc. by rewrite mixed_delete_folder_one_files.
Qed.

(** With the blob service that cannot be loaded, the file loop of the
    mixed route reports nothing as deleted and leaves the store and the
    bucket as they were. *)
Lemma mixed_delete_files_unloaded caller fileIds w :
  (mixed_delete_files services_backblaze caller fileIds w).2 = w
  ∧ deleted (mixed_delete_files services_backblaze caller fileIds w).1 = [].
Proof.
  unfold mixed_delete_files. destruct fileIds as [|i ids]; [done|].
  match goal with
  | |- context [foldl ?f ?a ?l] =>
    pose proof (foldl_invariant
                  (λ acc : list (Z * string) * list (Z * string) * world,
                     acc.2 = w ∧ acc.1.1 = []) f l a) as Hinv;
    destruct (foldl f a l) as [[deleted0 failed0] w']
  end.
  cbn [fst snd deleted] in *. apply Hinv; [|done].
  intros [[deleted1 failed1] w1] file [Hw Hd]. cbn [fst snd] in *.
  by subst.
Qed.

(** Claim C10.  The file loop of the mixed route loads its blob service
    with [require('../services/backblaze')] inside the [try] of each
    turn.  The repository has no such module (the blob service of the
    other routes is config/backblaze.js), so each turn ends in its
    [catch]: user 2 asks for the deletion of the own file notes.txt and
    is answered 200 with the file under [failed]; the row, the blob and
    every [storage_used] are as before.  That holds for every request to
    the route: no file row and no blob is ever removed by it, and it
    never writes the users table.  Asked through the single-file route,
    the same deletion removes the row and the blob and lowers
    [storage_used] of user 2 from 150,000 to 0. *)
Theorem mixed_bulk_delete_deletes_no_file :
  mixed_bulk_delete services_backblaze 2 [11] [] sample_world
  = (MixedCompleted
       {| results_files :=
            {| deleted := []; failed := [(11, "notes.txt")]; notFound := [];
               unauthorized := [] |};
          results_folders :=
            {| folders_deleted := []; folders_failed := [];
               folders_notFound := []; folders_unauthorized := [];
               nonEmpty := [] |} |},
     sample_world)
  ∧ (∀ caller fileIds folderIds w,
       let answer :=
         mixed_bulk_delete services_backblaze caller fileIds folderIds w in
       files (w_db answer.2) = files (w_db w)
       ∧ bucket answer.2 = bucket w
       ∧ users (w_db answer.2) = users (w_db w)
       ∧ from_option (λ results, deleted (results_files results)) []
           (mixed_results_of answer.1) = [])
  ∧ fst (delete_file true 2 11 sample_world) = FileDeleted
  ∧ (notes_txt ∉ files (w_db (snd (delete_file true 2 11 sample_world))))
  ∧ (backblaze_file_id notes_txt
     ∉ bucket (snd (delete_file true 2 11 sample_world)))
  ∧ used_of 2 (w_db sample_world) = Some 150000
  ∧ used_of 2 (w_db (snd (delete_file true 2 11 sample_world))) = Some 0.
Proof.
  split_and!; [by vm_compute| |done|decide_closed|decide_closed|done|done].
  intros caller fileIds folderIds w. cbv zeta.
  pose proof (mixed_bulk_delete_users services_backblaze caller fileIds
                folderIds w) as Husers.
  unfold mixed_bulk_delete in *. case_decide as Hempty; [done|].
  destruct (mixed_delete_files_unloaded caller fileIds w) as [Hw Hdel].
  destruct (mixed_delete_files services_backblaze caller fileIds w)
    as [file_results w1].
  cbn [fst snd] in Hw, Hdel. subst w1.
  pose proof (mixed_delete_folders_files caller folderIds (w_db w)) as Hkeep.
  destruct (mixed_delete_folders caller folderIds (w_db w))
    as [folder_results d2].
  cbn [snd] in Hkeep.
  by case_decide.
Qed.

(** ** Revocation of a public share *)

(** Claim C6.  The revoke route clears the flag and the token in the row
    and asks the cache to delete the descriptor of the token, but it does
    not look at what [del] answers.  cat.png is shared under "tok-1" at
    time 0 and its link followed at time 100, which leaves the
    descriptor in the cache.  Then:
    - when [del] returns, the link is dead at time 101 on all four public
      routes;
    - when the call of the client throws during the revocation, the
      revocation is answered 200 all the same, the row has [is_public]
      false and no token, and the link still delivers the file at time
      101, from the cached descriptor;
    - the same when the revocation comes while the ['error'] listener has
      cleared [isConnected], and the connection is back afterwards;
    - a token that a second share has replaced is not known to the
      revocation at all: shared again under "tok-2" at time 50 and then
      revoked, the file is still delivered under "tok-1". *)
Theorem revoked_share_still_served :
  let row_cleared (st : db * RedisService) :=
    Forall (λ f, is_public f = false ∧ public_share_token f = None)
      (filter (λ f, f_id f = 10) (files st.1))
    ∧ filter (λ f, f_id f = 10) (files st.1) ≠ [] in
  Redis.getPublicShare true 101 "tok-1" shared_state.2
  = Some (share_of_file cat_png)
  ∧ (let revoked := revoke_share true 1 10 shared_state in
     fst revoked = ShareRevoked
     ∧ row_cleared (snd revoked)
     ∧ fst (public_download true true 101 "tok-1" (snd revoked))
       = PublicNotFound
     ∧ fst (public_view true true 101 "tok-1" (snd revoked)) = PublicNotFound
     ∧ fst (public_thumbnail true true 101 "tok-1" (snd revoked))
       = PublicNotFound
     ∧ fst (public_info true 101 "tok-1" (snd revoked)) = PublicNotFound)
  ∧ (let revoked := revoke_share false 1 10 shared_state in
     fst revoked = ShareRevoked
     ∧ row_cleared (snd revoked)
     ∧ fst (public_download true true 101 "tok-1" (snd revoked))
       = PublicDelivered
           {| content_type := "image/png"; content_length := Some 400000;
              content_disposition := Some (Inline "cat.png");
              blob_name := "cat.png" |})
  ∧ (let revoked :=
       revoke_share true 1 10
         (shared_state.1, Redis.on_error shared_state.2) in
     fst revoked = ShareRevoked
     ∧ row_cleared (snd revoked)
     ∧ fst (public_download true true 101 "tok-1"
              ((snd revoked).1, Redis.on_connect (snd revoked).2))
       = PublicDelivered
           {| content_type := "image/png"; content_length := Some 400000;
              content_disposition := Some (Inline "cat.png");
              blob_name := "cat.png" |})
  ∧ (let reshared :=
       snd (create_share true 50 "tok-2" 24 1 10
              (snd (create_share true 0 "tok-1" 24 1 10
                      (sample_db, empty_cache)))) in
     let revoked := revoke_share true 1 10 reshared in
     fst revoked = ShareRevoked
     ∧ row_cleared (snd revoked)
     ∧ fst (public_download true true 60 "tok-2" (snd revoked))
       = PublicNotFound
     ∧ fst (public_download true true 60 "tok-1" (snd revoked))
       = PublicDelivered
           {| content_type := "image/png"; content_length := Some 400000;
              content_disposition := Some (Inline "cat.png");
              blob_name := "cat.png" |}).
Proof.
  cbv zeta. split_and!; try (by vm_compute); decide_closed.
Qed.

(** ** Coupon redemption *)








(** ** Content disposition *)

Lemma inline_type_spec mime :
  inline_type mime = true ↔
  String.prefix "image/" mime = true ∨ String.prefix "video/" mime = true
  ∨ mime = "application/pdf".
Proof.
  unfold inline_type. rewrite !orb_true_iff, bool_decide_eq_true. tauto.
Qed.





(** * Further properties of the code *)

(** ** The cache service *)

(** X1.  [set] stores exactly when the service has a client, is
    connected, the call of the client returns and the lifetime is
    positive.  A stored value is read back under its key, by a [get]
    whose call returns, until its lifetime has passed and not after; the
    entries under other keys are untouched; a [set] that answers [false]
    changes nothing.  A [get] whose call throws, or that is made while
    the service has no client or is not connected, answers null. *)
Theorem cache_set_get (answered read : bool) (now now' ttl : Z)
    (key : string) (value : cached_value) (this : RedisService) :
  ((Redis.set answered now key value ttl this).1 = true
   ↔ is_Some (client this) ∧ isConnected this = true ∧ answered = true
     ∧ 0 < ttl)
  ∧ ((Redis.set answered now key value ttl this).1 = true →
     Redis.get read now' key (Redis.set answered now key value ttl this).2
     = if read && bool_decide (now' < now + ttl) then Some value else None)
  ∧ ((Redis.set answered now key value ttl this).1 = true →
     ∀ key', key' ≠ key →
       Redis.get read now' key' (Redis.set answered now key value ttl this).2
       = Redis.get read now' key' this)
  ∧ ((Redis.set answered now key value ttl this).1 = false →
     (Redis.set answered now key value ttl this).2 = this)
  ∧ Redis.get false now' key this = None
  ∧ (client this = None ∨ isConnected this = false →
     Redis.get read now' key this = None).
Proof.
  unfold Redis.set, Redis.get.
  destruct this as [[entries|] [|]]; cbn [client isConnected].
  - destruct answered; cbn [andb]; [case_bool_decide as Httl|].
    + cbn [fst snd client isConnected]. split_and!; [by eauto|..].
      * intros _. rewrite lookup_insert_eq. destruct read; [|done].
        cbn [andb]. case_bool_decide; by case_decide.
      * intros _ key' Hne. by rewrite lookup_insert_ne.
      * done.
      * done.
      * by intros [?|?].
    + cbn [fst snd]. split_and!; [|done..|by intros [?|?]].
      split; [done|]. intros (_ & _ & _ & ?). lia.
    + cbn [fst snd]. split_and!; [|done..|by intros [?|?]].
      split; [done|]. by intros (_ & _ & ? & _).
  - split_and!; [|done..]. split; [done|]. by intros (_ & ? & _).
  - split_and!; [|done..]. split; [done|]. by intros ([? ?] & _).
  - split_and!; [|done..]. split; [done|]. by intros ([? ?] & _).
Qed.

Lemma cache_set_get_witness :
  Redis.get true 3599 "public:tok-1"
    (Redis.set true 0 "public:tok-1" (CachedUrl "u") 3600 empty_cache).2
  = Some (CachedUrl "u")
  ∧ Redis.get true 3600 "public:tok-1"
      (Redis.set true 0 "public:tok-1" (CachedUrl "u") 3600 empty_cache).2
    = None.
Proof.
  split.
  - by rewrite (proj1 (proj2 (cache_set_get true true 0 3599 3600
                                "public:tok-1" (CachedUrl "u") empty_cache))
                  eq_refl).
  - by rewrite (proj1 (proj2 (cache_set_get true true 0 3600 3600
                                "public:tok-1" (CachedUrl "u") empty_cache))
                  eq_refl).
Defined.

Lemma cache_key_file_inj a b : "file:" +:+ a = "file:" +:+ b → a = b.
Proof. intros H. by simplify_eq/=. Qed.

Lemma cache_key_download_inj a b : "download:" +:+ a = "download:" +:+ b → a = b.
Proof. intros H. by simplify_eq/=. Qed.

(** X2.  [invalidateFileCache] touches the metadata entry and the
    download-URL entry of the file, and nothing else: the entries of
    every other file and every public-share descriptor read as before,
    whatever the two calls of [del] do.  Of the two entries of the file,
    each is removed from the store when the service is connected and its
    [del] returns; an entry whose [del] throws, or both when the service
    is not connected, stay in the store. *)
Theorem invalidateFileCache_scope (answered_file answered_download read : bool)
    (now file_id : Z) (this : RedisService) :
  let after :=
    Redis.invalidateFileCache answered_file answered_download file_id this in
  (∀ token,
     Redis.getPublicShare read now token after
     = Redis.getPublicShare read now token this)
  ∧ (∀ other, other ≠ file_id →
       Redis.getFileMetadata read now other after
       = Redis.getFileMetadata read now other this
       ∧ Redis.getDownloadUrl read now other after
         = Redis.getDownloadUrl read now other this)
  ∧ isConnected after = isConnected this
  ∧ (∀ entries, client this = Some entries →
       ∃ entries', client after = Some entries'
         ∧ entries' !! ("file:" +:+ pretty file_id)
           = (if isConnected this && answered_file then None
              else entries !! ("file:" +:+ pretty file_id))
         ∧ entries' !! ("download:" +:+ pretty file_id)
           = (if isConnected this && answered_download then None
              else entries !! ("download:" +:+ pretty file_id)))
  ∧ (client this = None → client after = None).
Proof.
  cbv zeta.
  unfold Redis.invalidateFileCache, Redis.getFileMetadata, Redis.getDownloadUrl,
    Redis.getPublicShare, Redis.get, Redis.del.
  assert (∀ a b, String "f" a ≠ String "d" b) as Hfd by done.
  assert (∀ a b, String "d" a ≠ String "f" b) as Hdf by done.
  assert (∀ a b, String "p" a ≠ String "d" b) as Hpd by done.
  assert (∀ a b, String "p" a ≠ String "f" b) as Hpf by done.
  assert (∀ other, other ≠ file_id →
            "file:" +:+ pretty file_id ≠ "file:" +:+ pretty other) as Hf.
  { intros other Hne H%cache_key_file_inj%(inj pretty). done. }
  assert (∀ other, other ≠ file_id →
            "download:" +:+ pretty file_id ≠ "download:" +:+ pretty other)
    as Hd.
  { intros other Hne H%cache_key_download_inj%(inj pretty). done. }
  destruct this as [[entries|] [|]], answered_file, answered_download;
    cbn [client isConnected fst snd andb]; split_and!; try done.
  all: try (intros token; destruct read; try done;
            by rewrite ?lookup_delete_ne by done).
  all: try (intros other Hne; split; destruct read; try done;
            by rewrite ?lookup_delete_ne
              by (done || by apply Hf || by apply Hd)).
  all: intros ? [= <-]; eexists; (split; [done|]).
  all: by rewrite ?lookup_delete_eq, ?lookup_delete_ne, ?lookup_delete_eq
         by done.
Qed.

Lemma invalidateFileCache_scope_witness :
  Redis.getFileMetadata true 5 7
    (Redis.invalidateFileCache true true 10
       (Redis.cacheFileMetadata true 0 7 cat_png 3600 empty_cache).2)
  = Redis.getFileMetadata true 5 7
      (Redis.cacheFileMetadata true 0 7 cat_png 3600 empty_cache).2.
Proof.
  apply (proj1 (proj2 (invalidateFileCache_scope true true true 5 10
           (Redis.cacheFileMetadata true 0 7 cat_png 3600 empty_cache).2)) 7).
  done.
Defined.

(** X3.  A delay answered by [retry_strategy] is a hundred milliseconds
    per attempt and never more than a second: attempts beyond the tenth
    stop reconnecting, so the cap of 3000 is never what decides; no delay
    is answered after a refused connection or an hour of retrying. *)
Theorem retry_delay_bounded (options : Redis.retry_options) (ms : Z) :
  Redis.retry_strategy options = Redis.RetryAfter ms →
  ms = Redis.attempt options * 100
  ∧ ms ≤ 1000
  ∧ Redis.attempt options ≤ 10
  ∧ Redis.total_retry_time options ≤ 3600000
  ∧ Redis.error_code options ≠ Some "ECONNREFUSED".
Proof.
  unfold Redis.retry_strategy. repeat case_decide; try done.
  intros [= <-]. split_and!; [lia..|done].
Qed.

Lemma retry_delay_bounded_witness :
  Redis.retry_strategy {| Redis.error_code := None;
                          Redis.total_retry_time := 2800;
                          Redis.attempt := 7 |} = Redis.RetryAfter 700
  ∧ 700 ≤ 1000.
Proof.
  split; [reflexivity|].
  destruct (retry_delay_bounded
              {| Redis.error_code := None; Redis.total_retry_time := 2800;
                 Redis.attempt := 7 |} 700 eq_refl) as (_ & H2 & _).
  exact H2.
Defined.

(** ** Public delivery *)

Lemma select_name_count_download id id' d :
  select_name id (count_download id' d) = select_name id d.
Proof.
  unfold select_name, count_download. simpl.
  rewrite filter_fmap_stable by (intros f; by case_decide).
  rewrite <- list_fmap_compose. apply list_fmap_ext.
  intros _ f _. simpl. by case_decide.
Qed.



Lemma count_download_fails_absent d id :
  (∀ f, f ∈ files d → f_id f ≠ id) → ¬ count_download_fails id d.
Proof.
  intros Hgone. unfold count_download_fails. rewrite Exists_exists.
  intros (g & Hg & Hid & _). by apply (Hgone g).
Qed.





(** ** Who may do what with a file *)

(** The rows the file routes work with, read off the resolved level. *)
Lemma file_access_rows_resolve caller f d :
  pk_files d → f ∈ files d →
  match resolve_file caller (f_id f) d with
  | Some a =>
    ∃ rest, file_access_rows caller (λ x, f_id x = f_id f) d = (f, Some a) :: rest
  | None => file_access_rows caller (λ x, f_id x = f_id f) d = []
  end.
Proof.
  intros Hpk Hf. unfold resolve_file, get_file.
  destruct (file_access_rows caller _ d) as [|[f' a] rest] eqn:E; [done|].
  destruct (file_access_head caller f d Hpk Hf f' a rest E)
    as (-> & op & _ & Hw & ->).
  unfold access_level_case.
  destruct Hw as [Hown|(q & -> & Hq)].
  - rewrite decide_True by done. by eexists.
  - case_decide; simpl; by eexists.
Qed.

(** X5.  The level a caller resolves to on a file decides every file
    route: any level (also [view]) opens download, view and thumbnail;
    deleting the file and publishing a share link need [owner] or [edit],
    and answer 403 at [view] or [create] and 404 without a level; only the
    file's owner can revoke a share link, so a grantee with [edit] can
    publish a link that they cannot take back. *)
Theorem file_route_authorization (caller : Z) (f : file_row) (d : db) :
  pk_files d → f ∈ files d →
  ((download_file caller (f_id f) d).1 = DownloadNotFoundOrDenied
   ↔ resolve_file caller (f_id f) d = None)
  ∧ (thumbnail_file caller (f_id f) d = ThumbnailFileNotFoundOrDenied
     ↔ resolve_file caller (f_id f) d = None)
  ∧ (∀ stored now redis,
       (view_file stored now caller (f_id f) (d, redis)).1
       = DownloadNotFoundOrDenied
       ↔ resolve_file caller (f_id f) d = None)
  ∧ (∀ blob_deleted blobs,
       (delete_file blob_deleted caller (f_id f)
          {| w_db := d; bucket := blobs |}).1
       = match resolve_file caller (f_id f) d with
         | None => DeleteNotFoundOrDenied
         | Some owner | Some (granted edit) => FileDeleted
         | Some (granted _) => DeleteForbidden
         end)
  ∧ (∀ stored now token expiresIn redis,
       (create_share stored now token expiresIn caller (f_id f) (d, redis)).1
       = match resolve_file caller (f_id f) d with
         | None => ShareFileNotFoundOrDenied
         | Some owner | Some (granted edit) => ShareCreated token
         | Some (granted _) => ShareForbidden
         end)
  ∧ (∀ removed redis,
       (revoke_share removed caller (f_id f) (d, redis)).1
       = if decide (f_user_id f = caller) then ShareRevoked
         else RevokeFileNotFoundOrDenied).
Proof.
  intros Hpk Hf.
  pose proof (file_access_rows_resolve caller f d Hpk Hf) as Hrows.
  destruct (resolve_file caller (f_id f) d) as [a|] eqn:Hlevel.
  - destruct Hrows as [rest Hrows]. split_and!.
    + unfold download_file. rewrite Hrows. split; [|done]. by case_decide.
    + unfold thumbnail_file. rewrite Hrows.
      split; [|done]. by repeat case_match.
    + intros stored now redis. unfold view_file. rewrite Hrows.
      split; [|done]. by case_match.
    + intros blob_deleted blobs. unfold delete_file. simpl. rewrite Hrows.
      unfold may_delete.
      destruct a as [|[| |]]; case_decide as H; try done;
        first [by destruct H|exfalso; apply H; by left|exfalso; apply H; by right].
    + intros stored now token expiresIn redis. unfold create_share.
      rewrite Hrows. unfold may_delete.
      destruct a as [|[| |]]; case_decide as H; try done;
        first [by destruct H|exfalso; apply H; by left|exfalso; apply H; by right].
    + intros removed redis. unfold revoke_share.
      destruct (filter _ (files d)) as [|g gs] eqn:E.
      * rewrite decide_False; [done|]. intros Hown.
        exact (filter_nil_not_elem_of _ _ f E (conj eq_refl Hown) Hf).
      * assert (g ∈ filter (λ x, f_id x = f_id f ∧ f_user_id x = caller)
                        (files d)) as Hg by (rewrite E; left).
        apply list_elem_of_filter in Hg as [[Hid Hown] Hg].
        rewrite (Hpk g f Hg Hf Hid) in Hown. by rewrite decide_True.
  - split_and!.
    + unfold download_file. by rewrite Hrows.
    + unfold thumbnail_file. by rewrite Hrows.
    + intros stored now redis. unfold view_file. by rewrite Hrows.
    + intros blob_deleted blobs. unfold delete_file. simpl. by rewrite Hrows.
    + intros stored now token expiresIn redis. unfold create_share.
      by rewrite Hrows.
    + intros removed redis. unfold revoke_share.
      destruct (filter _ (files d)) as [|g gs] eqn:E.
      * rewrite decide_False; [done|]. intros Hown.
        exact (filter_nil_not_elem_of _ _ f E (conj eq_refl Hown) Hf).
      * assert (g ∈ filter (λ x, f_id x = f_id f ∧ f_user_id x = caller)
                        (files d)) as Hg by (rewrite E; left).
        apply list_elem_of_filter in Hg as [[Hid Hown] Hg].
        rewrite (Hpk g f Hg Hf Hid) in Hown. by rewrite decide_True.
Qed.

(** User 2 holds [view] on the folder of cat.png: download is open,
    deleting and sharing are refused with 403. *)
Lemma file_route_authorization_witness :
  (download_file 2 (f_id cat_png) sample_db).1 ≠ DownloadNotFoundOrDenied
  ∧ (delete_file true 2 (f_id cat_png) sample_world).1 = DeleteForbidden
  ∧ (create_share true 0 "t" 24 2 (f_id cat_png) (sample_db, empty_cache)).1
    = ShareForbidden.
Proof.
  destruct (file_route_authorization 2 cat_png sample_db sample_db_pk_files)
    as (Hdown & _ & _ & Hdel & Hshare & _).
  { decide_closed. }
  split_and!.
  - rewrite Hdown. by vm_compute.
  - exact (Hdel true (bucket sample_world)).
  - exact (Hshare true 0 "t" 24 empty_cache).
Defined.

(** X6.  The public download only delivers the blob of a row that is in
    the files table at that moment.  A descriptor still cached for a file
    whose row has been deleted (the delete routes do not touch the cache)
    gets 404 'File not found'. *)
Theorem public_download_needs_a_row (got stored : bool) (now : Z)
    (token : string) (d : db) (redis : RedisService) :
  (∀ h, (public_download got stored now token (d, redis)).1
        = PublicDelivered h →
     ∃ f, f ∈ files d ∧ f_name f = blob_name h)
  ∧ (∀ shareData,
       Redis.getPublicShare got now token redis = Some shareData →
       (∀ f, f ∈ files d → f_id f ≠ fileId shareData) →
       (public_download got stored now token (d, redis)).1
       = PublicFileMissing).
Proof.
  split.
  - intros h. unfold public_download.
    destruct (lookup_share _ _ _ _ _ _ _) as [[shareData|] redis']; [|done].
    cbn [fst]. case_decide; [done|]. rewrite select_name_count_download.
    destruct (select_name _ d) as [|name names] eqn:E; [done|].
    intros [= <-]. simpl.
    assert (name ∈ select_name (fileId shareData) d) as Hin by (rewrite E; left).
    unfold select_name in Hin.
    apply list_elem_of_fmap in Hin as (f & -> & Hf).
    apply list_elem_of_filter in Hf as [_ Hf]. by exists f.
  - intros shareData Hcached Hgone. unfold public_download, lookup_share.
    rewrite Hcached. cbn [fst].
    rewrite decide_False by by apply count_download_fails_absent.
    rewrite select_name_count_download.
    destruct (select_name _ d) as [|name names] eqn:E; [done|]. exfalso.
    assert (name ∈ select_name (fileId shareData) d) as Hin by (rewrite E; left).
    unfold select_name in Hin.
    apply list_elem_of_fmap in Hin as (f & -> & Hf).
    apply list_elem_of_filter in Hf as [Hid Hf]. by apply (Hgone f).
Qed.

(** The owner deletes cat.png while its descriptor is cached: the link
    answers 404 'File not found'. *)
Lemma public_download_needs_a_row_witness :
  (public_download true true 200 "tok-1"
     (w_db (delete_file true 1 10
              {| w_db := shared_state.1; bucket := ∅ |}).2,
      shared_state.2)).1 = PublicFileMissing.
Proof.
  apply (proj2 (public_download_needs_a_row true true 200 "tok-1" _
                  shared_state.2)
           (share_of_file cat_png)).
  - by vm_compute.
  - apply Forall_forall. decide_closed.
Defined.

(** ** The lifetime of a share link *)

Lemma files_set_share token flag file_id d :
  files (set_share token flag file_id d)
  = (λ f, if decide (f_id f = file_id) then with_share token flag f else f)
    <$> files d.
Proof. done. Qed.


(** What a lookup finds under a token after a descriptor was cached
    under it: that descriptor, nothing, or what was there before. *)
Lemma getPublicShare_cachePublicShare stored got now now' token data ttl redis :
  Redis.getPublicShare got now' token
    (snd (Redis.cachePublicShare stored now token data ttl redis)) = Some data
  ∨ Redis.getPublicShare got now' token
      (snd (Redis.cachePublicShare stored now token data ttl redis))
    = None
  ∨ Redis.getPublicShare got now' token
      (snd (Redis.cachePublicShare stored now token data ttl redis))
    = Redis.getPublicShare got now' token redis.
Proof.
  unfold Redis.getPublicShare, Redis.cachePublicShare, Redis.get, Redis.set.
  destruct redis as [[entries|] [|]]; simpl; try (right; right; done).
  destruct (stored && bool_decide (0 < ttl)); simpl; [|right; right; done].
  destruct got; [|right; by left].
  rewrite lookup_insert_eq. case_decide; [by left|right; by left].
Qed.

Lemma shared_row_found token file d g gs :
  pk_files d → file ∈ files d →
  (∀ f, f ∈ files d → public_share_token f ≠ Some token) →
  filter (λ f, public_share_token f = Some token ∧ is_public f = true)
    (files (set_share (Some token) true (f_id file) d)) = g :: gs →
  g = with_share (Some token) true file.
Proof.
  intros Hpk Hf Hfresh E.
  assert (g ∈ filter (λ f, public_share_token f = Some token
                           ∧ is_public f = true)
            (files (set_share (Some token) true (f_id file) d))) as Hg
    by (rewrite E; left).
  apply list_elem_of_filter in Hg as [[Htok _] Hg].
  rewrite files_set_share in Hg.
  apply list_elem_of_fmap in Hg as (g0 & -> & Hg0).
  case_decide as Hid.
  - by rewrite (Hpk g0 file Hg0 Hf Hid).
  - by destruct (Hfresh g0 Hg0).
Qed.



(** ** The folder router: who may create, rename and delete *)

Lemma elem_of_folder_access_rows caller (ok : folder_row → Prop)
    `{∀ f, Decision (ok f)} d f a :
  (f, a) ∈ folder_access_rows caller ok d ↔
  ∃ op, (f, op) ∈ folders_with_grant caller d
        ∧ ok f ∧ owner_or_shared (fo_user_id f) caller op
        ∧ a = access_level_case (fo_user_id f) caller (p_permission_type <$> op).
Proof.
  unfold folder_access_rows. rewrite list_elem_of_fmap. split.
  - intros ([f' op] & [= -> ->] & Hr). simpl in *.
    apply list_elem_of_filter in Hr as [[??]?]. by exists op.
  - intros (op & Hj & Hok & Hw & ->). exists (f, op). split; [done|].
    by apply list_elem_of_filter.
Qed.

(** No folder row, no level. *)
Lemma resolve_folder_absent caller id d :
  (∀ f, f ∈ folders d → fo_id f ≠ id) → resolve_folder caller id d = None.
Proof.
  intros Habs. unfold resolve_folder, get_folder.
  destruct (folder_detail_rows caller id d) as [|row rows] eqn:E; [done|].
  exfalso.
  assert (row ∈ folder_detail_rows caller id d) as Hrow by (rewrite E; left).
  unfold folder_detail_rows in Hrow.
  apply list_elem_of_fmap in Hrow as (k & _ & Hk).
  apply elem_of_remove_dups, list_elem_of_fmap in Hk as (r & _ & Hr).
  apply elem_of_folder_detail_selection in Hr as (Hj & Hid & _).
  apply elem_of_folders_with_grant in Hj as [Hf _].
  by apply (Habs _ Hf).
Qed.

Lemma folder_access_rows_absent caller id d :
  (∀ f, f ∈ folders d → fo_id f ≠ id) →
  folder_access_rows caller (λ x, fo_id x = id) d = [].
Proof.
  intros Habs.
  destruct (folder_access_rows caller _ d) as [|[f a] rest] eqn:E; [done|].
  exfalso.
  assert ((f, a) ∈ folder_access_rows caller (λ x, fo_id x = id) d) as Hin
    by (rewrite E; left).
  apply elem_of_folder_access_rows in Hin as (op & Hj & Hid & _).
  apply elem_of_folders_with_grant in Hj as [Hf _]. by apply (Habs _ Hf).
Qed.

(** The query of the rename and delete routes selects the folder with the
    level [GET /:folderId] reports, or nothing. *)
Lemma folder_access_rows_resolve caller F d :
  pk_folders d → unique_permissions d → F ∈ folders d →
  match resolve_folder caller (fo_id F) d with
  | Some a =>
    ∃ rest, folder_access_rows caller (λ x, fo_id x = fo_id F) d
            = (F, Some a) :: rest
  | None => folder_access_rows caller (λ x, fo_id x = fo_id F) d = []
  end.
Proof.
  intros Hpk Huniq HF.
  destruct (folder_access_rows caller _ d) as [|[f a] rest] eqn:E.
  - destruct (resolve_folder caller (fo_id F) d) as [a|] eqn:R; [|done].
    exfalso. rewrite (resolve_folder_cases caller F d Hpk Huniq HF) in R.
    assert (∃ op, (F, op) ∈ folders_with_grant caller d
                  ∧ owner_or_shared (fo_user_id F) caller op)
      as (op & Hj & Hw).
    { case_decide as Hown.
      - destruct (left_join_total
                    (λ f p, fo_id f = p_folder_id p
                            ∧ shared_with_user_id p = caller)
                    (folders d) (permissions d) F HF) as [op Hj].
        exists op. split; [done|by left].
      - destruct (filter _ (permissions d)) as [|g gs] eqn:G; [done|].
        assert (g ∈ filter (λ p, p_folder_id p = fo_id F
                                 ∧ shared_with_user_id p = caller)
                      (permissions d)) as Hg by (rewrite G; left).
        apply list_elem_of_filter in Hg as [[??]?].
        exists (Some g). split; [by apply elem_of_folders_with_grant|].
        right. by exists g. }
    assert ((F, access_level_case (fo_user_id F) caller
                  (p_permission_type <$> op))
            ∈ folder_access_rows caller (λ x, fo_id x = fo_id F) d) as Hin.
    { apply elem_of_folder_access_rows. by exists op. }
    rewrite E in Hin. by apply elem_of_nil in Hin.
  - assert ((f, a) ∈ folder_access_rows caller (λ x, fo_id x = fo_id F) d)
      as Hin by (rewrite E; left).
    apply elem_of_folder_access_rows in Hin as (op & Hj & Hid & Hw & ->).
    pose proof Hj as Hj'.
    apply elem_of_folders_with_grant in Hj' as [Hf Hop].
    assert (f = F) as -> by by apply Hpk.
    unfold access_level_case.
    destruct (decide (fo_user_id F = caller)) as [Hown|Hown].
    + rewrite (resolve_folder_owner caller F d Hpk HF Hown). by eexists.
    + destruct Hw as [?|(q & -> & Hq)]; [done|].
      destruct Hop as (Hq1 & Hq2 & Hq3).
      rewrite (resolve_folder_granted caller F d Hpk Huniq HF q Hown Hq1
                 (eq_sym Hq2) Hq3).
      by eexists.
Qed.

Lemma upload_folder_check_cases caller F d :
  pk_folders d → F ∈ folders d →
  upload_folder_check caller (Some (fo_id F)) d
  = if decide (fo_user_id F = caller) then None
    else match head (filter (λ p, p_folder_id p = fo_id F
                                  ∧ shared_with_user_id p = caller)
                       (permissions d)) with
         | None => Some UploadForbidden
         | Some p =>
           if decide (p_permission_type p = create ∨ p_permission_type p = edit)
           then None else Some UploadForbidden
         end.
Proof.
  intros Hpk HF. unfold upload_folder_check.
  destruct (filter (λ f, fo_id f = fo_id F) (folders d)) as [|f fs] eqn:E.
  { exfalso. by apply (filter_nil_not_elem_of _ _ F E eq_refl). }
  assert (f ∈ filter (λ f, fo_id f = fo_id F) (folders d)) as Hf
    by (rewrite E; left).
  apply list_elem_of_filter in Hf as [Hid Hf].
  assert (f = F) as -> by by apply Hpk.
  destruct (decide (fo_user_id F = caller)) as [Hown|Hown].
  - by rewrite decide_False by (by intros ?).
  - rewrite decide_True by done. by destruct (filter _ (permissions d)).
Qed.

Lemma create_folder_parent_check_cases caller F d :
  pk_folders d → F ∈ folders d →
  create_folder_parent_check caller (Some (fo_id F)) d
  = if decide (fo_user_id F = caller) then None
    else match head (filter (λ p, p_folder_id p = fo_id F
                                  ∧ shared_with_user_id p = caller)
                       (permissions d)) with
         | None => Some CreateFolderForbidden
         | Some p =>
           if decide (p_permission_type p = create ∨ p_permission_type p = edit)
           then None else Some CreateFolderForbidden
         end.
Proof.
  intros Hpk HF. unfold create_folder_parent_check.
  destruct (filter (λ f, fo_id f = fo_id F) (folders d)) as [|f fs] eqn:E.
  { exfalso. by apply (filter_nil_not_elem_of _ _ F E eq_refl). }
  assert (f ∈ filter (λ f, fo_id f = fo_id F) (folders d)) as Hf
    by (rewrite E; left).
  apply list_elem_of_filter in Hf as [Hid Hf].
  assert (f = F) as -> by by apply Hpk.
  destruct (decide (fo_user_id F = caller)) as [Hown|Hown].
  - by rewrite decide_False by (by intros ?).
  - rewrite decide_True by done. by destruct (filter _ (permissions d)).
Qed.

(** Closes an equivalence between the answer of a gate and a disjunction
    of levels once both sides are evaluated. *)
Ltac settle_gate :=
  split;
  [ intros ?;
    first [ done | by left | by (right; left) | by (right; right)
          | by (exfalso; unfold permissionLevels in *; lia)
          | by (exfalso; match goal with H : _ ∨ _ |- _ => destruct H end) ]
  | intros [?|[?|?]];
    first [ done
          | by (exfalso; unfold permissionLevels in *; lia)
          | by (exfalso;
                match goal with
                | H : ¬ _ |- _ => apply H; first [by left|by right]
                end) ] ].

(** X8.  The three places that decide whether a caller may add to a folder
    agree: the middleware [checkFolderPermission('create')], the folder
    check of the upload routes and the parent check of [POST /] of the
    folder router all pass exactly when the caller's level on the folder is
    [owner], [create] or [edit].  The middleware is monotone: whoever
    passes it for a level passes it for every lower one. *)
Theorem folder_write_gates_agree (caller : Z) (F : folder_row) (d : db) :
  pk_folders d → unique_permissions d → F ∈ folders d →
  let allowed :=
    resolve_folder caller (fo_id F) d = Some owner
    ∨ resolve_folder caller (fo_id F) d = Some (granted create)
    ∨ resolve_folder caller (fo_id F) d = Some (granted edit) in
  (checkFolderPermission create caller (fo_id F) d = Next ↔ allowed)
  ∧ (upload_folder_check caller (Some (fo_id F)) d = None ↔ allowed)
  ∧ (create_folder_parent_check caller (Some (fo_id F)) d = None ↔ allowed)
  ∧ (∀ r r', permissionLevels r ≤ permissionLevels r' →
       checkFolderPermission r' caller (fo_id F) d = Next →
       checkFolderPermission r caller (fo_id F) d = Next).
Proof.
  intros Hpk Huniq HF. cbv zeta.
  rewrite (resolve_folder_cases caller F d Hpk Huniq HF),
    (upload_folder_check_cases caller F d Hpk HF),
    (create_folder_parent_check_cases caller F d Hpk HF).
  split_and!.
  - rewrite (checkFolderPermission_cases caller F d Hpk HF).
    case_decide; [settle_gate|].
    destruct (head _) as [p|]; simpl; [|settle_gate].
    destruct (p_permission_type p); simpl; try case_decide; settle_gate.
  - case_decide; [settle_gate|].
    destruct (head _) as [p|]; simpl; [|settle_gate].
    destruct (p_permission_type p); simpl; try case_decide; settle_gate.
  - case_decide; [settle_gate|].
    destruct (head _) as [p|]; simpl; [|settle_gate].
    destruct (p_permission_type p); simpl; try case_decide; settle_gate.
  - intros r r' Hle.
    rewrite !(checkFolderPermission_cases caller F d Hpk HF).
    case_decide; [done|].
    destruct (head _) as [p|]; simpl; [|done].
    repeat case_decide; try done. lia.
Qed.

(** Bob holds [view] on photos: none of the three gates lets him add to
    it; alice, the owner, passes all of them. *)
Lemma folder_write_gates_agree_witness :
  checkFolderPermission create 2 (fo_id photos) sample_db ≠ Next
  ∧ upload_folder_check 2 (Some (fo_id photos)) sample_db ≠ None
  ∧ create_folder_parent_check 2 (Some (fo_id photos)) sample_db ≠ None
  ∧ upload_folder_check 1 (Some (fo_id photos)) sample_db = None.
Proof.
  pose proof (folder_write_gates_agree 2 photos sample_db sample_db_pk_folders
                sample_db_unique_permissions ltac:(decide_closed))
    as (H1 & H2 & H3 & _).
  pose proof (folder_write_gates_agree 1 photos sample_db sample_db_pk_folders
                sample_db_unique_permissions ltac:(decide_closed))
    as (_ & H4 & _).
  assert (resolve_folder 2 (fo_id photos) sample_db = Some (granted view)) as R
    by by vm_compute.
  split_and!.
  - intros E. apply H1 in E. rewrite R in E. by destruct E as [?|[?|?]].
  - intros E. apply H2 in E. rewrite R in E. by destruct E as [?|[?|?]].
  - intros E. apply H3 in E. rewrite R in E. by destruct E as [?|[?|?]].
  - apply H4. left. by vm_compute.
Defined.

Lemma pk_folders_snoc d row :
  pk_folders d → (∀ f, f ∈ folders d → fo_id f ≠ fo_id row) →
  pk_folders (with_folders (folders d ++ [row]) d).
Proof.
  intros Hpk Hfresh f g. simpl. rewrite !elem_of_app, !list_elem_of_singleton.
  intros [Hf| ->] [Hg| ->] Hid; [by apply Hpk| | |done].
  - by destruct (Hfresh f Hf).
  - by destruct (Hfresh g Hg).
Qed.

Lemma create_folder_parent_check_refusal caller parent d r :
  create_folder_parent_check caller parent d = Some r →
  r = ParentFolderNotFound ∨ r = CreateFolderForbidden.
Proof.
  unfold create_folder_parent_check. intros Hr.
  repeat case_match; naive_solver.
Qed.

(** X9.  A folder created by [POST /] belongs to its creator alone, also
    when it is created inside a folder shared to the creator: with a fresh
    id, the creator resolves to [owner] on it, every other user (the owner
    of the parent folder included) resolves to [none], and the level of
    every user on every folder that existed before is unchanged. *)
Theorem created_folder_belongs_to_creator (new_id caller : Z) (name : string)
    (parent : option Z) (d d' : db) (row : folder_row) :
  pk_folders d → unique_permissions d →
  (∀ f, f ∈ folders d → fo_id f ≠ new_id) →
  (∀ p, p ∈ permissions d → p_folder_id p ≠ new_id) →
  create_folder new_id caller name parent d = (FolderCreated row, d') →
  row = {| fo_id := new_id; fo_user_id := caller; fo_name := name;
           parent_folder_id := parent |}
  ∧ folders d' = folders d ++ [row]
  ∧ pk_folders d'
  ∧ resolve_folder caller new_id d' = Some owner
  ∧ (∀ u, u ≠ caller → resolve_folder u new_id d' = None)
  ∧ (∀ u G, G ∈ folders d →
       resolve_folder u (fo_id G) d' = resolve_folder u (fo_id G) d).
Proof.
  intros Hpk Huniq Hfresh Hperm. unfold create_folder.
  case_decide; [done|].
  destruct (create_folder_parent_check caller parent d) as [r|] eqn:Hcheck.
  { intros [= -> _].
    by destruct (create_folder_parent_check_refusal _ _ _ _ Hcheck). }
  destruct (same_name_folders caller name parent d); [|done].
  intros [= <- <-].
  set (row := {| fo_id := new_id; fo_user_id := caller; fo_name := name;
                 parent_folder_id := parent |}).
  set (d' := with_folders (folders d ++ [row]) d).
  assert (pk_folders d') as Hpk' by by apply pk_folders_snoc.
  assert (unique_permissions d') as Huniq' by done.
  assert (row ∈ folders d') as Hrow.
  { simpl. apply elem_of_app. right. by apply list_elem_of_singleton. }
  split_and!; [done..| | |].
  - exact (resolve_folder_owner caller row d' Hpk' Hrow eq_refl).
  - intros u Hu.
    apply (resolve_folder_none u row d' Hpk' Hrow); [by intros ?|].
    intros g Hg [Hid _]. by apply (Hperm g Hg).
  - intros u G HG.
    assert (G ∈ folders d') as HG'.
    { simpl. apply elem_of_app. by left. }
    by rewrite (resolve_folder_cases u G d' Hpk' Huniq' HG'),
      (resolve_folder_cases u G d Hpk Huniq HG).
Qed.

(** Bob, with a [create] grant on photos, makes a folder in it: alice,
    who owns photos, has no access to the new folder. *)
Lemma created_folder_belongs_to_creator_witness :
  resolve_folder 1 77
    (snd (create_folder 77 2 "scans" (Some 1)
            (with_permissions
               [{| p_folder_id := 1; shared_with_user_id := 2;
                   p_permission_type := create; granted_by_user_id := 1 |}]
               sample_db))) = None.
Proof.
  set (d := with_permissions
              [{| p_folder_id := 1; shared_with_user_id := 2;
                  p_permission_type := create; granted_by_user_id := 1 |}]
              sample_db).
  assert (pk_folders d) as Hpk by exact sample_db_pk_folders.
  assert (unique_permissions d) as Huniq
    by (apply unique_permissions_NoDup; decide_closed).
  refine (proj1 (proj2 (proj2 (proj2 (proj2
            (created_folder_belongs_to_creator 77 2 "scans" (Some 1) d _ _
               Hpk Huniq _ _ eq_refl))))) 1 _).
  - apply Forall_forall. decide_closed.
  - apply Forall_forall. decide_closed.
  - done.
Defined.




(** [GET /:folderId] by the id alone: the level is read off the folder row
    with that id and the caller's grant on it. *)
Lemma resolve_folder_by_id u id d :
  pk_folders d → unique_permissions d →
  resolve_folder u id d
  = match filter (λ f, fo_id f = id) (folders d) with
    | [] => None
    | F :: _ =>
      if decide (fo_user_id F = u) then Some owner
      else granted ∘ p_permission_type
           <$> head (filter (λ p, p_folder_id p = id
                                  ∧ shared_with_user_id p = u)
                       (permissions d))
    end.
Proof.
  intros Hpk Huniq.
  destruct (filter (λ f, fo_id f = id) (folders d)) as [|F Fs] eqn:E.
  - apply resolve_folder_absent. intros f Hf Hid.
    exact (filter_nil_not_elem_of _ _ f E Hid Hf).
  - assert (F ∈ filter (λ f, fo_id f = id) (folders d)) as HF
      by (rewrite E; left).
    apply list_elem_of_filter in HF as [<- HF].
    apply (resolve_folder_cases u F d Hpk Huniq HF).
Qed.

Lemma filter_id_head F d :
  pk_folders d → F ∈ folders d →
  ∃ rest, filter (λ f, fo_id f = fo_id F) (folders d) = F :: rest.
Proof.
  intros Hpk HF.
  destruct (filter (λ f, fo_id f = fo_id F) (folders d)) as [|f fs] eqn:E.
  { exfalso. by apply (filter_nil_not_elem_of _ _ F E eq_refl). }
  assert (f ∈ filter (λ f, fo_id f = fo_id F) (folders d)) as Hf
    by (rewrite E; left).
  apply list_elem_of_filter in Hf as [Hid Hf].
  assert (f = F) as -> by by apply Hpk.
  by eexists.
Qed.




Lemma length_filter_pos {A : Type} (P : A → Prop) `{∀ x, Decision (P x)}
    (l : list A) :
  (0 < length (filter P l))%nat ↔ ∃ x, x ∈ l ∧ P x.
Proof.
  split.
  - destruct (filter P l) as [|x xs] eqn:E; [simpl; lia|]. intros _.
    assert (x ∈ filter P l) as Hx by (rewrite E; left).
    apply list_elem_of_filter in Hx as [??]. by exists x.
  - intros (x & Hx & HP).
    assert (x ∈ filter P l) as Hin by by apply list_elem_of_filter.
    destruct (filter P l); [by apply elem_of_nil in Hin|simpl; lia].
Qed.

Lemma filter_filter_implied {A : Type} (P Q : A → Prop)
    `{∀ x, Decision (P x)} `{∀ x, Decision (Q x)} (l : list A) :
  (∀ x, P x → Q x) → filter P (filter Q l) = filter P l.
Proof.
  intros HPQ. induction l as [|a l IH]; [done|].
  rewrite !(filter_cons _ a l).
  destruct (decide (Q a)) as [HQ|HQ].
  - rewrite filter_cons, IH. done.
  - rewrite IH. destruct (decide (P a)) as [HP|HP]; [|done].
    by destruct (HQ (HPQ a HP)).
Qed.

Lemma delete_folder_rows_keys id d :
  pk_folders d → unique_permissions d →
  pk_folders (delete_folder_rows id d)
  ∧ unique_permissions (delete_folder_rows id d).
Proof.
  intros Hpk Huniq. split.
  - intros f g. cbn [folders delete_folder_rows with_folders].
    intros [_ Hf]%list_elem_of_filter [_ Hg]%list_elem_of_filter.
    by apply Hpk.
  - intros p q.
    cbn [permissions delete_folder_rows with_folders with_permissions].
    intros [_ Hp]%list_elem_of_filter [_ Hq]%list_elem_of_filter.
    by apply Huniq.
Qed.

(** X12.  Deleting a folder: [DELETE /:folderId] deletes exactly when the
    caller owns the folder and the folder holds no child folder and no
    file; in every other case the store is left as it was.  A deletion
    removes the folder row and every grant on the folder and nothing
    else: afterwards every user resolves to [none] on the folder, and the
    levels on all other folders are unchanged. *)
Theorem delete_folder_effect (caller : Z) (F : folder_row) (d : db) :
  pk_folders d → unique_permissions d → F ∈ folders d →
  let r := delete_folder caller (fo_id F) d in
  (fst r = FolderDeleted ↔
     fo_user_id F = caller
     ∧ (∀ G, G ∈ folders d → parent_folder_id G ≠ Some (fo_id F))
     ∧ (∀ f, f ∈ files d → folder_id f ≠ Some (fo_id F)))
  ∧ (fst r ≠ FolderDeleted → snd r = d)
  ∧ (fst r = FolderDeleted →
     files (snd r) = files d ∧ users (snd r) = users d
     ∧ (∀ G, G ∈ folders (snd r) ↔ G ∈ folders d ∧ fo_id G ≠ fo_id F)
     ∧ (∀ p, p ∈ permissions (snd r) ↔
             p ∈ permissions d ∧ p_folder_id p ≠ fo_id F)
     ∧ (∀ u, resolve_folder u (fo_id F) (snd r) = None)
     ∧ (∀ u G, G ∈ folders d → fo_id G ≠ fo_id F →
          resolve_folder u (fo_id G) (snd r) = resolve_folder u (fo_id G) d)).
Proof.
  intros Hpk Huniq HF. cbv zeta.
  pose proof (folder_access_rows_resolve caller F d Hpk Huniq HF) as Hrows.
  pose proof (resolve_folder_cases caller F d Hpk Huniq HF) as R.
  unfold delete_folder.
  destruct (resolve_folder caller (fo_id F) d) as [a|]; cycle 1.
  { rewrite Hrows. cbn [fst snd]. split_and!; [|done..].
    split; [done|]. intros (Hown & _). by rewrite decide_True in R. }
  destruct Hrows as [rest ->].
  destruct (decide (fo_user_id F = caller)) as [Hown|Hown]; cycle 1.
  { rewrite decide_True by (intros [= ->]; by destruct (head _)).
    cbn [fst snd]. split_and!; [|done..].
    split; [done|]. by intros (? & _). }
  injection R as <-. rewrite decide_False by (by intros ?).
  case_decide as Hne; cbn [fst snd].
  { split_and!; [|done..]. split; [done|]. intros (_ & Hsub & Hfiles).
    exfalso. destruct Hne as [Hne|Hne]; apply length_filter_pos in Hne.
    - destruct Hne as (G & HG & HGp). by apply (Hsub G).
    - destruct Hne as (f & Hf & Hfp). by apply (Hfiles f). }
  destruct (delete_folder_rows_keys (fo_id F) d Hpk Huniq) as [Hpk' Huniq'].
  assert (∀ G, G ∈ folders (delete_folder_rows (fo_id F) d) ↔
               G ∈ folders d ∧ fo_id G ≠ fo_id F) as Hfolders.
  { intros G. cbn [folders delete_folder_rows with_folders].
    rewrite list_elem_of_filter. tauto. }
  split_and!; [|done|intros _; split_and!; [done|done|done| | |]].
  - split; [intros _|done]. split_and!; [done| |].
    + intros G HG HGp. apply Hne. left. apply length_filter_pos. by exists G.
    + intros f Hf Hfp. apply Hne. right. apply length_filter_pos. by exists f.
  - intros p.
    cbn [permissions delete_folder_rows with_folders with_permissions].
    rewrite list_elem_of_filter. tauto.
  - intros u. apply resolve_folder_absent. intros f Hf.
    by apply Hfolders in Hf as [_ ?].
  - intros u G HG Hid.
    assert (G ∈ folders (delete_folder_rows (fo_id F) d)) as HG'
      by by apply Hfolders.
    rewrite (resolve_folder_cases u G _ Hpk' Huniq' HG'),
      (resolve_folder_cases u G d Hpk Huniq HG).
    cbn [permissions delete_folder_rows with_folders with_permissions].
    rewrite filter_filter_implied; [done|].
    intros p [Hp _]. by rewrite Hp.
Qed.

(** Alice owns photos, which holds files and a child folder: it is not
    deleted, and the store stays as it was. *)
Lemma delete_folder_effect_witness :
  fst (delete_folder 1 (fo_id photos) sample_db) ≠ FolderDeleted
  ∧ snd (delete_folder 1 (fo_id photos) sample_db) = sample_db.
Proof.
  pose proof (delete_folder_effect 1 photos sample_db sample_db_pk_folders
                sample_db_unique_permissions ltac:(decide_closed))
    as (Hiff & Hkeep & _).
  assert (fst (delete_folder 1 (fo_id photos) sample_db) ≠ FolderDeleted)
    as Hno.
  { intros (_ & _ & Hfiles)%Hiff.
    apply (Hfiles cat_png); [decide_closed|done]. }
  split; [done|by apply Hkeep].
Defined.

(** ** The share router: granting and revoking *)

Lemma filter_fmap_untouched {A : Type} (P : A → Prop) `{∀ x, Decision (P x)}
    (h : A → A) (l : list A) :
  (∀ x, P (h x) ↔ P x) → (∀ x, P x → h x = x) →
  filter P (h <$> l) = filter P l.
Proof.
  intros HP Hh. rewrite filter_fmap_stable by done.
  induction l as [|a l IH]; [done|].
  rewrite filter_cons. case_decide; [|done].
  by rewrite fmap_cons, IH, Hh.
Qed.

(** X13.  Sharing a folder: when the owner of a folder shares it with
    another user at a valid permission type, the grantee's level on the
    folder becomes exactly that type (an earlier grant is replaced, not
    added to), UNIQUE(folder_id, shared_with_user_id) is kept, and no other
    level of any user on any folder changes.  Nobody but the owner changes
    grants, and the owner cannot be granted a level on the own folder. *)
Theorem share_folder_grants (user_by_email : string → option Z)
    (caller : Z) (F : folder_row) (email permission : string) (d : db) :
  pk_folders d → unique_permissions d → F ∈ folders d →
  (snd (share_folder user_by_email caller (fo_id F) email permission d) ≠ d →
   fo_user_id F = caller
   ∧ ∃ g, user_by_email (toLowerCase email) = Some g ∧ g ≠ caller)
  ∧ (∀ t g,
       fo_user_id F = caller → email ≠ "" →
       parse_permission_type permission = Some t →
       user_by_email (toLowerCase email) = Some g → g ≠ caller →
       let d' :=
         snd (share_folder user_by_email caller (fo_id F) email permission d) in
       folders d' = folders d
       ∧ unique_permissions d'
       ∧ resolve_folder g (fo_id F) d' = Some (granted t)
       ∧ (∀ u id, u ≠ g ∨ id ≠ fo_id F →
            resolve_folder u id d' = resolve_folder u id d)).
Proof.
  intros Hpk Huniq HF.
  destruct (filter_id_head F d Hpk HF) as [others Hhead].
  split.
  - unfold share_folder. rewrite Hhead.
    repeat case_match; try done;
      (intros _; split; [by apply dec_stable|];
       eexists; split; [reflexivity|done]).
  - intros t g Hown Hemail Ht Hg Hgc. cbv zeta.
    unfold share_folder. rewrite Hhead, Ht, Hg.
    rewrite decide_False; cycle 1.
    { intros [?|Hp]; [done|]. subst permission. by vm_compute in Ht. }
    rewrite (decide_False (P := fo_user_id F ≠ caller)) by (by intros ?).
    rewrite (decide_False (P := g = caller)) by done.
    destruct (filter _ (permissions d)) as [|p ps] eqn:E; cbn [snd].
    + (* a new grant row *)
      set (row := {| p_folder_id := fo_id F; shared_with_user_id := g;
                     p_permission_type := t; granted_by_user_id := caller |}).
      set (d' := with_permissions (permissions d ++ [row]) d).
      assert (unique_permissions d') as Huniq'.
      { intros a b. cbn [permissions d' with_permissions].
        rewrite !elem_of_app, !list_elem_of_singleton.
        intros [Ha| ->] [Hb| ->] Hk1 Hk2; [by apply Huniq| | |done].
        - exfalso. exact (filter_nil_not_elem_of _ _ a E (conj Hk1 Hk2) Ha).
        - exfalso.
          exact (filter_nil_not_elem_of _ _ b E
                   (conj (eq_sym Hk1) (eq_sym Hk2)) Hb). }
      assert (pk_folders d') as Hpk' by done.
      split_and!; [done|done| |].
      * rewrite (resolve_folder_cases g F d' Hpk' Huniq' HF).
        rewrite decide_False by congruence.
        cbn [permissions d' with_permissions].
        rewrite filter_app, E, filter_cons, decide_True by done. done.
      * intros u id Hother.
        rewrite (resolve_folder_by_id u id d' Hpk' Huniq'),
          (resolve_folder_by_id u id d Hpk Huniq).
        cbn [folders permissions d' with_permissions].
        rewrite filter_app, (filter_cons _ row), decide_False, filter_nil,
          app_nil_r; [done|].
        intros [Hid Hu]. cbn in Hid, Hu. destruct Hother; congruence.
    + (* the grant row is rewritten *)
      set (h := λ q, if decide (p_folder_id q = fo_id F
                                ∧ shared_with_user_id q = g)
                     then regrant t caller q else q).
      set (d' := with_permissions (h <$> permissions d) d).
      assert (∀ q, p_folder_id (h q) = p_folder_id q
                   ∧ shared_with_user_id (h q) = shared_with_user_id q)
        as Hkeys.
      { intros q. unfold h. by case_decide. }
      assert (unique_permissions d') as Huniq'.
      { intros a b. cbn [permissions d' with_permissions].
        intros (a0 & -> & Ha)%list_elem_of_fmap
               (b0 & -> & Hb)%list_elem_of_fmap.
        destruct (Hkeys a0) as [-> ->], (Hkeys b0) as [-> ->].
        intros Hk1 Hk2. by rewrite (Huniq a0 b0 Ha Hb Hk1 Hk2). }
      assert (pk_folders d') as Hpk' by done.
      split_and!; [done|done| |].
      * rewrite (resolve_folder_cases g F d' Hpk' Huniq' HF).
        rewrite decide_False by congruence.
        cbn [permissions d' with_permissions].
        rewrite filter_fmap_stable; cycle 1.
        { intros q. by destruct (Hkeys q) as [-> ->]. }
        rewrite E, fmap_cons. cbn [head fmap option_fmap option_map].
        unfold h. rewrite decide_True; [done|].
        assert (p ∈ filter (λ q, p_folder_id q = fo_id F
                                 ∧ shared_with_user_id q = g)
                      (permissions d)) as Hp by (rewrite E; left).
        by apply list_elem_of_filter in Hp as [? _].
      * intros u id Hother.
        rewrite (resolve_folder_by_id u id d' Hpk' Huniq'),
          (resolve_folder_by_id u id d Hpk Huniq).
        cbn [folders permissions d' with_permissions].
        rewrite (filter_fmap_untouched _ h); [done| |].
        -- intros q. by destruct (Hkeys q) as [-> ->].
        -- intros q [Hid Hu]. unfold h. rewrite decide_False; [done|].
           intros [Hid' Hu']. destruct Hother; congruence.
Qed.

(** Alice raises bob's grant on photos from [view] to [edit]: bob's level
    on photos becomes [edit]. *)
Lemma share_folder_grants_witness :
  resolve_folder 2 (fo_id photos)
    (snd (share_folder (λ e, if decide (e = "bob@example.com")
                             then Some 2 else None)
            1 (fo_id photos) "Bob@Example.com" "edit" sample_db))
  = Some (granted edit).
Proof.
  refine (proj1 (proj2 (proj2
           (proj2 (share_folder_grants
                     (λ e, if decide (e = "bob@example.com")
                           then Some 2 else None)
                     1 photos "Bob@Example.com" "edit" sample_db
                     sample_db_pk_folders sample_db_unique_permissions _)
              edit 2 eq_refl _ eq_refl eq_refl _)))).
  - decide_closed.
  - done.
  - done.
Defined.

(** X14.  Revoking a grant: [DELETE /folder/:folderId/user/:userId] of the
    share router revokes exactly when the caller owns the folder and the
    user holds a grant on it; in every other case the store is left as it
    was.  After a revocation the user (when not the owner) resolves to
    [none] on the folder and on every file in it that the user does not
    own, and no other level of any user on any folder changes. *)
Theorem revoke_access_effect (caller userId : Z) (F : folder_row) (d : db) :
  pk_folders d → pk_files d → unique_permissions d → F ∈ folders d →
  let r := revoke_access caller (fo_id F) userId d in
  (fst r = AccessRevoked ↔
     fo_user_id F = caller
     ∧ ∃ p, p ∈ permissions d ∧ p_folder_id p = fo_id F
            ∧ shared_with_user_id p = userId)
  ∧ (fst r ≠ AccessRevoked → snd r = d)
  ∧ (fst r = AccessRevoked →
     folders (snd r) = folders d ∧ files (snd r) = files d
     ∧ unique_permissions (snd r)
     ∧ (userId ≠ caller → resolve_folder userId (fo_id F) (snd r) = None)
     ∧ (∀ f, f ∈ files d → folder_id f = Some (fo_id F) →
          f_user_id f ≠ userId → resolve_file userId (f_id f) (snd r) = None)
     ∧ (∀ u id, u ≠ userId ∨ id ≠ fo_id F →
          resolve_folder u id (snd r) = resolve_folder u id d)).
Proof.
  intros Hpk Hpkf Huniq HF. cbv zeta.
  destruct (filter_id_head F d Hpk HF) as [others Hhead].
  unfold revoke_access. rewrite Hhead.
  destruct (decide (fo_user_id F = caller)) as [Hown|Hown]; cycle 1.
  { rewrite decide_True by done. cbn [fst snd].
    split_and!; [|done..]. split; [done|]. by intros [? _]. }
  rewrite decide_False by (by intros ?).
  case_decide as Hlen; cbn [fst snd].
  { split_and!; [|done..]. split; [done|].
    intros (_ & p & Hp & Hid & Hu). exfalso.
    assert (0 < length (filter (λ p, p_folder_id p = fo_id F
                                     ∧ shared_with_user_id p = userId)
                          (permissions d)))%nat; [|lia].
    apply length_filter_pos. by exists p. }
  set (d' := with_permissions
               (filter (λ p, ¬ (p_folder_id p = fo_id F
                                ∧ shared_with_user_id p = userId))
                  (permissions d)) d).
  assert (unique_permissions d') as Huniq'.
  { intros p q. cbn [permissions d' with_permissions].
    intros [_ Hp]%list_elem_of_filter [_ Hq]%list_elem_of_filter.
    by apply Huniq. }
  assert (pk_folders d') as Hpk' by done.
  assert (pk_files d') as Hpkf' by done.
  split_and!; [|done|intros _; split_and!; [done|done|done| | |]].
  - split; [intros _|done]. split; [done|].
    assert (0 < length (filter (λ p, p_folder_id p = fo_id F
                                     ∧ shared_with_user_id p = userId)
                          (permissions d)))%nat as Hpos by lia.
    apply length_filter_pos in Hpos as (p & Hp & Hid & Hu). by exists p.
  - intros Hu. apply (resolve_folder_none userId F d' Hpk' HF).
    + by rewrite Hown.
    + intros g. cbn [permissions d' with_permissions].
      intros [Hg _]%list_elem_of_filter. done.
  - intros f Hf Hfolder Hfown.
    apply (resolve_file_none userId f d' Hpkf' Hf Hfown).
    intros g. cbn [permissions d' with_permissions].
    intros [Hg _]%list_elem_of_filter [Hid Hu]. apply Hg.
    split; [congruence|done].
  - intros u id Hother.
    rewrite (resolve_folder_by_id u id d' Hpk' Huniq'),
      (resolve_folder_by_id u id d Hpk Huniq).
    cbn [folders permissions d' with_permissions].
    rewrite filter_filter_implied; [done|].
    intros p [Hid Hu] [Hid' Hu']. destruct Hother; congruence.
Qed.

(** Alice revokes bob's grant on photos: bob keeps his own notes.txt in
    photos but has no level any more on photos or on alice's cat.png. *)
Lemma revoke_access_effect_witness :
  resolve_folder 2 (fo_id photos)
    (snd (revoke_access 1 (fo_id photos) 2 sample_db)) = None
  ∧ resolve_file 2 (f_id cat_png)
      (snd (revoke_access 1 (fo_id photos) 2 sample_db)) = None.
Proof.
  pose proof (revoke_access_effect 1 2 photos sample_db sample_db_pk_folders
                sample_db_pk_files sample_db_unique_permissions
                ltac:(decide_closed)) as (_ & _ & Hafter).
  destruct (Hafter ltac:(by vm_compute)) as (_ & _ & _ & Hfolder & Hfile & _).
  split.
  - by apply Hfolder.
  - apply Hfile; [decide_closed|done|done].
Defined.

(** ** The ledger under uploads and deletes *)




Lemma w_db_try_delete_blob returned fileId w :
  w_db (try_delete_blob returned fileId w) = w_db w.
Proof. by destruct returned. Qed.





(** ** The quota under uploads *)

Lemma users_add_storage_used delta V d :
  users (add_storage_used delta V d)
  = (λ u, if decide (u_id u = V)
          then set_storage_used (storage_used u + delta) u else u)
    <$> users d.
Proof. done. Qed.

Lemma users_add_storage_used_zero V d :
  users (add_storage_used 0 V d) = users d.
Proof.
  rewrite users_add_storage_used. rewrite <- (list_fmap_id (users d)) at 2.
  apply list_fmap_ext. intros _ u _. case_decide; [|done].
  destruct u as [i q s]. unfold set_storage_used. simpl. f_equal. lia.
Qed.

Lemma users_add_storage_used_twice a b V d d1 :
  users d1 = users (add_storage_used a V d) →
  users (add_storage_used b V d1) = users (add_storage_used (a + b) V d).
Proof.
  intros Hd1. rewrite users_add_storage_used, Hd1, !users_add_storage_used.
  rewrite <- list_fmap_compose. apply list_fmap_ext. intros _ u _. simpl.
  destruct (decide (u_id u = V)) as [Hu|Hu]; simpl.
  - rewrite decide_True by done. unfold set_storage_used. simpl. f_equal. lia.
  - by rewrite decide_False.
Qed.

(** The net effect of the upload loop on the users table is one charge of
    the caller, between nothing and the declared total of the batch. *)
Lemma upload_loop_charge caller folder (files : list incoming_file)
    (acc : list file_row * list string * world) :
  Forall (λ f, 0 ≤ in_size f) files →
  ∃ k, 0 ≤ k ≤ foldr Z.add 0 (in_size <$> files)
       ∧ users (w_db (foldl (upload_one caller folder) acc files).2)
         = users (add_storage_used k caller (w_db acc.2)).
Proof.
  revert acc. induction files as [|x files IH]; intros acc Hpos.
  - exists 0. split; [done|]. by rewrite users_add_storage_used_zero.
  - apply Forall_cons in Hpos as [Hx Hpos]. cbn [foldl].
    destruct (IH (upload_one caller folder acc x) Hpos) as (k & Hk & ->).
    rewrite fmap_cons. cbn [foldr].
    destruct acc as [[successful failed] w]. unfold upload_one.
    destruct (uploadResult x) as [[fileId url]|]; cbn [snd].
    + exists (in_size x + k). split; [lia|].
      by apply users_add_storage_used_twice.
    + exists k. split; [lia|done].
Qed.

(** X16.  An upload served on its own does not take a user over the
    quota: when every user's [storage_used] is between 0 and the user's
    [storage_quota], and the quotas are below 2^53 (and user ids are
    distinct), that still holds after a single upload and after a batch
    upload of files of non-negative sizes, whichever files of the batch
    the object store accepts.  The quota check and the UPDATE are separate
    statements, though, and nothing holds the user's row in between: of
    two uploads of 100,000 bytes that user 1, with 100,000 bytes left,
    sends at the same time, the second can pass its check before the
    first has written, and both are stored: 1,100,000 bytes are then used
    of a quota of 1,000,000. *)
Theorem uploads_respect_quota (caller : Z) (folder : option Z) (w : world) :
  (pk_users (w_db w) →
   (∀ u, u ∈ users (w_db w) →
      0 ≤ storage_used u ≤ storage_quota u ∧ storage_quota u < 2 ^ 53) →
   (∀ file u, u ∈ users (w_db (snd (upload_single caller folder file w))) →
      storage_used u ≤ storage_quota u)
   ∧ (∀ files u, Forall (λ f, 0 ≤ in_size f) files →
        u ∈ users (w_db (snd (upload_multiple caller folder files w))) →
        storage_used u ≤ storage_quota u))
  ∧ (let first := sample_upload 30 "x.bin" "application/zip" 100000 true in
     let second := sample_upload 31 "y.bin" "application/zip" 100000 true in
     let both :=
       upload_single_interleaved (λ w, snd (upload_single 1 None first w))
         1 None second sample_world in
     (∃ row, fst (upload_single 1 None first sample_world) = FileUploaded row)
     ∧ (∃ row, fst both = FileUploaded row)
     ∧ select_user 1 (w_db (snd both))
       = [{| u_id := 1; storage_quota := 1000000;
             storage_used := 1100000 |}]).
Proof.
  split; cycle 1.
  { cbv zeta. split_and!; [by eexists|by eexists|by vm_compute]. }
  intros Hpk Hwithin.
  assert (∀ k user rest u,
            select_user caller (w_db w) = user :: rest →
            storage_used user + k ≤ storage_quota user →
            u ∈ users (add_storage_used k caller (w_db w)) →
            storage_used u ≤ storage_quota u) as Hcharged.
  { intros k user rest u Hsel Hk. rewrite users_add_storage_used.
    intros (u0 & -> & Hu0)%list_elem_of_fmap.
    case_decide as Hid; [|by apply Hwithin].
    assert (user ∈ select_user caller (w_db w)) as Huser
      by (rewrite Hsel; left).
    apply list_elem_of_filter in Huser as [Huid Huser].
    assert (u0 = user) as -> by (apply Hpk; [done..|congruence]).
    done. }
  assert (∀ user rest k,
            select_user caller (w_db w) = user :: rest → 0 ≤ k →
            quota_check k user = None →
            storage_used user + k ≤ storage_quota user) as Hchecked.
  { intros user rest k Hsel Hk. unfold quota_check, parseInt.
    assert (user ∈ select_user caller (w_db w)) as Huser
      by (rewrite Hsel; left).
    apply list_elem_of_filter in Huser as [_ Huser].
    destruct (Hwithin user Huser) as [Hused Hquota].
    rewrite (to_double_exact (storage_used user)) by lia.
    rewrite (to_double_exact (storage_quota user)) by lia.
    case_decide as Hq; [done|]. intros _.
    pose proof (quota_comparison (storage_used user) k (storage_quota user)
                  ltac:(lia) Hk Hquota). lia. }
  assert (∀ u, u ∈ users (w_db w) → storage_used u ≤ storage_quota u)
    as Hle by (intros u Hu; by destruct (Hwithin u Hu) as [[_ ?] _]).
  split.
  - intros file u. unfold upload_single, upload_single_interleaved.
    case_decide as Hlimit; [|by apply Hle].
    destruct (upload_folder_check _ _ _); [by apply Hle|].
    destruct (select_user _ _) as [|user rest] eqn:Hsel; [by apply Hle|].
    destruct (quota_check _ _) eqn:Hq; [by apply Hle|].
    destruct (uploadResult file) as [[fileId url]|]; [|by apply Hle].
    cbn [snd on_db w_db put_blobs]. intros Hu.
    destruct (decide (0 ≤ in_size file)) as [Hpos|Hneg].
    + apply (Hcharged (in_size file) user rest u eq_refl); [|done].
      by apply (Hchecked user rest).
    + apply (Hcharged (in_size file) user rest u eq_refl); [|done].
      assert (user ∈ select_user caller (w_db w)) as Huser
        by (rewrite Hsel; left).
      apply list_elem_of_filter in Huser as [_ Huser].
      specialize (Hle user Huser). lia.
  - intros files u Hpos.
    unfold upload_multiple, upload_multiple_interleaved.
    case_decide as Hlimits; [|by apply Hle].
    destruct files as [|f fs]; [by apply Hle|].
    destruct (upload_folder_check _ _ _); [by apply Hle|].
    destruct (select_user _ _) as [|user rest] eqn:Hsel; [by apply Hle|].
    pose proof (total_within_limits _ Hlimits) as Htotal.
    rewrite total_upload_size_foldr;
      [|done|done|unfold fileSize in Htotal; lia].
    rewrite Z.add_0_l.
    destruct (quota_check _ _) eqn:Hq; [by apply Hle|].
    pose proof (total_size_nonneg (f :: fs) Hpos) as Hs.
    pose proof (Hchecked user rest _ eq_refl Hs Hq) as Hfits.
    destruct (upload_loop_charge caller folder (f :: fs) ([], [], w) Hpos)
      as (k & Hk & Husers).
    destruct (foldl _ _ _) as [[successful failed] w']. cbn [snd] in *.
    rewrite Husers. apply (Hcharged k user rest u eq_refl). lia.
Qed.

(** Alice has 100,000 bytes left: an upload of 100,000 bytes is accepted
    and fills her quota exactly; it does not exceed it. *)
Lemma uploads_respect_quota_witness :
  Forall (λ u, storage_used u ≤ storage_quota u)
    (users (w_db (snd (upload_single 1 None
                         (sample_upload 30 "x.bin" "application/zip"
                            100000 true) sample_world)))).
Proof.
  apply Forall_forall. intros u.
  apply (proj1 (proj1 (uploads_respect_quota 1 None sample_world)
                  sample_db_pk_users
                  ltac:(apply Forall_forall; repeat constructor;
                        by vm_compute))).
Defined.

(** ** The statistics route *)

(** X17.  [GET /stats] writes one figure at most: it leaves files,
    folders, grants, coupons and redemptions alone, every quota and the
    [storage_used] of every other user as they were, and it is idempotent:
    asked again at once it gives the same answer and writes nothing. *)
Theorem get_stats_writes_one_figure (caller : Z) (d : db) :
  let d' := snd (get_stats caller d) in
  files d' = files d ∧ folders d' = folders d
  ∧ permissions d' = permissions d ∧ coupons d' = coupons d
  ∧ coupon_redemptions d' = coupon_redemptions d
  ∧ (∀ U, quota_of U d' = quota_of U d)
  ∧ (∀ U, U ≠ caller → used_of U d' = used_of U d)
  ∧ get_stats caller d' = (fst (get_stats caller d), d').
Proof.
  cbv zeta. unfold get_stats.
  destruct (select_user caller d) as [|user rest] eqn:Hsel.
  { cbn [fst snd]. rewrite Hsel. by split_and!. }
  cbn [fst snd]. case_decide as Hdiff; cycle 1.
  { rewrite Hsel. rewrite decide_False by (intros Hc; by apply Hc).
    by split_and!. }
  split_and!; [done..| | |].
  - intros U. unfold quota_of. rewrite select_user_update_storage_used.
    destruct (select_user U d) as [|u us]; [done|]. simpl. by case_decide.
  - intros U HU. unfold used_of. rewrite select_user_update_storage_used.
    destruct (select_user U d) as [|u us] eqn:HselU; [done|]. simpl.
    rewrite decide_False; [done|].
    apply select_user_head_id in HselU. congruence.
  - rewrite select_user_update_storage_used, Hsel, fmap_cons.
    rewrite (decide_True (P := u_id user = caller))
      by by eapply select_user_head_id.
    change (actual_used caller (update_storage_used _ caller d))
      with (actual_used caller d).
    cbn [storage_quota storage_used set_storage_used].
    unfold parseInt. rewrite to_double_idem.
    by rewrite decide_False by (by intros ?).
Qed.

(** Alice's stored figure (900,000) is the sum of her files: the first
    call finds nothing to write, and neither does the second. *)
Lemma get_stats_writes_one_figure_witness :
  get_stats 1 (snd (get_stats 1 sample_db))
  = (fst (get_stats 1 sample_db), snd (get_stats 1 sample_db))
  ∧ used_of 2 (snd (get_stats 1 sample_db)) = used_of 2 sample_db.
Proof.
  pose proof (get_stats_writes_one_figure 1 sample_db)
    as (_ & _ & _ & _ & _ & _ & Hothers & Hagain).
  split; [exact Hagain|]. by apply Hothers.
Defined.

(** ** Coupons: use counts and redemption rows *)

(** X18.  A redemption served on its own keeps the books of the coupons:
    whatever the answer of [POST /redeem-coupon], coupon ids stay
    distinct; no coupon's [current_uses] passes its [max_uses]; when
    [current_uses] of every coupon counted its redemption rows before, it
    does so afterwards; and (user, coupon) stays a key of the redemption
    rows.  The route is its two reads followed by its three writes, and
    nothing keeps the requests of two users apart: when both read before
    either writes, both redeem the single-use coupon of the sample store,
    which then counts two uses where one is allowed. *)
Theorem redeem_coupon_keeps_counts (now caller : Z) (code : string) (d : db) :
  ((∀ c c', c ∈ coupons d → c' ∈ coupons d → c_id c = c_id c' → c = c') →
   let d' := snd (redeem_coupon now caller code d) in
   (∀ c c', c ∈ coupons d' → c' ∈ coupons d' → c_id c = c_id c' → c = c')
   ∧ ((∀ c, c ∈ coupons d → current_uses c ≤ max_uses c) →
      ∀ c, c ∈ coupons d' → current_uses c ≤ max_uses c)
   ∧ ((∀ c, c ∈ coupons d →
         current_uses c
         = Z.of_nat (length (filter (λ r, r_coupon_id r = c_id c)
                               (coupon_redemptions d)))) →
      ∀ c, c ∈ coupons d' →
        current_uses c
        = Z.of_nat (length (filter (λ r, r_coupon_id r = c_id c)
                              (coupon_redemptions d'))))
   ∧ (NoDup ((λ r, (r_user_id r, r_coupon_id r)) <$> coupon_redemptions d) →
      NoDup ((λ r, (r_user_id r, r_coupon_id r)) <$> coupon_redemptions d')))
  ∧ snd (redeem_coupon now caller code d)
    = match redeem_select now caller code d with
      | inl _ => d
      | inr coupon => redeem_write caller coupon d
      end
  ∧ (redeem_select 0 1 "once" sample_db = inr single_use
     ∧ redeem_select 0 2 "once" sample_db = inr single_use
     ∧ filter (λ c, c_id c = 2)
         (coupons (redeem_write 2 single_use
                     (redeem_write 1 single_use sample_db)))
       = [{| c_id := 2; c_code := "ONCE"; c_name := "Single use";
             storage_bonus := 1073741824; max_uses := 1; current_uses := 2;
             expires_at := None; is_active := true |}]).
Proof.
  split_and!; [|unfold redeem_coupon, redeem_select; by repeat case_match
              |done..].
  intros Hpk. cbv zeta. unfold redeem_coupon.
  case_decide; [by split_and!|].
  destruct (filter _ (coupons d)) as [|coupon cs] eqn:E; [by split_and!|].
  destruct (filter _ (coupon_redemptions d)) as [|r rs] eqn:R;
    [|by split_and!].
  assert (coupon ∈ filter (λ c, c_code c = toUpperCase code
                                ∧ coupon_valid now c) (coupons d)) as Hc
    by (rewrite E; left).
  apply list_elem_of_filter in Hc as [[_ (_ & _ & Hleft)] Hc].
  cbn [snd].
  cbn [coupons coupon_redemptions increment_uses with_coupons
       with_coupon_redemptions add_storage_quota with_users].
  split_and!.
  - intros a b (a0 & -> & Ha)%list_elem_of_fmap (b0 & -> & Hb)%list_elem_of_fmap.
    intros Hid. assert (a0 = b0) as ->; [|done].
    apply Hpk; [done..|]. by repeat case_decide.
  - intros Hmax c (c0 & -> & Hc0)%list_elem_of_fmap.
    case_decide as Hid; [|by apply Hmax].
    rewrite (Hpk c0 coupon Hc0 Hc Hid). cbn. lia.
  - intros Hcount c (c0 & -> & Hc0)%list_elem_of_fmap.
    rewrite filter_app, length_app, filter_cons, filter_nil.
    case_decide as Hid.
    + cbn [c_id current_uses use_coupon r_coupon_id].
      rewrite decide_True by done. rewrite (Hcount c0 Hc0). cbn [length]. lia.
    + cbn [r_coupon_id]. rewrite decide_False by done.
      rewrite (Hcount c0 Hc0). cbn [length]. lia.
  - intros HN. rewrite fmap_app. apply NoDup_app. split_and!; [done| |].
    + intros k (r & -> & Hr)%list_elem_of_fmap.
      rewrite fmap_cons, fmap_nil, list_elem_of_singleton. cbn.
      intros [= Hu Hid].
      exact (filter_nil_not_elem_of _ _ r R (conj Hu Hid) Hr).
    + rewrite fmap_cons, fmap_nil. apply NoDup_singleton.
Qed.

(** The single-use coupon of the sample store is redeemed by alice and
    then asked for by bob: its use count stays at one, within its limit. *)
Lemma redeem_coupon_keeps_counts_witness :
  Forall (λ c, current_uses c ≤ max_uses c)
    (coupons (snd (redeem_coupon 1 2 "once"
                     (snd (redeem_coupon 0 1 "once" sample_db))))).
Proof.
  assert (∀ d, NoDup (c_id <$> coupons d) →
               ∀ c c', c ∈ coupons d → c' ∈ coupons d →
                       c_id c = c_id c' → c = c') as Hpk.
  { intros d HN c c'. by apply NoDup_fmap_inj_on. }
  pose proof (proj1 (redeem_coupon_keeps_counts 0 1 "once" sample_db)
                (Hpk sample_db ltac:(decide_closed))) as (Hpk1 & Hmax1 & _).
  pose proof (proj1 (redeem_coupon_keeps_counts 1 2 "once"
                       (snd (redeem_coupon 0 1 "once" sample_db))) Hpk1)
    as (_ & Hmax2 & _).
  apply Forall_forall, Hmax2, Hmax1, Forall_forall. decide_closed.
Defined.

(** ** Sending the reset mail *)

Lemma send_with_retries_spec (remaining retryCount : nat)
    (sendMail : nat → send_outcome) :
  let r := send_with_retries remaining retryCount sendMail in
  (1 ≤ sendMail_calls r ≤ S remaining)%nat
  ∧ slept r = retryDelay * (Z.of_nat (sendMail_calls r) - 1)
  ∧ (∀ j, (S j < sendMail_calls r)%nat →
       ∃ code, sendMail (retryCount + j)%nat = MailError code
               ∧ retryable code = true)
  ∧ match send_result_of r with
    | EmailSent m =>
      sendMail (retryCount + sendMail_calls r - 1)%nat = MailSent m
    | EmailFailed n =>
      n = (retryCount + sendMail_calls r)%nat
      ∧ ∃ code, sendMail (retryCount + sendMail_calls r - 1)%nat
                = MailError code
                ∧ (retryable code = true → sendMail_calls r = S remaining)
    end.
Proof.
  cbv zeta. revert retryCount.
  induction remaining as [|remaining IH]; intros retryCount; cbn [send_with_retries].
  - destruct (sendMail retryCount) as [m|code] eqn:E;
      cbn [sendMail_calls slept send_result_of].
    + split_and!; [lia|lia|unfold retryDelay; lia|intros j ?; lia|].
      by replace (retryCount + 1 - 1)%nat with retryCount by lia.
    + split_and!; [lia|lia|unfold retryDelay; lia|intros j ?; lia|lia|].
      exists code.
      by replace (retryCount + 1 - 1)%nat with retryCount by lia.
  - destruct (sendMail retryCount) as [m|code] eqn:E;
      cbn [sendMail_calls slept send_result_of].
    + split_and!; [lia|lia|unfold retryDelay; lia|intros j ?; lia|].
      by replace (retryCount + 1 - 1)%nat with retryCount by lia.
    + destruct (retryable code) eqn:Hretry;
        cbn [sendMail_calls slept send_result_of].
      * destruct (IH (S retryCount)) as (Hcalls & Hslept & Hearlier & Hlast).
        split_and!; [lia|lia|rewrite Hslept; unfold retryDelay; lia| |].
        -- intros [|j] Hj.
           ++ exists code. by rewrite Nat.add_0_r.
           ++ destruct (Hearlier j ltac:(lia)) as (c & Hc & Hr).
              exists c. by replace (retryCount + S j)%nat
                             with (S retryCount + j)%nat by lia.
        -- replace (retryCount
                    + S (sendMail_calls
                           (send_with_retries remaining (S retryCount) sendMail))
                    - 1)%nat
             with (S retryCount
                   + sendMail_calls
                       (send_with_retries remaining (S retryCount) sendMail)
                   - 1)%nat by lia.
           destruct (send_result_of _) as [m|n]; [done|].
           destruct Hlast as (-> & c & Hc & Hfull).
           split; [lia|]. exists c. split; [done|]. intros Hr. by rewrite Hfull.
      * split_and!; [lia|lia|unfold retryDelay; lia|intros j ?; lia|lia|].
        exists code.
        replace (retryCount + 1 - 1)%nat with retryCount by lia.
        split; [done|]. by rewrite Hretry.
Qed.

(** X19.  [sendPasswordResetEmail] calls the transporter at least once
    and at most four times and sleeps five seconds between two calls, so
    at most fifteen seconds in all.  Every call but the last failed with
    ETIMEDOUT, ENOTFOUND or ECONNREFUSED.  The result is that of the last
    call: its message, or the error 'Failed ... after n attempts' with [n]
    the number of calls made, and then the last error was one that is not
    retried or the fourth call had been made. *)
Theorem reset_mail_retries (sendMail : nat → send_outcome) :
  let r := sendPasswordResetEmail sendMail in
  (1 ≤ sendMail_calls r ≤ 4)%nat
  ∧ slept r = 5000 * (Z.of_nat (sendMail_calls r) - 1)
  ∧ slept r ≤ 15000
  ∧ (∀ j, (S j < sendMail_calls r)%nat →
       ∃ code, sendMail j = MailError code
               ∧ code ∈ [Some "ETIMEDOUT"; Some "ENOTFOUND";
                         Some "ECONNREFUSED"])
  ∧ match send_result_of r with
    | EmailSent m => sendMail (sendMail_calls r - 1)%nat = MailSent m
    | EmailFailed n =>
      n = sendMail_calls r
      ∧ ∃ code, sendMail (sendMail_calls r - 1)%nat = MailError code
                ∧ (sendMail_calls r = 4%nat
                   ∨ code ∉ [Some "ETIMEDOUT"; Some "ENOTFOUND";
                             Some "ECONNREFUSED"])
    end.
Proof.
  cbv zeta. unfold sendPasswordResetEmail.
  destruct (send_with_retries_spec maxRetries 0 sendMail)
    as (Hcalls & Hslept & Hearlier & Hlast).
  assert (∀ code, retryable code = true ↔
                  code ∈ [Some "ETIMEDOUT"; Some "ENOTFOUND";
                          Some "ECONNREFUSED"]) as Hretry.
  { intros code. unfold retryable.
    rewrite !orb_true_iff, !bool_decide_eq_true, !elem_of_cons, elem_of_nil.
    tauto. }
  unfold maxRetries, retryDelay in *.
  split_and!; [lia|lia|done|lia| |].
  - intros j Hj. destruct (Hearlier j Hj) as (code & Hcode & Hr).
    exists code. split; [done|]. by apply Hretry.
  - destruct (send_result_of _) as [m|n]; [done|].
    destruct Hlast as (-> & code & Hcode & Hfull).
    split; [done|]. exists code. split; [done|].
    destruct (retryable code) eqn:Hr; [left; by apply Hfull|].
    right. intros Hin%Hretry. congruence.
Qed.

(** A transporter that always times out is called four times, with
    fifteen seconds of sleep in all, and the error counts four attempts. *)
Lemma reset_mail_retries_witness :
  slept (sendPasswordResetEmail (λ _, MailError (Some "ETIMEDOUT"))) ≤ 15000
  ∧ send_result_of (sendPasswordResetEmail (λ _, MailError (Some "ETIMEDOUT")))
    = EmailFailed 4.
Proof.
  pose proof (reset_mail_retries (λ _, MailError (Some "ETIMEDOUT")))
    as (_ & _ & Hslept & _ & _).
  split; [exact Hslept|by vm_compute].
Defined.

(** ** Password reset tokens *)

Lemma elem_of_valid_reset_tokens now token a prt u :
  (prt, u) ∈ valid_reset_tokens now token a ↔
  prt ∈ password_reset_tokens a ∧ u ∈ accounts a
  ∧ t_user_id prt = a_id u ∧ t_token prt = token
  ∧ now < t_expires_at prt ∧ t_used prt = false.
Proof.
  unfold valid_reset_tokens. rewrite list_elem_of_bind. split.
  - intros (p & (v & Hin & Hv)%list_elem_of_bind & Hp).
    case_decide as Hc; [|by apply elem_of_nil in Hin].
    apply list_elem_of_singleton in Hin as [= -> ->].
    destruct Hc as (? & ? & ? & ?). by split_and!.
  - intros (Hp & Hu & Hc). exists prt. split; [|done].
    apply list_elem_of_bind. exists u. split; [|done].
    rewrite decide_True by done. by apply list_elem_of_singleton.
Qed.

(** X20.  The life of a reset token.  Let [POST /forgot-password] be
    asked for the e-mail address of an account, with a token and a row id
    not yet in the table (account ids and addresses are distinct).  Then,
    whether or not the mail went out: before the expiry date the token
    verifies for that account and resets its password, and no other
    account's; once used, and from the expiry date on, the token neither
    verifies nor resets anything. *)
Theorem reset_token_life (expiresAt now : Z) (resetToken : string)
    (new_id : Z) (sendMail : nat → send_outcome) (email hash newPassword : string)
    (user : account_row) (a : auth_db) :
  (∀ u v, u ∈ accounts a → v ∈ accounts a → a_id u = a_id v → u = v) →
  (∀ u v, u ∈ accounts a → v ∈ accounts a → a_email u = a_email v → u = v) →
  (∀ r, r ∈ password_reset_tokens a →
        t_token r ≠ resetToken ∧ t_id r ≠ new_id) →
  user ∈ accounts a → a_email user = toLowerCase email →
  email ≠ "" → resetToken ≠ "" →
  (6 ≤ String.length newPassword)%nat →
  let a1 := snd (forgot_password expiresAt resetToken new_id sendMail email a) in
  let a2 := snd (reset_password now hash resetToken newPassword a1) in
  (now < expiresAt →
     verify_reset_token now resetToken a1 = ResetTokenValid (a_email user)
     ∧ fst (reset_password now hash resetToken newPassword a1)
       = PasswordResetSuccessful
     ∧ (∀ v, v ∈ accounts a2 ↔
             (v = {| a_id := a_id user; a_email := a_email user;
                     password_hash := hash |})
             ∨ (v ∈ accounts a ∧ a_id v ≠ a_id user))
     ∧ (∀ now' hash' newPassword',
          verify_reset_token now' resetToken a2 = ResetTokenInvalid
          ∧ fst (reset_password now' hash' resetToken newPassword' a2)
            ≠ PasswordResetSuccessful))
  ∧ (expiresAt ≤ now →
     verify_reset_token now resetToken a1 = ResetTokenInvalid
     ∧ reset_password now hash resetToken newPassword a1
       = (InvalidOrExpiredResetToken, a1)).
Proof.
  intros Hids Hmails Hfresh Huser Hmail Hemail Htoken Hlen. cbv zeta.
  set (row := {| t_id := new_id; t_user_id := a_id user;
                 t_token := resetToken; t_expires_at := expiresAt;
                 t_used := false |}).
  set (a1 := {| accounts := accounts a;
                password_reset_tokens := password_reset_tokens a ++ [row] |}).
  assert (snd (forgot_password expiresAt resetToken new_id sendMail email a)
          = a1) as ->.
  { unfold forgot_password. rewrite decide_False by done.
    destruct (filter _ (accounts a)) as [|u us] eqn:E.
    { exfalso. exact (filter_nil_not_elem_of _ _ user E Hmail Huser). }
    assert (u ∈ filter (λ u, a_email u = toLowerCase email) (accounts a))
      as Hu by (rewrite E; left).
    apply list_elem_of_filter in Hu as [Hum Hu].
    assert (u = user) as -> by (apply Hmails; [done..|congruence]).
    by destruct (send_result_of _). }
  assert (∀ t prt u, (prt, u) ∈ valid_reset_tokens t resetToken a1 →
                     prt = row ∧ u = user) as Honly.
  { intros t prt u (Hp & Hu & Hpu & Htok & _)%elem_of_valid_reset_tokens.
    cbn [password_reset_tokens accounts a1] in Hp, Hu.
    apply elem_of_app in Hp as [Hp|Hp].
    { by destruct (Hfresh prt Hp) as [? _]. }
    apply list_elem_of_singleton in Hp as ->.
    split; [done|]. by apply Hids. }
  split.
  - intros Hnow.
    assert ((row, user) ∈ valid_reset_tokens now resetToken a1) as Hvalid.
    { apply elem_of_valid_reset_tokens.
      split_and!; [|done..]. apply elem_of_app. right.
      by apply list_elem_of_singleton. }
    destruct (valid_reset_tokens now resetToken a1) as [|[prt u] rest] eqn:V;
      [by apply elem_of_nil in Hvalid|].
    destruct (Honly now prt u) as [-> ->]; [rewrite V; left|].
    set (a2 :=
           {| accounts :=
                (λ v, if decide (a_id v = t_user_id row)
                      then {| a_id := a_id v; a_email := a_email v;
                              password_hash := hash |}
                      else v) <$> accounts a1;
              password_reset_tokens :=
                (λ r, if decide (t_id r = t_id row)
                      then {| t_id := t_id r; t_user_id := t_user_id r;
                              t_token := t_token r;
                              t_expires_at := t_expires_at r; t_used := true |}
                      else r) <$> password_reset_tokens a1 |}).
    assert (reset_password now hash resetToken newPassword a1
            = (PasswordResetSuccessful, a2)) as ->.
    { unfold reset_password.
      rewrite decide_False
        by (intros [?|?]; [done|subst; simpl in Hlen; lia]).
      rewrite decide_False by lia. by rewrite V. }
    cbn [fst snd].
    split_and!; [|done| |].
    + unfold verify_reset_token. rewrite decide_False by done. by rewrite V.
    + intros v. cbn [accounts a2 a1 t_user_id row]. rewrite list_elem_of_fmap.
      split.
      * intros (v0 & -> & Hv0). case_decide as Hid.
        -- left. by rewrite (Hids v0 user Hv0 Huser Hid).
        -- right. done.
      * intros [->|[Hv Hid]].
        -- exists user. by rewrite decide_True.
        -- exists v. by rewrite decide_False.
    + assert (∀ t, valid_reset_tokens t resetToken a2 = []) as Hspent.
      { intros t.
        destruct (valid_reset_tokens t resetToken a2) as [|[p u] l] eqn:V2;
          [done|].
        exfalso.
        assert ((p, u) ∈ valid_reset_tokens t resetToken a2) as Hin
          by (rewrite V2; left).
        apply elem_of_valid_reset_tokens
          in Hin as (Hp & _ & _ & Htok & _ & Hunused).
        cbn [password_reset_tokens a2 a1] in Hp.
        apply list_elem_of_fmap in Hp as (p0 & -> & Hp0).
        apply elem_of_app in Hp0 as [Hp0|Hp0].
        - destruct (Hfresh p0 Hp0) as [Hne _]. apply Hne.
          revert Htok. by case_decide.
        - apply list_elem_of_singleton in Hp0 as ->.
          by rewrite decide_True in Hunused. }
      intros now' hash' newPassword'.
      unfold verify_reset_token, reset_password. rewrite (Hspent now').
      rewrite (decide_False (P := resetToken = "")) by done.
      split; [done|]. by repeat case_decide.
  - intros Hnow.
    assert (valid_reset_tokens now resetToken a1 = []) as V.
    { destruct (valid_reset_tokens now resetToken a1) as [|[p u] l] eqn:V;
        [done|].
      exfalso.
      assert ((p, u) ∈ valid_reset_tokens now resetToken a1) as Hin
        by (rewrite V; left).
      destruct (Honly now p u Hin) as [-> ->].
      apply elem_of_valid_reset_tokens in Hin as (_ & _ & _ & _ & Hlt & _).
      cbn in Hlt. lia. }
    unfold verify_reset_token, reset_password.
    rewrite (decide_False (P := resetToken = "")) by done.
    rewrite decide_False by (intros [?|?]; [done|subst; simpl in Hlen; lia]).
    rewrite decide_False by lia.
    by rewrite V.
Qed.

(** An account asks for a reset; the token expires at time 3600.  At time
    10 it verifies for the account; a transporter that refuses the mail
    does not change that. *)
Lemma reset_token_life_witness :
  verify_reset_token 10 "0a1b"
    (snd (forgot_password 3600 "0a1b" 1 (λ _, MailError None) "Ann@Example.com"
            {| accounts := [{| a_id := 7; a_email := "ann@example.com";
                               password_hash := "h0" |}];
               password_reset_tokens := [] |}))
  = ResetTokenValid "ann@example.com".
Proof.
  refine (proj1 (proj1 (reset_token_life 3600 10 "0a1b" 1 (λ _, MailError None)
                          "Ann@Example.com" "h1" "secret1"
                          {| a_id := 7; a_email := "ann@example.com";
                             password_hash := "h0" |}
                          {| accounts := [{| a_id := 7;
                                             a_email := "ann@example.com";
                                             password_hash := "h0" |}];
                             password_reset_tokens := [] |}
                          _ _ _ _ eq_refl _ _ _) _)).
  - intros u v Hu%list_elem_of_singleton Hv%list_elem_of_singleton _.
    congruence.
  - intros u v Hu%list_elem_of_singleton Hv%list_elem_of_singleton _.
    congruence.
  - intros r Hr. by apply elem_of_nil in Hr.
  - by apply list_elem_of_singleton.
  - done.
  - done.
  - simpl. lia.
  - lia.
Defined.

(** X21.  What [POST /forgot-password] gives away and what it stores.  For
    an address of no account the answer is the neutral 'If the email
    exists ...' and nothing is stored.  For the address of an account a
    token row for that account is stored before the mail is sent and stays
    stored when the mail fails; the answer is the neutral one exactly when
    the mail went out and 500 otherwise.  So an answer other than the
    neutral one is given only for addresses that have an account. *)
Theorem forgot_password_answers (expiresAt : Z) (resetToken : string)
    (new_id : Z) (sendMail : nat → send_outcome) (email : string)
    (a : auth_db) :
  email ≠ "" →
  let r := forgot_password expiresAt resetToken new_id sendMail email a in
  accounts (snd r) = accounts a
  ∧ ((∀ u, u ∈ accounts a → a_email u ≠ toLowerCase email) →
     r = (ResetLinkSentIfExists, a))
  ∧ ((∃ u, u ∈ accounts a ∧ a_email u = toLowerCase email) →
     (∃ user, user ∈ accounts a ∧ a_email user = toLowerCase email
        ∧ password_reset_tokens (snd r)
          = password_reset_tokens a
            ++ [{| t_id := new_id; t_user_id := a_id user;
                   t_token := resetToken; t_expires_at := expiresAt;
                   t_used := false |}])
     ∧ (fst r = ResetLinkSentIfExists ↔
        ∃ m, send_result_of (sendPasswordResetEmail sendMail) = EmailSent m)
     ∧ (fst r = ForgotPasswordFailed ↔
        ∃ n, send_result_of (sendPasswordResetEmail sendMail) = EmailFailed n))
  ∧ (fst r ≠ ResetLinkSentIfExists →
     ∃ u, u ∈ accounts a ∧ a_email u = toLowerCase email).
Proof.
  intros Hemail. cbv zeta. unfold forgot_password.
  rewrite decide_False by done.
  destruct (filter _ (accounts a)) as [|user us] eqn:E.
  - cbn [fst snd]. split_and!; [done|done| |done].
    intros (u & Hu & Hmail). exfalso.
    exact (filter_nil_not_elem_of _ _ u E Hmail Hu).
  - assert (user ∈ filter (λ u, a_email u = toLowerCase email) (accounts a))
      as Huser by (rewrite E; left).
    apply list_elem_of_filter in Huser as [Hmail Huser].
    destruct (send_result_of _) as [m|n]; cbn [fst snd accounts
                                                password_reset_tokens].
    + split_and!; [done| | |done].
      * intros Hnone. by destruct (Hnone user Huser).
      * intros _. split_and!; [by exists user| |].
        -- split; [by eexists|done].
        -- split; [done|]. by intros [? ?].
    + split_and!; [done| | |by exists user].
      * intros Hnone. by destruct (Hnone user Huser).
      * intros _. split_and!; [by exists user| |].
        -- split; [done|]. by intros [? ?].
        -- split; [by eexists|done].
Qed.

(** No account has the address: the neutral answer, nothing stored. *)
Lemma forgot_password_answers_witness :
  forgot_password 3600 "0a1b" 1 (λ _, MailError None) "nobody@example.com"
    {| accounts := [{| a_id := 7; a_email := "ann@example.com";
                       password_hash := "h0" |}];
       password_reset_tokens := [] |}
  = (ResetLinkSentIfExists,
     {| accounts := [{| a_id := 7; a_email := "ann@example.com";
                        password_hash := "h0" |}];
        password_reset_tokens := [] |}).
Proof.
  apply (forgot_password_answers 3600 "0a1b" 1 (λ _, MailError None)
           "nobody@example.com" _ ltac:(done)).
  intros u Hu%list_elem_of_singleton. by subst u.
Defined.

(** ** Thumbnails *)

(** X22.  What kind of image a thumbnail is.  The thumbnail service makes
    a JPEG (stored with extension [.jpg]) exactly for files whose type
    starts with [image/], and a PNG placeholder (stored as [.png]) for
    every other type, always of one of the nine kinds that have a colour.
    Both thumbnail routes declare every thumbnail they deliver as
    [image/jpeg].  Every type that is viewable inline is a type for which
    thumbnails are generated. *)
Theorem thumbnail_kinds (mimeType : string) :
  (thumbnail_mimeType (generateThumbnail mimeType) = "image/jpeg" ↔
   String.prefix "image/" mimeType = true)
  ∧ (thumbnailExtension (thumbnail_mimeType (generateThumbnail mimeType))
     = if String.prefix "image/" mimeType then ".jpg" else ".png")
  ∧ (∀ type, generateThumbnail mimeType = PlaceholderImage type →
       type ∈ ["video"; "audio"; "pdf"; "word"; "excel"; "powerpoint";
               "zip"; "code"; "document"])
  ∧ (inline_type mimeType = true → shouldGenerateThumbnail mimeType = true)
  ∧ (∀ userId file_id d h,
       thumbnail_file userId file_id d = ThumbnailDelivered h →
       content_type h = "image/jpeg")
  ∧ (∀ got stored now token st h,
       fst (public_thumbnail got stored now token st) = PublicDelivered h →
       content_type h = "image/jpeg").
Proof.
  split_and!.
  - unfold generateThumbnail.
    destruct (String.prefix "image/" mimeType); [done|].
    split; [|done]. by repeat case_match.
  - unfold generateThumbnail.
    destruct (String.prefix "image/" mimeType); [done|].
    by repeat case_match.
  - intros type. unfold generateThumbnail, docType.
    repeat case_match; intros [= <-]; set_solver.
  - intros [Himg|[Hvid| ->]]%inline_type_spec; unfold shouldGenerateThumbnail;
      cbn [existsb].
    + by rewrite Himg.
    + rewrite Hvid. by rewrite !orb_true_r.
    + done.
  - intros userId file_id d h. unfold thumbnail_file.
    repeat case_match; try done. by intros [= <-].
  - intros got stored now token st h. unfold public_thumbnail.
    repeat case_match; try done. by intros [= <-].
Qed.

(** A PNG upload gets a JPEG thumbnail, a PDF a PNG placeholder. *)
Lemma thumbnail_kinds_witness :
  shouldGenerateThumbnail "application/pdf" = true
  ∧ thumbnailExtension (thumbnail_mimeType (generateThumbnail "application/pdf"))
    = ".png".
Proof.
  pose proof (thumbnail_kinds "application/pdf") as (_ & Hext & _ & Hgen & _).
  split; [by apply Hgen|exact Hext].
Defined.

(** ** The counts of the folder detail *)

Lemma filter_all_elem {A : Type} (P : A → Prop) `{∀ x, Decision (P x)}
    (l : list A) :
  (∀ x, x ∈ l → P x) → filter P l = l.
Proof.
  induction l as [|a l IH]; [done|]. intros HP.
  rewrite filter_cons, decide_True by (apply HP; left).
  rewrite IH; [done|]. intros x Hx. apply HP. by right.
Qed.

Lemma filter_none_elem {A : Type} (P : A → Prop) `{∀ x, Decision (P x)}
    (l : list A) :
  (∀ x, x ∈ l → ¬ P x) → filter P l = [].
Proof.
  induction l as [|a l IH]; [done|]. intros HP.
  rewrite filter_cons, decide_False by (apply HP; left).
  apply IH. intros x Hx. apply HP. by right.
Qed.

Lemma filter_ext_elem {A : Type} (P Q : A → Prop) `{∀ x, Decision (P x)}
    `{∀ x, Decision (Q x)} (l : list A) :
  (∀ x, x ∈ l → P x ↔ Q x) → filter P l = filter Q l.
Proof.
  induction l as [|a l IH]; [done|]. intros HPQ.
  rewrite !filter_cons, IH by (intros x Hx; apply HPQ; by right).
  destruct (decide (P a)) as [HP|HP], (decide (Q a)) as [HQ|HQ]; try done.
  - destruct HQ. apply HPQ; [left|done].
  - destruct HP. apply HPQ; [left|done].
Qed.

Lemma filter_split {A : Type} (PQ P Q : A → Prop) `{∀ x, Decision (PQ x)}
    `{∀ x, Decision (P x)} `{∀ x, Decision (Q x)} (l : list A) :
  (∀ x, PQ x ↔ P x ∧ Q x) → filter PQ l = filter Q (filter P l).
Proof.
  intros Hiff. induction l as [|a l IH]; [done|].
  rewrite !(filter_cons _ a l), IH.
  destruct (decide (P a)) as [HP|HP].
  - rewrite filter_cons.
    destruct (decide (PQ a)) as [HPQ|HPQ], (decide (Q a)) as [HQ|HQ];
      try done.
    + destruct HQ. by apply Hiff.
    + destruct HPQ. by apply Hiff.
  - rewrite decide_False; [done|]. intros HPQ. apply HP. by apply Hiff.
Qed.

(** The rows with one key in a table in which the key is unique. *)
Lemma filter_key_singleton {A K : Type} `{EqDecision K} (key : A → K)
    (l : list A) (x : A) :
  NoDup (key <$> l) → x ∈ l → filter (λ y, key y = key x) l = [x].
Proof.
  induction l as [|a l IH]; [intros _ Hin; by apply elem_of_nil in Hin|].
  rewrite fmap_cons, NoDup_cons. intros [Ha HN] Hin.
  rewrite filter_cons. apply elem_of_cons in Hin as [->|Hin].
  - rewrite decide_True by done. f_equal.
    apply filter_none_elem. intros y Hy Hk. apply Ha. rewrite <- Hk.
    apply list_elem_of_fmap. by exists y.
  - rewrite decide_False; [by apply IH|].
    intros Hk. apply Ha. rewrite Hk. apply list_elem_of_fmap. by exists x.
Qed.

Lemma remove_dups_constant {A : Type} `{EqDecision A} (k : A) (l : list A) :
  l ≠ [] → (∀ x, x ∈ l → x = k) → remove_dups l = [k].
Proof.
  induction l as [|a l IH]; [done|]. intros _ Hall. cbn [remove_dups].
  assert (a = k) as -> by (apply Hall; left).
  destruct l as [|b l].
  - destruct (decide_rel elem_of k []) as [Hin|Hin]; [|done].
    by apply elem_of_nil in Hin.
  - destruct (decide_rel elem_of k (b :: l)) as [Hin|Hin].
    + apply IH; [done|]. intros x Hx. apply Hall. by right.
    + destruct Hin. assert (b = k) as -> by (apply Hall; right; left). left.
Qed.

Section left_join_counts.
Context {A B : Type} (on : A → B → Prop) `{∀ a b, Decision (on a b)}.

Lemma left_join_cons a (l : list A) (r : list B) :
  left_join on (a :: l) r
  = match filter (on a) r with
    | [] => [(a, None)]
    | ms => (λ b, (a, Some b)) <$> ms
    end ++ left_join on l r.
Proof. done. Qed.

Lemma elem_of_left_join_row a (r : list B) x :
  x ∈ match filter (on a) r with
      | [] => [(a, None)]
      | ms => (λ b, (a, Some b)) <$> ms
      end →
  x.1 = a.
Proof.
  destruct (filter (on a) r) as [|m ms].
  - by intros ->%list_elem_of_singleton.
  - by intros (b & -> & _)%list_elem_of_fmap.
Qed.

(** A condition on the left row can be applied before the join. *)
Lemma filter_left_join_fst (P : A → Prop) (Q : A * option B → Prop)
    `{∀ a, Decision (P a)} `{∀ x, Decision (Q x)} (l : list A) (r : list B) :
  (∀ x, Q x ↔ P x.1) →
  filter Q (left_join on l r) = left_join on (filter P l) r.
Proof.
  intros HQ. induction l as [|a l IH]; [done|].
  rewrite left_join_cons, filter_app, IH, filter_cons.
  destruct (decide (P a)) as [HP|HP].
  - rewrite left_join_cons. f_equal. apply filter_all_elem.
    intros x Hx. apply HQ. by rewrite (elem_of_left_join_row a r x Hx).
  - rewrite filter_none_elem; [done|].
    intros x Hx HQx. apply HP. apply HQ in HQx.
    by rewrite (elem_of_left_join_row a r x Hx) in HQx.
Qed.

(** Counting the rows of a join in which every left row matches the same
    right rows, those selected by [R]. *)
Lemma length_filter_left_join_fst (R : B → Prop) `{∀ b, Decision (R b)}
    (C : A → Prop) (Q : A * option B → Prop)
    `{∀ a, Decision (C a)} `{∀ x, Decision (Q x)} (l : list A) (r : list B) :
  (∀ a, a ∈ l → filter (on a) r = filter R r) →
  (∀ x, Q x ↔ C x.1) →
  length (filter Q (left_join on l r))
  = (length (filter C l) * Nat.max 1 (length (filter R r)))%nat.
Proof.
  intros Hsame HQ. rewrite (filter_left_join_fst C Q l r HQ).
  assert (∀ a, a ∈ filter C l → filter (on a) r = filter R r) as Hsame'.
  { intros a [_ Ha]%list_elem_of_filter. by apply Hsame. }
  clear Hsame HQ. induction (filter C l) as [|a l' IH]; [done|].
  rewrite left_join_cons, length_app, IH
    by (intros b Hb; apply Hsame'; by right).
  rewrite (Hsame' a) by left.
  destruct (filter R r) as [|m ms]; [simpl; lia|].
  rewrite length_fmap. cbn [length]. lia.
Qed.

Lemma length_filter_left_join_snd (R : B → Prop) `{∀ b, Decision (R b)}
    (Q : A * option B → Prop) `{∀ x, Decision (Q x)}
    (l : list A) (r : list B) :
  (∀ a, a ∈ l → filter (on a) r = filter R r) →
  (∀ x, Q x ↔ is_Some x.2) →
  length (filter Q (left_join on l r))
  = (length l * length (filter R r))%nat.
Proof.
  intros Hsame HQ. induction l as [|a l IH]; [done|].
  rewrite left_join_cons, filter_app, length_app, IH
    by (intros b Hb; apply Hsame; by right).
  rewrite (Hsame a) by left.
  destruct (filter R r) as [|m ms].
  - rewrite filter_none_elem; [simpl; lia|].
    intros x ->%list_elem_of_singleton [? ?]%HQ. done.
  - rewrite filter_all_elem.
    + rewrite length_fmap. cbn [length]. lia.
    + intros x (b & -> & _)%list_elem_of_fmap. apply HQ. by eexists.
Qed.

Lemma length_left_join (R : B → Prop) `{∀ b, Decision (R b)}
    (l : list A) (r : list B) :
  (∀ a, a ∈ l → filter (on a) r = filter R r) →
  length (left_join on l r)
  = (length l * Nat.max 1 (length (filter R r)))%nat.
Proof.
  intros Hsame. induction l as [|a l IH]; [done|].
  rewrite left_join_cons, length_app, IH
    by (intros b Hb; apply Hsame; by right).
  rewrite (Hsame a) by left.
  destruct (filter R r) as [|m ms]; [simpl; lia|].
  rewrite length_fmap. cbn [length]. lia.
Qed.
End left_join_counts.

(** X23.  The counts that [GET /:folderId] reports are products.  The
    query joins the child folders and the files of the folder side by
    side and counts the joined rows, so for a folder with [s] child
    folders and [f] files (ids and grant keys being distinct) it reports
    [subfolder_count = s * max 1 f] and [file_count = f * max 1 s]: the
    true counts only when the folder has no file or no child folder, or
    one of each. *)
Theorem folder_counts_multiply (caller : Z) (F : folder_row) (d : db)
    (row : folder_detail) :
  NoDup (fo_id <$> folders d) →
  NoDup ((λ p, (p_folder_id p, shared_with_user_id p)) <$> permissions d) →
  F ∈ folders d →
  get_folder caller (fo_id F) d = FolderOk row →
  let s := length (filter (λ G, parent_folder_id G = Some (fo_id F))
                     (folders d)) in
  let f := length (filter (λ x, folder_id x = Some (fo_id F)) (files d)) in
  fd_folder row = F
  ∧ subfolder_count row = (s * Nat.max 1 f)%nat
  ∧ file_count row = (f * Nat.max 1 s)%nat.
Proof.
  intros HNf HNp HF Hget. cbv zeta.
  assert (∃ op, filter (λ r : folder_row * option permission_row,
                          fo_id r.1 = fo_id F) (folders_with_grant caller d)
                = [(F, op)]) as [op Hj1].
  { unfold folders_with_grant.
    rewrite (filter_left_join_fst _ (λ f : folder_row, fo_id f = fo_id F)
               (λ r : folder_row * option permission_row, fo_id r.1 = fo_id F))
      by done.
    rewrite (filter_key_singleton fo_id (folders d) F HNf HF).
    rewrite left_join_cons. change (left_join _ [] _) with
      (@nil (folder_row * option permission_row)). rewrite app_nil_r.
    destruct (filter _ (permissions d)) as [|q qs] eqn:E; [by eexists|].
    assert (q ∈ filter (λ p, fo_id F = p_folder_id p
                             ∧ shared_with_user_id p = caller)
                  (permissions d)) as Hq by (rewrite E; left).
    apply list_elem_of_filter in Hq as [[Hq1 Hq2] Hq].
    assert (filter (λ p, fo_id F = p_folder_id p
                         ∧ shared_with_user_id p = caller) (permissions d)
            = [q]) as Hone.
    { rewrite <- (filter_key_singleton
                    (λ p, (p_folder_id p, shared_with_user_id p))
                    (permissions d) q HNp Hq).
      apply filter_ext_elem. intros p _. split.
      - intros [? ?]. f_equal; congruence.
      - intros [= ? ?]. split; congruence. }
    rewrite E in Hone. injection Hone as ->. by eexists. }
  set (on2 := λ (r : folder_row * option permission_row) (sub : folder_row),
                is_subfolder_of r.1 sub).
  set (on3 := λ (r : folder_row * option permission_row * option folder_row)
                (fl : file_row), is_file_of r.1.1 fl).
  assert (folder_detail_selection caller (fo_id F) d
          = left_join on3
              (left_join on2
                 (filter (λ r : folder_row * option permission_row,
                            owner_or_shared (fo_user_id r.1) caller r.2)
                    [(F, op)])
                 (folders d))
              (files d)) as Hsel.
  { unfold folder_detail_selection.
    rewrite (filter_left_join_fst _
               (λ r : folder_row * option permission_row * option folder_row,
                  fo_id r.1.1 = fo_id F
                  ∧ owner_or_shared (fo_user_id r.1.1) caller r.1.2)
               (λ r : folder_row * option permission_row * option folder_row
                      * option file_row,
                  fo_id r.1.1.1 = fo_id F
                  ∧ owner_or_shared (fo_user_id r.1.1.1) caller r.1.1.2))
      by done.
    rewrite (filter_left_join_fst _
               (λ r : folder_row * option permission_row,
                  fo_id r.1 = fo_id F
                  ∧ owner_or_shared (fo_user_id r.1) caller r.2)
               (λ r : folder_row * option permission_row * option folder_row,
                  fo_id r.1.1 = fo_id F
                  ∧ owner_or_shared (fo_user_id r.1.1) caller r.1.2))
      by done.
    rewrite (filter_split
               (λ r : folder_row * option permission_row,
                  fo_id r.1 = fo_id F
                  ∧ owner_or_shared (fo_user_id r.1) caller r.2)
               (λ r : folder_row * option permission_row,
                  fo_id r.1 = fo_id F)
               (λ r : folder_row * option permission_row,
                  owner_or_shared (fo_user_id r.1) caller r.2)) by done.
    by rewrite Hj1. }
  unfold get_folder, folder_detail_rows in Hget. rewrite Hsel in Hget.
  rewrite filter_cons, filter_nil in Hget. cbn [fst snd] in Hget.
  destruct (decide (owner_or_shared (fo_user_id F) caller op)) as [Hown|Hown];
    [|done].
  set (X2 := left_join on2 [(F, op)] (folders d)) in Hget.
  set (sel := left_join on3 X2 (files d)) in Hget.
  assert (∀ a, a ∈ [(F, op)] →
               filter (on2 a) (folders d)
               = filter (λ G, parent_folder_id G = Some (fo_id F)) (folders d))
    as Hsame2.
  { intros a ->%list_elem_of_singleton. by apply filter_ext_elem. }
  assert (∀ a, a ∈ X2 → a.1 = (F, op)) as HX2.
  { intros [a os] [Ha _]%elem_of_left_join.
    by apply list_elem_of_singleton in Ha. }
  assert (∀ a, a ∈ X2 →
               filter (on3 a) (files d)
               = filter (λ x, folder_id x = Some (fo_id F)) (files d))
    as Hsame3.
  { intros a Ha. apply filter_ext_elem. intros x _. unfold on3, is_file_of.
    by rewrite (HX2 a Ha). }
  assert (length X2
          = Nat.max 1 (length (filter (λ G, parent_folder_id G
                                            = Some (fo_id F)) (folders d))))
    as HlenX2.
  { unfold X2. rewrite (length_left_join on2 _ _ _ Hsame2). simpl. lia. }
  assert (∀ r, r ∈ sel →
               folder_group_key r = (F, p_permission_type <$> op)) as Hkey.
  { intros [a ofl] [Ha _]%elem_of_left_join. unfold folder_group_key.
    cbn [fst snd]. by rewrite (HX2 a Ha). }
  assert (remove_dups (folder_group_key <$> sel)
          = [(F, p_permission_type <$> op)]) as Hkeys.
  { apply remove_dups_constant.
    - intros Hnil%fmap_nil_inv.
      assert (length sel = 0%nat) as Hlen by by rewrite Hnil.
      unfold sel in Hlen. rewrite (length_left_join on3 _ _ _ Hsame3) in Hlen.
      lia.
    - intros k (r & -> & Hr)%list_elem_of_fmap. by apply Hkey. }
  rewrite Hkeys in Hget. cbn [fmap list_fmap] in Hget.
  injection Hget as <-. cbn [fd_folder subfolder_count file_count fst snd].
  split_and!; [done| |].
  - rewrite (filter_ext_elem _ (λ r : folder_row * option permission_row
                                      * option folder_row * option file_row,
                                  is_Some r.1.2) sel); cycle 1.
    { intros r Hr. split; [by intros [_ ?]|]. intros ?. split; [|done].
      by apply Hkey. }
    unfold sel.
    rewrite (length_filter_left_join_fst on3 _
               (λ a : folder_row * option permission_row * option folder_row,
                  is_Some a.2) _ X2 (files d) Hsame3) by done.
    unfold X2.
    rewrite (length_filter_left_join_snd on2 _ _ _ _ Hsame2) by done.
    simpl. lia.
  - rewrite (filter_ext_elem _ (λ r : folder_row * option permission_row
                                      * option folder_row * option file_row,
                                  is_Some r.2) sel); cycle 1.
    { intros r Hr. split; [by intros [_ ?]|]. intros ?. split; [|done].
      by apply Hkey. }
    unfold sel.
    rewrite (length_filter_left_join_snd on3 _ _ _ _ Hsame3) by done.
    rewrite HlenX2. lia.
Qed.

(** photos has one child folder (albums) and two files: the detail
    reports two child folders. *)
Lemma folder_counts_multiply_witness :
  ∃ row, get_folder 1 (fo_id photos) sample_db = FolderOk row
         ∧ subfolder_count row = 2%nat ∧ file_count row = 2%nat.
Proof.
  eexists. split; [reflexivity|].
  eapply (proj2 (folder_counts_multiply 1 photos sample_db _
                   ltac:(decide_closed) ltac:(decide_closed)
                   ltac:(decide_closed) eq_refl)).
Defined.

(** ** The thumbnail of a shared file *)

(** X24.  The descriptor that share creation caches under the token has
    no thumbnail fields, and the public thumbnail route trusts whatever
    descriptor it finds there.  So for a freshly shared file that has a
    thumbnail, the public thumbnail route answers 'Thumbnail not
    available' whenever it reads a descriptor from the cache, and
    delivers the thumbnail only when it reads none and goes to the row.
    It reads one when the cache was connected and its call returned at
    the time of the share, the lifetime of [expiresIn] hours is positive
    and has not passed, and the call of the lookup returns. *)
Theorem cached_share_hides_thumbnail (stored got stored' : bool)
    (now now' expiresIn : Z)
    (token path : string) (caller : Z) (file : file_row) (d : db)
    (redis : RedisService) :
  pk_files d → file ∈ files d →
  may_delete (resolve_file caller (f_id file) d) →
  (∀ f, f ∈ files d → public_share_token f ≠ Some token) →
  (∀ t, Redis.getPublicShare got t token redis = None) →
  has_thumbnail file = true → thumbnail_path file = Some path → path ≠ "" →
  let st' :=
    snd (create_share stored now token expiresIn caller (f_id file)
           (d, redis)) in
  (Redis.getPublicShare got now' token (snd st') = None →
   fst (public_thumbnail got stored' now' token st')
   = PublicDelivered {| content_type := "image/jpeg"; content_length := None;
                        content_disposition := None; blob_name := path |})
  ∧ (Redis.getPublicShare got now' token (snd st') ≠ None →
     fst (public_thumbnail got stored' now' token st') = PublicNoThumbnail)
  ∧ (is_Some (client redis) → isConnected redis = true →
     stored = true → got = true →
     0 < expiresIn → now' < now + expiresIn * 3600 →
     Redis.getPublicShare got now' token (snd st') ≠ None).
Proof.
  intros Hpk Hf Hmay Hfresh Hcache Hthumb Hpath Hne. cbv zeta.
  pose proof (file_access_rows_resolve caller file d Hpk Hf) as Hrows.
  destruct (resolve_file caller (f_id file) d) as [a|];
    [|by destruct Hmay].
  destruct Hrows as [rest Hrows].
  unfold create_share. rewrite Hrows, decide_True by done. cbn [snd].
  set (d' := set_share (Some token) true (f_id file) d).
  set (file' := with_share (Some token) true file).
  assert (file' ∈ files d') as Hf'.
  { unfold d'. rewrite files_set_share. apply list_elem_of_fmap.
    exists file. by rewrite decide_True. }
  split_and!.
  - intros Hmiss. unfold public_thumbnail, lookup_share. rewrite Hmiss.
    destruct (filter _ (files d')) as [|g gs] eqn:E.
    { exfalso.
      exact (filter_nil_not_elem_of _ _ file' E (conj eq_refl eq_refl) Hf'). }
    apply (shared_row_found token file d g gs Hpk Hf Hfresh) in E as ->.
    cbn [hasThumbnail thumbnailPath thumbnail_share_of_file with_share
         has_thumbnail thumbnail_path].
    rewrite Hthumb, Hpath. by rewrite decide_False.
  - intros Hhit. unfold public_thumbnail, lookup_share.
    destruct (getPublicShare_cachePublicShare stored got now now' token
                (share_of_file file) (expiresIn * 3600) redis)
      as [Hsome|[Hnone|Hold]].
    + by rewrite Hsome.
    + by destruct Hhit.
    + destruct Hhit. by rewrite Hold.
  - intros [entries Hclient] Hconn -> -> Httl Hlive.
    unfold Redis.getPublicShare, Redis.cachePublicShare, Redis.get, Redis.set.
    rewrite Hclient, Hconn. cbn [andb].
    rewrite bool_decide_eq_true_2 by lia. cbn.
    rewrite lookup_insert_eq. by rewrite decide_True by lia.
Qed.

(** cat.png with a thumbnail is shared for a day at time 0 through a
    connected cache: an hour later its public thumbnail is 'not
    available'. *)
Lemma cached_share_hides_thumbnail_witness :
  fst (public_thumbnail true true 3600 "tok-9"
         (snd (create_share true 0 "tok-9" 24 1 10
                 (with_files
                    [{| f_id := 10; f_user_id := 1; folder_id := Some 1;
                        f_name := "cat.png"; original_name := "cat.png";
                        mime_type := "image/png"; size := 400000;
                        backblaze_file_id := "cat.png";
                        backblaze_url := "cat.png";
                        public_share_token := None; is_public := false;
                        download_count := 0;
                        thumbnail_path := Some "thumb_cat.jpg";
                        has_thumbnail := true |}] sample_db,
                  empty_cache))))
  = PublicNoThumbnail.
Proof.
  set (file := {| f_id := 10; f_user_id := 1; folder_id := Some 1;
                  f_name := "cat.png"; original_name := "cat.png";
                  mime_type := "image/png"; size := 400000;
                  backblaze_file_id := "cat.png"; backblaze_url := "cat.png";
                  public_share_token := None; is_public := false;
                  download_count := 0;
                  thumbnail_path := Some "thumb_cat.jpg";
                  has_thumbnail := true |}).
  set (d := with_files [file] sample_db).
  assert (pk_files d) as Hpk.
  { intros f g Hf%list_elem_of_singleton Hg%list_elem_of_singleton _.
    congruence. }
  assert (file ∈ files d) as Hfile by by apply list_elem_of_singleton.
  pose proof (cached_share_hides_thumbnail true true true 0 3600 24 "tok-9"
                "thumb_cat.jpg" 1 file d empty_cache Hpk Hfile) as H.
  destruct H as (_ & Hhidden & Hlive).
  - left. by vm_compute.
  - intros f Hf%list_elem_of_singleton. by subst f.
  - done.
  - done.
  - done.
  - done.
  - apply Hhidden, Hlive; [by eexists|done|done|done|lia|lia].
Defined.

(** ** What the mixed bulk delete may remove *)

Lemma file_access_rows_level caller (ok : file_row → Prop)
    `{∀ f, Decision (ok f)} d f a :
  pk_files d → unique_permissions d →
  (f, a) ∈ file_access_rows caller ok d →
  f ∈ files d ∧ ok f ∧ a = resolve_file caller (f_id f) d.
Proof.
  intros Hpk Huniq (op & Hj & Hok & Hw & ->)%elem_of_file_access_rows.
  apply elem_of_files_with_grant in Hj as [Hf Hop].
  split_and!; [done..|]. unfold access_level_case.
  destruct (decide (f_user_id f = caller)) as [Hown|Hown].
  - by rewrite (resolve_file_owner caller f d Hpk Hf Hown).
  - destruct Hw as [?|(q & -> & Hq)]; [done|].
    destruct Hop as (Hq1 & Hq2 & Hq3).
    by rewrite (resolve_file_granted caller f d Hpk Huniq Hf q Hown Hq1 Hq2 Hq3).
Qed.

Lemma folder_access_rows_owner caller (ok : folder_row → Prop)
    `{∀ f, Decision (ok f)} d G a :
  (G, a) ∈ folder_access_rows caller ok d →
  G ∈ folders d ∧ ok G ∧ (a = Some owner → fo_user_id G = caller).
Proof.
  intros (op & Hj & Hok & Hw & ->)%elem_of_folder_access_rows.
  apply elem_of_folders_with_grant in Hj as [HG _].
  split_and!; [done..|]. unfold access_level_case.
  case_decide; [done|]. by destruct op.
Qed.

Lemma mixed_delete_files_removed service caller fileIds w :
  pk_files (w_db w) → unique_permissions (w_db w) →
  let w1 := (mixed_delete_files service caller fileIds w).2 in
  folders (w_db w1) = folders (w_db w)
  ∧ permissions (w_db w1) = permissions (w_db w)
  ∧ ∀ f, f ∈ files (w_db w) → f ∉ files (w_db w1) →
      f_id f ∈ fileIds ∧ may_delete (resolve_file caller (f_id f) (w_db w)).
Proof.
  intros Hpk Huniq. cbv zeta. unfold mixed_delete_files.
  destruct fileIds as [|i ids]; [by split_and!|].
  set (fileIds := i :: ids).
  set (rows := file_access_rows caller (λ f, f_id f ∈ fileIds) (w_db w)).
  set (l := fst <$> filter (λ r : file_row * option access, may_delete r.2)
                      rows).
  pose proof (foldl_invariant_elem
                (λ acc : list (Z * string) * list (Z * string) * world,
                   folders (w_db acc.2) = folders (w_db w)
                   ∧ permissions (w_db acc.2) = permissions (w_db w)
                   ∧ ∀ f, f ∈ files (w_db w) → f ∉ files (w_db acc.2) →
                       ∃ file, file ∈ l ∧ f_id f = f_id file)
                (mixed_delete_file_one service) l ([], [], w)) as Hloop.
  destruct (foldl _ _ l) as [[deleted failed] w1]. cbn [snd] in *.
  destruct Hloop as (Hfo & Hpe & Hfi).
  - intros [[del fl] w0] b Hb (IHfo & IHpe & IHfi). cbn [snd] in *.
    unfold mixed_delete_file_one. destruct service as [blob_deleted|];
      [|by split_and!].
    cbn [snd on_db w_db]. rewrite w_db_try_delete_blob.
    split_and!; [done..|]. intros f Hf Hgone.
    destruct (decide (f ∈ files (w_db w0))) as [Hin|Hout]; [|by apply IHfi].
    exists b. split; [done|].
    destruct (decide (f_id f = f_id b)) as [|Hne]; [done|].
    destruct Hgone. unfold delete_file_row. cbn [files with_files].
    by apply list_elem_of_filter.
  - by split_and!.
  - split_and!; [done..|]. intros f Hf Hgone.
    destruct (Hfi f Hf Hgone) as (file & Hfile & Hid).
    apply list_elem_of_fmap in Hfile as ([file' a] & -> & Hrow).
    apply list_elem_of_filter in Hrow as [Hmay Hrow]. cbn [fst snd] in *.
    destruct (file_access_rows_level caller _ (w_db w) file' a Hpk Huniq Hrow)
      as (_ & Hok & ->).
    rewrite Hid. done.
Qed.

Lemma mixed_delete_folders_removed caller folderIds d :
  pk_folders d →
  let d' := (mixed_delete_folders caller folderIds d).2 in
  (∀ G, G ∈ folders d → G ∉ folders d' →
     fo_id G ∈ folderIds ∧ fo_user_id G = caller)
  ∧ (∀ p, p ∈ permissions d → p ∉ permissions d' →
       p_folder_id p ∈ folderIds
       ∧ ∃ G, G ∈ folders d ∧ fo_id G = p_folder_id p
              ∧ fo_user_id G = caller).
Proof.
  intros Hpk. cbv zeta. unfold mixed_delete_folders.
  destruct folderIds as [|i ids]; [by split|].
  set (folderIds := i :: ids).
  set (rows := folder_access_rows caller (λ f, fo_id f ∈ folderIds) d).
  set (l := fst <$> filter (λ r : folder_row * option access, r.2 = Some owner)
                      rows).
  assert (∀ folder, folder ∈ l →
            folder ∈ folders d ∧ fo_id folder ∈ folderIds
            ∧ fo_user_id folder = caller) as Hl.
  { intros folder ([G a] & -> & Hrow)%list_elem_of_fmap.
    apply list_elem_of_filter in Hrow as [Ha Hrow]. cbn [fst snd] in *.
    destruct (folder_access_rows_owner caller _ d G a Hrow) as (HG & Hok & Hown).
    split_and!; [done..|]. by apply Hown. }
  pose proof (foldl_invariant_elem
                (λ acc : list (Z * string) * list (Z * string) * db,
                   (∀ G, G ∈ folders d → G ∉ folders acc.2 →
                      ∃ folder, folder ∈ l ∧ fo_id G = fo_id folder)
                   ∧ ∀ p, p ∈ permissions d → p ∉ permissions acc.2 →
                       ∃ folder, folder ∈ l ∧ p_folder_id p = fo_id folder)
                mixed_delete_folder_one l ([], [], d)) as Hloop.
  destruct (foldl _ _ l) as [[deleted non_empty] d']. cbn [snd] in *.
  destruct Hloop as (Hfo & Hpe).
  - intros [[del ne] d0] b Hb (IHfo & IHpe). cbn [snd] in *.
    unfold mixed_delete_folder_one. case_decide; [by split|].
    cbn [snd]. split.
    + intros G HG Hgone.
      destruct (decide (G ∈ folders d0)) as [Hin|Hout]; [|by apply IHfo].
      exists b. split; [done|].
      destruct (decide (fo_id G = fo_id b)) as [|Hne]; [done|].
      destruct Hgone. unfold delete_folder_rows. cbn [folders with_folders].
      by apply list_elem_of_filter.
    + intros p Hp Hgone.
      destruct (decide (p ∈ permissions d0)) as [Hin|Hout]; [|by apply IHpe].
      exists b. split; [done|].
      destruct (decide (p_folder_id p = fo_id b)) as [|Hne]; [done|].
      destruct Hgone. unfold delete_folder_rows.
      cbn [permissions with_folders with_permissions].
      by apply list_elem_of_filter.
  - by split.
  - split.
    + intros G HG Hgone. destruct (Hfo G HG Hgone) as (folder & Hfolder & Hid).
      destruct (Hl folder Hfolder) as (Hin & Hids & Hown).
      rewrite (Hpk G folder HG Hin Hid). done.
    + intros p Hp Hgone. destruct (Hpe p Hp Hgone) as (folder & Hfolder & Hid).
      destruct (Hl folder Hfolder) as (Hin & Hids & Hown).
      rewrite Hid. split; [done|]. by exists folder.
Qed.

(** X25.  [DELETE /bulk/mixed] removes only what the caller may remove,
    whatever answer it gives (the answer 403 does not undo the deletions
    made for the other items): a file row that is gone was asked for and
    the caller's level on it was [owner] or [edit]; a folder row that is
    gone was asked for and owned by the caller; a grant that is gone was a
    grant on such a folder; the users table is as it was. *)
Theorem mixed_bulk_delete_removes_only_permitted
    (service : option (file_row → bool)) (caller : Z)
    (fileIds folderIds : list Z) (w : world) :
  pk_files (w_db w) → pk_folders (w_db w) → unique_permissions (w_db w) →
  let w' := snd (mixed_bulk_delete service caller fileIds folderIds w) in
  (∀ f, f ∈ files (w_db w) → f ∉ files (w_db w') →
     f_id f ∈ fileIds ∧ may_delete (resolve_file caller (f_id f) (w_db w)))
  ∧ (∀ G, G ∈ folders (w_db w) → G ∉ folders (w_db w') →
       fo_id G ∈ folderIds ∧ fo_user_id G = caller)
  ∧ (∀ p, p ∈ permissions (w_db w) → p ∉ permissions (w_db w') →
       p_folder_id p ∈ folderIds
       ∧ ∃ G, G ∈ folders (w_db w) ∧ fo_id G = p_folder_id p
              ∧ fo_user_id G = caller)
  ∧ users (w_db w') = users (w_db w).
Proof.
  intros Hpkf Hpk Huniq. cbv zeta.
  split_and!; [| | |apply mixed_bulk_delete_users].
  all: unfold mixed_bulk_delete; case_decide; [by intros ? ? ?|].
  all: pose proof (mixed_delete_files_removed service caller fileIds w
                     Hpkf Huniq) as (Hfo1 & Hpe1 & Hfi1).
  all: destruct (mixed_delete_files service caller fileIds w)
         as [file_results w1]; cbn [snd] in *.
  all: assert (pk_folders (w_db w1)) as Hpk1
         by (unfold pk_folders; by rewrite Hfo1).
  all: pose proof (mixed_delete_folders_removed caller folderIds (w_db w1) Hpk1)
         as (Hfo2 & Hpe2).
  all: pose proof (mixed_delete_folders_files caller folderIds (w_db w1))
         as Hfi2.
  all: destruct (mixed_delete_folders caller folderIds (w_db w1))
         as [folder_results d2]; cbn [snd] in *.
  all: rewrite Hfo1 in Hfo2; rewrite Hpe1 in Hpe2.
  - intros f Hf Hgone. apply Hfi1; [done|]. rewrite <- Hfi2.
    by case_decide.
  - intros G HG Hgone. apply Hfo2; [done|]. by case_decide.
  - intros p Hp Hgone.
    destruct (Hpe2 p Hp) as (Hid & G & HG & Hown); [by case_decide|].
    rewrite Hfo1 in HG. split; [done|]. by exists G.
Qed.

(** Bob asks for the deletion of alice's cat.png, on which he holds
    [view]: whatever else the request names, cat.png stays. *)
Lemma mixed_bulk_delete_removes_only_permitted_witness :
  cat_png ∈ files (w_db (snd (mixed_bulk_delete services_backblaze 2
                                [10; 11] [1] sample_world))).
Proof.
  pose proof (mixed_bulk_delete_removes_only_permitted services_backblaze 2
                [10; 11] [1] sample_world sample_db_pk_files
                sample_db_pk_folders sample_db_unique_permissions)
    as (Hfiles & _).
  destruct (decide (cat_png ∈ files (w_db (snd (mixed_bulk_delete
                                                  services_backblaze 2
                                                  [10; 11] [1] sample_world)))))
    as [Hin|Hout]; [done|].
  destruct (Hfiles cat_png ltac:(decide_closed) Hout) as [_ [Hmay|Hmay]];
    by vm_compute in Hmay.
Defined.

(** ** Which route answers *)

(** X26.  The two bulk delete routes are never reached.  [DELETE /bulk]
    is registered after [DELETE /:fileId] in the file router and after
    [DELETE /:folderId] in the folder router, and every path that matches
    [/bulk] matches the parameter route first: no request is dispatched to
    either bulk route; [DELETE /bulk] itself is answered by the single
    delete route with the id "bulk".  [DELETE /bulk/mixed] is reached, and
    so is the public download for every share token other than the words
    download, thumbnail and view. *)
Theorem bulk_delete_routes_unreachable :
  (∀ m path, dispatch files_router m path ≠ Some BulkDeleteFilesRoute)
  ∧ (∀ m path, dispatch folders_router m path ≠ Some BulkDeleteFoldersRoute)
  ∧ dispatch files_router DELETE ["bulk"] = Some DeleteFileRoute
  ∧ dispatch folders_router DELETE ["bulk"] = Some DeleteFolderRoute
  ∧ dispatch folders_router DELETE ["bulk"; "mixed"] = Some MixedBulkDeleteRoute
  ∧ (∀ token, token ≠ "" →
       toLowerCase token ∉ ["download"; "thumbnail"; "view"] →
       dispatch files_router GET ["public"; token] = Some PublicDownloadRoute).
Proof.
  split_and!; [| |done..|].
  - intros m path. destruct m; destruct path as [|s [|s2 [|s3 [|s4 rest]]]];
      cbn [dispatch files_router path_matches part_matches bool_decide
           decide_rel http_method_eq_dec andb];
      try done;
      repeat (case_bool_decide; cbn [andb]; try done).
    all: match goal with
         | E : ?s = "", Hl : toLowerCase _ = toLowerCase ?s |- _ =>
           rewrite E in Hl; by vm_compute in Hl
         end.
  - intros m path. destruct m; destruct path as [|s [|s2 [|s3 [|s4 rest]]]];
      cbn [dispatch folders_router path_matches part_matches bool_decide
           decide_rel http_method_eq_dec andb];
      try done;
      repeat (case_bool_decide; cbn [andb]; try done).
    all: match goal with
         | E : ?s = "", Hl : toLowerCase _ = toLowerCase ?s |- _ =>
           rewrite E in Hl; by vm_compute in Hl
         end.
  - intros token Hne Hword. rewrite !not_elem_of_cons in Hword.
    destruct Hword as (Hd & Ht & Hv & _).
    cbn [dispatch files_router path_matches part_matches andb].
    rewrite !(bool_decide_eq_false_2 (POST = GET)) by done.
    rewrite !(bool_decide_eq_false_2 (DELETE = GET)) by done.
    rewrite !(bool_decide_eq_false_2 (OPTIONS = GET)) by done.
    rewrite !(bool_decide_eq_true_2 (GET = GET)) by done.
    rewrite !(bool_decide_eq_true_2 (token ≠ "")) by done.
    rewrite !(bool_decide_eq_true_2 ("public" ≠ "")) by done.
    rewrite (bool_decide_eq_false_2 (toLowerCase "download" = toLowerCase token))
      by (intros E; apply Hd; by rewrite <- E).
    rewrite (bool_decide_eq_false_2 (toLowerCase "thumbnail" = toLowerCase token))
      by (intros E; apply Ht; by rewrite <- E).
    rewrite (bool_decide_eq_false_2 (toLowerCase "view" = toLowerCase token))
      by (intros E; apply Hv; by rewrite <- E).
    rewrite !(bool_decide_eq_true_2
                (toLowerCase "public" = toLowerCase "public")) by done.
    done.
Qed.

(** A share token made by [crypto.randomUUID()] reaches the public
    download. *)
Lemma bulk_delete_routes_unreachable_witness :
  dispatch files_router GET ["public"; "3f2b8c1e-7a4d-4e0b-9c55-0d6a1b2c3d4e"]
  = Some PublicDownloadRoute.
Proof.
  apply (proj2 (proj2 (proj2 (proj2 (proj2 bulk_delete_routes_unreachable))))).
  - done.
  - decide_closed.
Defined.
